(** * ArborX distributed-tree utilities: a shallow embedding

    This development embeds, function by function,
    [src/details/ArborX_DetailsPermutedData.hpp] and
    [src/details/ArborX_DetailsDistributedTreeUtils.hpp] and proves the
    properties their specification states about them.

    Conventions of the embedding:
    - a C++ [int] is a [Z]; arithmetic that the code performs on [int]
      goes through [Int.wrap_int] (two's complement, 32 bits);
    - a rank-1 [Kokkos::View<T*>] is a [list T]; reading or writing a view
      outside of its extent has no defined behaviour and is [None];
    - a view allocated [WithoutInitializing] is a list of cells, [None] for a
      cell that was never written;
    - a [Kokkos::parallel_for] runs its body once per index of its range in
      an order the caller does not control.  The execution space decides
      that order; theorems hold for every execution space that visits each
      index of the range once;
    - the functions that communicate run in a monad that keeps the log of
      the exchanges made through the transport and stops at a failed
      assertion;
    - code that these two files call but do not contain (the [Distributor],
      the priority queue, [sortObjects], [getK], ...) is a parameter, a class
      whose contract is a hypothesis where it is needed, or is modelled from
      the specification and marked as such.

    The first part holds the embedding, the second part the proofs. *)

From stdpp Require Import base option list sorting strings gmap.
From Stdlib Require Import ZArith Lia.

Local Open Scope Z_scope.

(** * Part I: the embedding *)

(** ** Machine integers *)

Module Int.

Definition min_int : Z := - 2 ^ 31.
Definition max_int : Z := 2 ^ 31 - 1.

(** Two's complement reduction of a mathematical integer to [int]. *)
Definition wrap_int (z : Z) : Z := (z + 2 ^ 31) mod 2 ^ 32 - 2 ^ 31.

Definition in_int (z : Z) : Prop := min_int ≤ z ≤ max_int.

Definition add (a b : Z) : Z := wrap_int (a + b).
Definition sub (a b : Z) : Z := wrap_int (a - b).

(** [(int)n] for an unsigned extent or index [n]. *)
Definition of_size (n : nat) : Z := wrap_int (Z.of_nat n).

End Int.

(** ** Views and the execution space *)

Module View.

(** [v(i)] *)
Definition get {A} (v : list A) (i : Z) : option A :=
  if decide (0 ≤ i) then v !! Z.to_nat i else None.

(** [v(i) = x] *)
Definition set {A} (v : list A) (i : Z) (x : A) : option (list A) :=
  if decide (0 ≤ i < Z.of_nat (length v)) then Some (<[Z.to_nat i := x]> v)
  else None.

(** A view of [n] elements that all hold [x] (value-initialised, or filled
    by [deep_copy(view, x)]); a negative [n] gives none. *)
Definition alloc {A} (n : Z) (x : A) : list A := replicate (Z.to_nat n) x.

(** A view of [n] elements allocated [WithoutInitializing]: each cell is
    [None] until it is written. *)
Definition uninitialized {A} (n : Z) : list (option A) := alloc n None.

End View.

Module Kokkos.

(** The order in which an execution space runs the [n] iterations of the
    parallel loop of a given label. *)
Record ExecutionSpace : Type := { schedule : string → nat → list nat }.

(** Each index of the range is visited once. *)
Definition valid_space (space : ExecutionSpace) : Prop :=
  ∀ label n, schedule space label n ≡ₚ seq 0 n.

Definition serial : ExecutionSpace := {| schedule := λ _ n, seq 0 n |}.
Definition reversed : ExecutionSpace := {| schedule := λ _ n, reverse (seq 0 n) |}.

(** [parallel_for(label, RangePolicy(space, 0, n), body)] on a state [S]
    that the iterations update. *)
Definition parallel_for {S} (space : ExecutionSpace) (label : string) (n : Z)
    (body : Z → S → option S) (s : S) : option S :=
  foldl (λ acc i, acc ≫= body (Z.of_nat i)) (Some s)
        (schedule space label (Z.to_nat n)).

(** A view of any rank, by its extents and its elements in row-major
    order. *)
Record View (A : Type) : Type := { extents : list nat; contents : list A }.
Arguments extents {A} _.
Arguments contents {A} _.

(** [v.extent(r)], which is 1 for an [r] beyond the rank of the view. *)
Definition extent {A} (v : View A) (r : nat) : nat := nth r (extents v) 1%nat.

(** [v.size()] *)
Definition size {A} (v : View A) : nat := foldr Nat.mul 1%nat (extents v).

Definition rank1 {A} (l : list A) : View A :=
  {| extents := [length l]; contents := l |}.

Definition with_contents {A B} (v : View A) (l : list B) : View B :=
  {| extents := extents v; contents := l |}.

(** [atomic_increment(&v(i))] *)
Definition atomic_increment (v : list Z) (i : Z) : option (list Z) :=
  x ← View.get v i; View.set v i (Int.add x 1).

End Kokkos.

Module KokkosExt.

(** Modelled from the spec: [KokkosExt::exclusive_scan], declared outside
    of these sources, converts counts to an exclusive running sum that
    starts from [init]. *)
Fixpoint exclusive_scan (v : list Z) (init : Z) : list Z :=
  match v with
  | [] => []
  | x :: v' => init :: exclusive_scan v' (Int.add init x)
  end.

(** Modelled from the spec: [KokkosExt::lastElement], declared outside of
    these sources, reads the last entry of a view (for an offset array,
    the total item count). *)
Definition lastElement (v : list Z) : option Z := last v.

(** [KokkosExt::min] on [int]. *)
Definition min (a b : Z) : Z := Z.min a b.

End KokkosExt.

(** ** [ArborX_DetailsPermutedData.hpp] *)

Module PermutedData.

(** [struct PermutedData { Data _data; Permute _permute; }].  The template
    flag [AttachIndices] is an argument of the accessor that reads it. *)
Record t (A : Type) : Type := mk { _data : list A; _permute : list Z }.
Arguments mk {A} _ _.
Arguments _data {A} _.
Arguments _permute {A} _.

(** Modelled from the spec: [attach], declared outside of these sources,
    pairs the presented element with the index it is given. *)
Record PredicateWithAttachment (A : Type) : Type :=
  attach { predicate : A; attachment : Z }.
Arguments attach {A} _ _.
Arguments predicate {A} _.
Arguments attachment {A} _.

(** Accessors take the object by [const] reference.  They are written as
    readers that also hand back the object they ran on, so that what an
    access leaves behind can be stated. *)
Definition reader (A R : Type) : Type := t A → option R * t A.

Definition read_permute {A} (i : Z) : reader A Z :=
  λ pd, (View.get (_permute pd) i, pd).

Definition read_data {A} (j : Z) : reader A A :=
  λ pd, (View.get (_data pd) j, pd).

Definition rbind {A R S} (m : reader A R) (k : R → reader A S) : reader A S :=
  λ pd, match m pd with
        | (Some r, pd') => k r pd'
        | (None, pd') => (None, pd')
        end.

Definition rmap {A R S} (f : R → S) (m : reader A R) : reader A S :=
  λ pd, let '(r, pd') := m pd in (f <$> r, pd').

(** [operator()(int i) const { return _data(_permute(i)); }] *)
Definition call {A} (i : Z) : reader A A :=
  rbind (read_permute i) read_data.

(** [size() const { return _data.size(); }] *)
Definition size {A} (pd : t A) : nat := length (_data pd).

(** [AccessTraits<PermutedData, PredicatesTag>::size] *)
Definition access_size {A} (permuted_predicates : t A) : nat :=
  length (_data permuted_predicates).

(** [AccessTraits<...>::get], the overload for [AttachIndices == true]:
    [attach(_data(_permute(index)), (int)index)]. *)
Definition access_get_attach {A} (index : nat)
    : reader A (PredicateWithAttachment A) :=
  rbind (read_permute (Z.of_nat index)) (λ permuted_index,
    rmap (λ x, attach x (Int.of_size index)) (read_data permuted_index)).

(** [AccessTraits<...>::get], the overload for [AttachIndices == false]. *)
Definition access_get_plain {A} (index : nat) : reader A A :=
  rbind (read_permute (Z.of_nat index)) (λ permuted_index,
    read_data permuted_index).

(** The result type that the template flag selects. *)
Definition access_result (A : Type) (AttachIndices : bool) : Type :=
  if AttachIndices then PredicateWithAttachment A else A.

Definition access_get {A} (AttachIndices : bool) (index : nat)
    : reader A (access_result A AttachIndices) :=
  match AttachIndices with
  | true => access_get_attach index
  | false => access_get_plain index
  end.

End PermutedData.

(** ** [ArborX_DetailsDistributedTreeUtils.hpp] *)

Module DistributedTree.

(** [countResults(space, n_queries, query_ids, offset)]; the result is the
    new contents of [offset]. *)
Definition countResults (space : Kokkos.ExecutionSpace) (n_queries : Z)
    (query_ids : list Z) (offset : list Z) : option (list Z) :=
  let nnz := Int.of_size (length query_ids) in
  (* Kokkos::realloc value-initialises whatever [offset] held before *)
  let offset := View.alloc (Int.add n_queries 1) 0 in
  offset ← Kokkos.parallel_for space
    "ArborX::DistributedTree::query::count_results_per_query" nnz
    (λ i offset, q ← View.get query_ids i; Kokkos.atomic_increment offset q)
    offset;
  Some (KokkosExt.exclusive_scan offset 0).

(** *** Processes, plans and transfers *)

(** [MPI_Comm], as far as this file looks at it: the rank of the calling
    process, and what the rest of the group answers when a plan is built
    (how many items the process will receive for given destinations). *)
Record MPI_Comm : Type := {
  MPI_Comm_rank : Z;
  network_imports : list Z → nat;
}.

(** Modelled from the spec: the [Distributor], declared outside of these
    sources, is a communication plan built from the destination process of
    every exported item; it knows the total outgoing and incoming item
    counts. *)
Record Distributor : Type := {
  distributor_comm : MPI_Comm;
  destinations : list Z;
}.

Definition getTotalSendLength (d : Distributor) : nat :=
  length (destinations d).

Definition getTotalReceiveLength (d : Distributor) : nat :=
  network_imports (distributor_comm d) (destinations d).

(** [distributor.createFromSends(space, indices)]: the plan and the number
    of imports. *)
Definition createFromSends (comm : MPI_Comm) (indices : list Z)
    : Distributor * Z :=
  let d := {| distributor_comm := comm; destinations := indices |} in
  (d, Int.of_size (getTotalReceiveLength d)).

(** Modelled from the spec: the destination of batch [q], repeated once per
    item of the batch, that is [offset(q+1) - offset(q)] times (the
    result-count-expanded rank list). *)
Definition batched_destinations (ranks offset : list Z) : list Z :=
  mjoin (imap (λ q r, replicate (Z.to_nat (offset !!! S q - offset !!! q)) r)
              ranks).

(** [distributor.createFromSends(space, ranks, offset)] *)
Definition createFromSends_batched (comm : MPI_Comm) (ranks offset : list Z)
    : Distributor * Z :=
  createFromSends comm (batched_destinations ranks offset).

(** What the group sends to the calling process: the value that an exchange
    under a plan writes at each position of the import buffer.  Cells of an
    export buffer that were never written are [None]. *)
Class Transport (A : Type) : Type :=
  received : Distributor → list (option A) → nat → nat → A.

(** One exchange through the transport: the plan, the exported cells and
    the number of packets per item. *)
Inductive event : Type :=
| Exchange (A : Type) (d : Distributor) (exports : list (option A))
    (num_packets : nat).

(** A computation either finishes with a value and the exchanges made so
    far, or stops at a failed assertion with the exchanges made until
    then, or has no defined behaviour. *)
Inductive outcome (A : Type) : Type :=
| Done (a : A) (log : list event)
| Fatal (log : list event)
| Undefined.
Arguments Done {A} _ _.
Arguments Fatal {A} _.
Arguments Undefined {A}.

Definition M (A : Type) : Type := list event → outcome A.

Definition ret {A} (a : A) : M A := λ log, Done a log.

Definition bind {A B} (m : M A) (k : A → M B) : M B :=
  λ log, match m log with
         | Done a log' => k a log'
         | Fatal log' => Fatal log'
         | Undefined => Undefined
         end.

Notation "x ←ₘ m ; k" := (bind m (λ x, k))
  (at level 20, m at level 100, k at level 200, only parsing).
Notation "m ;;ₘ k" := (bind m (λ _, k))
  (at level 100, k at level 200, right associativity, only parsing).

(** A view access or a loop over views, inside a computation. *)
Definition defined {A} (o : option A) : M A :=
  λ log, match o with Some a => Done a log | None => Undefined end.

(** Modelled from the spec: [ARBORX_ASSERT], declared outside of these
    sources, stops the computation on a violated contract (a fatal
    assertion, not a runtime error that the caller could handle). *)
Definition ARBORX_ASSERT (c : bool) : M unit :=
  λ log, if c then Done () log else Fatal log.

(** [distributor.doPostsAndWaits(space, exports, num_packets, import_buffer)]
    for an import buffer of [n] elements. *)
Definition doPostsAndWaits {A} `{Transport A} (distributor : Distributor)
    (exports : Kokkos.View (option A)) (num_packets : nat) (n : nat)
    : M (list A) :=
  λ log,
    Done (received distributor (Kokkos.contents exports) num_packets <$> seq 0 n)
         (log ++ [Exchange A distributor (Kokkos.contents exports) num_packets]).

(** [sendAcrossNetwork(space, distributor, exports, imports)]; the result is
    the import view after the call, every cell of which has been received. *)
Definition sendAcrossNetwork {A} `{Transport A} (distributor : Distributor)
    (exports imports : Kokkos.View (option A)) : M (Kokkos.View A) :=
  ARBORX_ASSERT
    (bool_decide (Kokkos.extent exports 0 = getTotalSendLength distributor)
     && bool_decide (Kokkos.extent imports 0 = getTotalReceiveLength distributor)
     && bool_decide (Kokkos.extent exports 1 = Kokkos.extent imports 1)
     && bool_decide (Kokkos.extent exports 2 = Kokkos.extent imports 2)
     && bool_decide (Kokkos.extent exports 3 = Kokkos.extent imports 3)
     && bool_decide (Kokkos.extent exports 4 = Kokkos.extent imports 4)
     && bool_decide (Kokkos.extent exports 5 = Kokkos.extent imports 5)
     && bool_decide (Kokkos.extent exports 6 = Kokkos.extent imports 6)
     && bool_decide (Kokkos.extent exports 7 = Kokkos.extent imports 7)) ;;ₘ
  let num_packets :=
    (Kokkos.extent exports 1 * Kokkos.extent exports 2
     * Kokkos.extent exports 3 * Kokkos.extent exports 4
     * Kokkos.extent exports 5 * Kokkos.extent exports 6
     * Kokkos.extent exports 7)%nat in
  (* the staging copy in the transport's layout has the extents of [imports] *)
  import_buffer ←ₘ doPostsAndWaits distributor exports num_packets
                     (Kokkos.size imports);
  ret (Kokkos.with_contents imports import_buffer).

(** [for (int i = lo; i < hi; ++i) body(i)] *)
Definition for_range {S} (lo hi : Z) (body : Z → S → option S) (s : S)
    : option S :=
  foldl (λ acc i, acc ≫= body i) (Some s) (seqZ lo (hi - lo)).

(** The loop that the three fill kernels share:
    [for (int i = offset(q); i < offset(q + 1); ++i) buffer(i) = value(q);] *)
Definition fill_batch {A} (offset : list Z) (value : Z → option A) (q : Z)
    (buffer : list (option A)) : option (list (option A)) :=
  lo ← View.get offset q;
  hi ← View.get offset (Int.add q 1);
  for_range lo hi (λ i buffer, x ← value q; View.set buffer i (Some x)) buffer.

(** [forwardQueries(comm, space, queries, indices, offset, fwd_queries,
    fwd_ids, fwd_ranks)]; the result holds the new [fwd_queries], [fwd_ids]
    and [fwd_ranks]. *)
Definition forwardQueries {Query} `{Transport Z, Transport Query}
    (comm : MPI_Comm) (space : Kokkos.ExecutionSpace)
    (queries : list Query) (indices offset : list Z)
    : M (list Query * list Z * list Z) :=
  let comm_rank := MPI_Comm_rank comm in
  let n_queries := Int.of_size (length queries) in
  n_exports ←ₘ defined (KokkosExt.lastElement offset);
  let '(distributor, n_imports) := createFromSends comm indices in
  (* own rank, once per exported item *)
  let export_ranks := View.alloc n_exports (Some comm_rank) in
  let import_ranks := View.uninitialized n_imports in
  import_ranks ←ₘ sendAcrossNetwork distributor (Kokkos.rank1 export_ranks)
                    (Kokkos.rank1 import_ranks);
  let fwd_ranks := Kokkos.contents import_ranks in
  (* the queries *)
  let exports := View.uninitialized n_exports in
  exports ←ₘ defined (Kokkos.parallel_for space
    "ArborX::DistributedTree::query::forward_queries_fill_buffer" n_queries
    (fill_batch offset (View.get queries)) exports);
  let imports := View.uninitialized n_imports in
  imports ←ₘ sendAcrossNetwork distributor (Kokkos.rank1 exports)
               (Kokkos.rank1 imports);
  let fwd_queries := Kokkos.contents imports in
  (* the position of each query in the local batch *)
  let export_ids := View.uninitialized n_exports in
  export_ids ←ₘ defined (Kokkos.parallel_for space
    "ArborX::DistributedTree::query::forward_queries_fill_ids" n_queries
    (fill_batch offset (λ q, Some q)) export_ids);
  let import_ids := View.uninitialized n_imports in
  import_ids ←ₘ sendAcrossNetwork distributor (Kokkos.rank1 export_ids)
                  (Kokkos.rank1 import_ids);
  let fwd_ids := Kokkos.contents import_ids in
  ret (fwd_queries, fwd_ids, fwd_ranks).

(** What [communicateResultsBack] leaves in the caller's bindings. *)
Record results (Out D : Type) : Type := {
  res_out : list Out;
  res_ranks : list Z;
  res_ids : list Z;
  res_distances : option (list D);
}.
Arguments res_out {Out D} _.
Arguments res_ranks {Out D} _.
Arguments res_ids {Out D} _.
Arguments res_distances {Out D} _.

(** [communicateResultsBack(comm, space, out, offset, ranks, ids,
    distances_ptr)]; [distances_ptr] is [None] for a null pointer, and the
    result holds what the referenced views are bound to after the call. *)
Definition communicateResultsBack {Out D}
    `{Transport Z, Transport Out, Transport D}
    (comm : MPI_Comm) (space : Kokkos.ExecutionSpace)
    (out : list Out) (offset ranks ids : list Z)
    (distances_ptr : option (list D)) : M (results Out D) :=
  let comm_rank := MPI_Comm_rank comm in
  let n_fwd_queries := Int.sub (Int.of_size (length offset)) 1 in
  n_exports ←ₘ defined (KokkosExt.lastElement offset);
  let '(distributor, n_imports) := createFromSends_batched comm ranks offset in
  let export_ranks := View.alloc n_exports (Some comm_rank) in
  let import_ranks := View.uninitialized n_imports in
  import_ranks ←ₘ sendAcrossNetwork distributor (Kokkos.rank1 export_ranks)
                    (Kokkos.rank1 import_ranks);
  let ranks := Kokkos.contents import_ranks in
  let export_ids := View.uninitialized n_exports in
  export_ids ←ₘ defined (Kokkos.parallel_for space
    "ArborX::DistributedTree::query::fill_buffer" n_fwd_queries
    (fill_batch offset (View.get ids)) export_ids);
  let import_ids := View.uninitialized n_imports in
  import_ids ←ₘ sendAcrossNetwork distributor (Kokkos.rank1 export_ids)
                  (Kokkos.rank1 import_ids);
  let ids := Kokkos.contents import_ids in
  let export_out := Some <$> out in
  let import_out := View.uninitialized n_imports in
  import_out ←ₘ sendAcrossNetwork distributor (Kokkos.rank1 export_out)
                  (Kokkos.rank1 import_out);
  let out := Kokkos.contents import_out in
  match distances_ptr with
  | Some distances =>
      let export_distances := Some <$> distances in
      let import_distances := View.uninitialized n_imports in
      import_distances ←ₘ sendAcrossNetwork distributor
                            (Kokkos.rank1 export_distances)
                            (Kokkos.rank1 import_distances);
      let distances := Kokkos.contents import_distances in
      ret {| res_out := out; res_ranks := ranks; res_ids := ids;
             res_distances := Some distances |}
  | None =>
      ret {| res_out := out; res_ranks := ranks; res_ids := ids;
             res_distances := None |}
  end.

(** *** sortResults *)

(** Views share their buffers: a view is a handle into the memory of
    buffers, and a copy of a view is a handle to the same buffer. *)
Definition handle : Type := nat.

(** The sort that [sortResults] calls, [ArborX::Details::sortObjects],
    declared outside of these sources: from the contents of a view it gives
    the sorted contents (it sorts the view it is given) and the permutation
    it applied.  Its contract is stated where it is used. *)
Class Sorter (V : Type) : Type :=
  sortObjects : list V → list V * list nat.

(** Modelled from the spec: [ArborX::Details::applyPermutation], declared
    outside of these sources, applies the permutation to the buffer of the
    view: entry [i] becomes what entry [permutation(i)] was. *)
Definition applyPermutation {V} (permutation : list nat) (view : handle)
    (memory : gmap handle (list V)) : option (gmap handle (list V)) :=
  data ← memory !! view;
  if decide (length permutation = length data) then
    permuted ← mapM (λ j, data !! j) permutation;
    Some (<[view := permuted]> memory)
  else None.

(** [sortResults(space, keys, other_views...)]; the result is the memory of
    buffers after the call. *)
Definition sortResults {V} `{Sorter V} (space : Kokkos.ExecutionSpace)
    (keys : handle) (other_views : list handle)
    (memory : gmap handle (list V)) : option (gmap handle (list V)) :=
  keys_data ← memory !! keys;
  let n := length keys_data in
  if decide (n = 0%nat) then Some memory
  else
    (* a fresh buffer receives a copy of the keys, and is sorted *)
    let keys_clone : handle := fresh (dom memory) in
    let memory := <[keys_clone := keys_data]> memory in
    let '(sorted, permutation) := sortObjects keys_data in
    let memory := <[keys_clone := sorted]> memory in
    memory ← foldl (λ acc view, acc ≫= applyPermutation permutation view)
                   (Some memory) other_views;
    (* the clone goes out of scope *)
    Some (delete keys_clone memory).

(** *** filterResults *)

(** [getK], declared outside of these sources: the number of neighbours a
    nearest-neighbour query asks for. *)
Class Nearest (Query : Type) : Type := getK : Query → Z.

(** A [float] distance, as far as [filterResults] looks at it: by its
    comparison [>]. *)
Class Distance (D : Type) : Type := distance_gt : D → D → bool.

(** [using PairIndexDistance = Kokkos::pair<Kokkos::Array<int, 2>, float>] *)
Abbreviation PairIndexDistance D := ((Z * Z) * D)%type (only parsing).

(** [CompareDistance::operator()]: reverse order, a larger distance means a
    lower priority. *)
Definition CompareDistance {D} `{Distance D}
    (lhs rhs : PairIndexDistance D) : bool :=
  distance_gt lhs.2 rhs.2.

(** [Details::PriorityQueue<T, Compare, UnmanagedStaticVector<T>>], declared
    outside of these sources: a queue over a storage of fixed capacity.
    Emplacing fails when the storage is full; the top of an empty queue is
    undefined.  Its contract is stated where it is used. *)
Class PriorityQueue (T : Type) : Type := {
  pq : Type;
  pq_create : nat → pq;
  pq_empty : pq → bool;
  pq_emplace : T → pq → option pq;
  pq_top : pq → option T;
  pq_pop : pq → pq;
}.

(** The kernel [discard_results]:
    [new_offset(q) = min(offset(q + 1) - offset(q), getK(queries(q)))]. *)
Definition discard_results {Query} `{Nearest Query} (queries : list Query)
    (offset : list Z) (q : Z) (new_offset : list Z) : option (list Z) :=
  hi ← View.get offset (Int.add q 1);
  lo ← View.get offset q;
  query ← View.get queries q;
  View.set new_offset q (KokkosExt.min (Int.sub hi lo) (getK query)).

(** The loop [while (!queue.empty() && count < getK(queries(q)))] of the
    kernel [truncate_results].  [remaining] is [getK(queries(q)) - count],
    the number of iterations that the second condition still allows. *)
Fixpoint truncate_loop {D} `{PriorityQueue (PairIndexDistance D)}
    (new_offset : list Z) (q : Z) (remaining : nat) (count : Z) (queue : pq)
    (new_indices new_ranks : list Z) : option (list Z * list Z) :=
  if pq_empty queue then Some (new_indices, new_ranks)
  else
    match remaining with
    | O => Some (new_indices, new_ranks)
    | S remaining =>
        base ← View.get new_offset q;
        top ← pq_top queue;
        new_indices ← View.set new_indices (Int.add base count) top.1.1;
        new_ranks ← View.set new_ranks (Int.add base count) top.1.2;
        truncate_loop new_offset q remaining (Int.add count 1) (pq_pop queue)
          new_indices new_ranks
    end.

(** The kernel [truncate_results] for query [q]. *)
Definition truncate_results {Query D}
    `{Nearest Query, PriorityQueue (PairIndexDistance D)}
    (queries : list Query) (distances : list D) (indices offset ranks : list Z)
    (new_offset : list Z) (n_results : Z) (q : Z)
    (new : list Z * list Z) : option (list Z * list Z) :=
  hi ← View.get offset (Int.add q 1);
  lo ← View.get offset q;
  if decide (hi > lo) then
    (* the queue lives in the slice [[lo, hi)] of the scratch buffer *)
    if decide (0 ≤ lo ∧ hi ≤ n_results) then
      let queue := pq_create (Z.to_nat (hi - lo)) in
      queue ← for_range lo hi
        (λ i queue,
           index ← View.get indices i;
           rank ← View.get ranks i;
           distance ← View.get distances i;
           pq_emplace ((index, rank), distance) queue)
        queue;
      (* the loop condition reads [queries(q)] at each test; [q] is an index
         of the range of the kernel, and the value read does not change *)
      query ← View.get queries q;
      truncate_loop new_offset q (Z.to_nat (getK query)) 0 queue new.1 new.2
    else None
  else Some new.

(** [filterResults(space, queries, distances, indices, offset, ranks)]; the
    result holds the new [indices], [offset] and [ranks]. *)
Definition filterResults {Query D}
    `{Nearest Query, PriorityQueue (PairIndexDistance D)}
    (space : Kokkos.ExecutionSpace) (queries : list Query) (distances : list D)
    (indices offset ranks : list Z) : option (list Z * list Z * list Z) :=
  let n_queries := Int.of_size (length queries) in
  let new_offset := View.alloc (Int.add n_queries 1) 0 in
  new_offset ← Kokkos.parallel_for space
    "ArborX::DistributedTree::query::discard_results" n_queries
    (discard_results queries offset) new_offset;
  let new_offset := KokkosExt.exclusive_scan new_offset 0 in
  n_truncated_results ← KokkosExt.lastElement new_offset;
  let new_indices := View.alloc n_truncated_results 0 in
  let new_ranks := View.alloc n_truncated_results 0 in
  n_results ← KokkosExt.lastElement offset;
  new ← Kokkos.parallel_for space
    "ArborX::DistributedTree::query::truncate_results" n_queries
    (truncate_results queries distances indices offset ranks new_offset
       n_results)
    (new_indices, new_ranks);
  Some (new.1, new_offset, new.2).

(** *** The group as a whole *)

(** Modelled from the spec: the exchange that the [Distributor] performs,
    declared outside of these sources, copies each outgoing item to its
    destination process and keeps the order of the items of one sender.
    [sends] lists, per process in rank order, the destinations and the items
    it exports; the result lists what process [r] is sent, each item with
    the rank of the process it comes from. *)
Definition delivered {A} (sends : list (list Z * list A)) (r : Z)
    : list (nat * A) :=
  mjoin (imap (λ s send,
                 (λ item, (s, item.2))
                   <$> filter (λ item, item.1 = r) (zip send.1 send.2))
              sends).

(** One process of the group at its call of [communicateResultsBack]: its
    communicator, what the transport hands it, and its arguments. *)
Record process (Out D : Type) : Type := {
  proc_comm : MPI_Comm;
  proc_int : Transport Z;
  proc_payload : Transport Out;
  proc_float : Transport D;
  proc_space : Kokkos.ExecutionSpace;
  proc_out : list Out;
  proc_offset : list Z;
  proc_ranks : list Z;
  proc_ids : list Z;
  proc_distances : option (list D);
}.
Arguments proc_comm {Out D} _.
Arguments proc_int {Out D} _.
Arguments proc_payload {Out D} _.
Arguments proc_float {Out D} _.
Arguments proc_space {Out D} _.
Arguments proc_out {Out D} _.
Arguments proc_offset {Out D} _.
Arguments proc_ranks {Out D} _.
Arguments proc_ids {Out D} _.
Arguments proc_distances {Out D} _.

Definition gather {Out D} (p : process Out D) : M (results Out D) :=
  @communicateResultsBack Out D (proc_int p) (proc_payload p) (proc_float p)
    (proc_comm p) (proc_space p) (proc_out p) (proc_offset p) (proc_ranks p)
    (proc_ids p) (proc_distances p).

End DistributedTree.

(** * Part II: the proofs *)

(** ** Facts on machine integers and views *)

(** Closes a goal on the range of an [int]. *)
Ltac int_range := unfold Int.in_int, Int.min_int, Int.max_int in *; lia.

Lemma wrap_int_id z : Int.in_int z → Int.wrap_int z = z.
Proof.
  unfold Int.in_int, Int.min_int, Int.max_int, Int.wrap_int. intros Hz.
  rewrite Z.mod_small; lia.
Qed.

Lemma of_size_id n : Z.of_nat n ≤ Int.max_int → Int.of_size n = Z.of_nat n.
Proof.
  intros Hn. apply wrap_int_id.
  int_range.
Qed.

Lemma view_get_of_nat {A} (v : list A) (i : nat) :
  View.get v (Z.of_nat i) = v !! i.
Proof. unfold View.get. rewrite decide_True by lia. by rewrite Nat2Z.id. Qed.

Lemma view_get_Some {A} (v : list A) i x :
  View.get v i = Some x ↔ 0 ≤ i ∧ v !! Z.to_nat i = Some x.
Proof. unfold View.get. destruct (decide (0 ≤ i)); intuition congruence. Qed.

Lemma view_set_of_nat {A} (v : list A) (i : nat) x :
  (i < length v)%nat → View.set v (Z.of_nat i) x = Some (<[i := x]> v).
Proof.
  intros Hi. unfold View.set. rewrite decide_True by lia. by rewrite Nat2Z.id.
Qed.

(** ** PermutedData *)

Section permuted_data.
Context {A : Type}.
Implicit Types (pd : PermutedData.t A) (data : list A) (permute : list Z).

Lemma call_unfold pd (i : nat) j :
  PermutedData._permute pd !! i = Some j →
  PermutedData.call (Z.of_nat i) pd = (View.get (PermutedData._data pd) j, pd).
Proof.
  intros Hj. unfold PermutedData.call, PermutedData.rbind,
    PermutedData.read_permute, PermutedData.read_data.
  by rewrite view_get_of_nat, Hj.
Qed.

(** C7.  For a logical index [i] of the permutation's domain, a call and
    the plain accessor yield [data[permutation[i]]]; the attaching accessor
    yields that element paired with [i] itself, not with [permutation[i]];
    every access hands back the object as it was, its data and permutation
    untouched. *)
Theorem permuted_access pd (i : nat) (j : Z) :
  PermutedData._permute pd !! i = Some j →
  Z.of_nat i ≤ Int.max_int →
  PermutedData.call (Z.of_nat i) pd = (View.get (PermutedData._data pd) j, pd)
  ∧ PermutedData.access_get false i pd
    = (View.get (PermutedData._data pd) j, pd)
  ∧ PermutedData.access_get true i pd
    = ((λ x, PermutedData.attach x (Z.of_nat i))
         <$> View.get (PermutedData._data pd) j, pd).
Proof.
  intros Hj Hi. split; [by apply call_unfold|]. split.
  - by apply call_unfold.
  - simpl. unfold PermutedData.access_get_attach, PermutedData.rbind,
      PermutedData.rmap, PermutedData.read_permute, PermutedData.read_data.
    by rewrite view_get_of_nat, Hj, of_size_id.
Qed.

(** C2, as amended.  Both [size()] and the access trait's [size] return the
    extent of the underlying data, whatever the extent of the permutation. *)
Theorem permuted_size_is_data_extent data permute :
  PermutedData.size (PermutedData.mk data permute) = length data
  ∧ PermutedData.access_size (PermutedData.mk data permute) = length data.
Proof.
  split.
  - unfold PermutedData.size. reflexivity.
  - unfold PermutedData.access_size. reflexivity.
Qed.

End permuted_data.

(** The view of three elements presented through a permutation that selects
    two of them. *)
Definition subset_view : PermutedData.t Z :=
  PermutedData.mk [10; 20; 30] [2; 0].

(** C2, as stated, fails: on a permutation of extent 2 over data of extent 3
    both sizes are 3. *)
Lemma permuted_size_not_permutation_extent :
  PermutedData.size subset_view ≠ length (PermutedData._permute subset_view)
  ∧ PermutedData.access_size subset_view
    ≠ length (PermutedData._permute subset_view).
Proof. split; vm_compute; lia. Qed.

Lemma permuted_access_witness :
  PermutedData.call 1 subset_view = (Some 10, subset_view)
  ∧ PermutedData.access_get false 1 subset_view = (Some 10, subset_view)
  ∧ PermutedData.access_get true 1 subset_view
    = (Some (PermutedData.attach 10 1), subset_view).
Proof.
  apply (permuted_access subset_view 1 0); [reflexivity | vm_compute; congruence].
Defined.

(** ** Parallel loops *)

(** A loop that only reads its index through a view of the visited range
    does, index by index, what a fold over the visited elements does. *)
Lemma foldl_visit {S A} (ids : list A) (f : A → S → option S) acc sched :
  Forall (λ i, (i < length ids)%nat) sched →
  foldl (λ acc i, acc ≫= (λ s, q ← View.get ids (Z.of_nat i); f q s)) acc sched
  = foldl (λ acc q, acc ≫= f q) acc (omap (λ i, ids !! i) sched).
Proof.
  intros Hs. revert acc. induction Hs as [|i sched Hi _ IH]; intros acc; [done|].
  simpl. apply lookup_lt_is_Some in Hi as [q Hq]. rewrite Hq. simpl.
  rewrite IH. f_equal. destruct acc as [s|]; [|done]. simpl.
  by rewrite view_get_of_nat, Hq.
Qed.

Lemma omap_lookup_shift {A} (a : A) (l : list A) (k : list nat) :
  omap (λ i, (a :: l) !! i) (S <$> k) = omap (λ i, l !! i) k.
Proof. induction k as [|i k IH]; [done|]. csimpl. by rewrite IH. Qed.

Lemma omap_lookup_seq {A} (l : list A) :
  omap (λ i, l !! i) (seq 0 (length l)) = l.
Proof.
  induction l as [|a l IH]; [done|]. cbn [length seq]. csimpl. f_equal.
  rewrite <-fmap_S_seq, omap_lookup_shift. exact IH.
Qed.

Lemma visited_permutation {A} (ids : list A) sched :
  sched ≡ₚ seq 0 (length ids) →
  Forall (λ i, (i < length ids)%nat) sched
  ∧ omap (λ i, ids !! i) sched ≡ₚ ids.
Proof.
  intros Hs. split.
  - rewrite Hs. apply Forall_seq. lia.
  - rewrite Hs. by rewrite omap_lookup_seq.
Qed.

(** ** countResults *)

(** How many entries of [ids] equal [q]; how many are below [q]. *)
Definition occurrences (q : Z) (ids : list Z) : Z :=
  Z.of_nat (length (filter (λ x, x = q) ids)).

Definition below (q : Z) (ids : list Z) : Z :=
  Z.of_nat (length (filter (λ x, x < q) ids)).

Lemma occurrences_cons q x ids :
  occurrences q (x :: ids) = (if decide (x = q) then 1 else 0) + occurrences q ids.
Proof.
  unfold occurrences. rewrite filter_cons.
  destruct (decide (x = q)); simpl; lia.
Qed.

Lemma occurrences_bounds q ids : 0 ≤ occurrences q ids ≤ Z.of_nat (length ids).
Proof.
  unfold occurrences. pose proof (length_filter (λ x, x = q) ids). lia.
Qed.

Lemma occurrences_perm q ids ids' :
  ids ≡ₚ ids' → occurrences q ids = occurrences q ids'.
Proof. intros H. unfold occurrences. by rewrite H. Qed.

Lemma below_perm q ids ids' : ids ≡ₚ ids' → below q ids = below q ids'.
Proof. intros H. unfold below. by rewrite H. Qed.

Lemma below_succ q ids : below (q + 1) ids = below q ids + occurrences q ids.
Proof.
  unfold below, occurrences. induction ids as [|x ids IH]; [done|].
  rewrite !filter_cons.
  destruct (decide (x < q + 1)), (decide (x < q)), (decide (x = q));
    simpl; lia.
Qed.

Lemma below_none q ids : Forall (λ x, q ≤ x) ids → below q ids = 0.
Proof.
  unfold below. induction 1 as [|x ids Hx _ IH]; [done|].
  rewrite filter_cons, decide_False by lia. exact IH.
Qed.

Lemma below_all q ids :
  Forall (λ x, x < q) ids → below q ids = Z.of_nat (length ids).
Proof.
  unfold below. induction 1 as [|x ids Hx _ IH]; [done|].
  rewrite filter_cons, decide_True by lia. simpl. lia.
Qed.

(** The counting loop, on the list of the identifiers it visits. *)
Lemma increments_spec qs : ∀ off,
  Forall (λ q, 0 ≤ q < Z.of_nat (length off)) qs →
  (∀ j x, off !! j = Some x → 0 ≤ x ∧ x + Z.of_nat (length qs) ≤ Int.max_int) →
  ∃ off',
    foldl (λ acc q, acc ≫= (λ o, Kokkos.atomic_increment o q)) (Some off) qs
      = Some off'
    ∧ length off' = length off
    ∧ ∀ j x, off !! j = Some x →
        off' !! j = Some (x + occurrences (Z.of_nat j) qs).
Proof.
  induction qs as [|q qs IH]; intros off Hqs Hoff.
  - exists off. split; [done|]. split; [done|]. intros j x Hx.
    unfold occurrences. simpl. rewrite Hx. f_equal. lia.
  - apply Forall_cons in Hqs as [Hq Hqs]. simpl.
    destruct (lookup_lt_is_Some_2 off (Z.to_nat q)) as [x Hx]; [lia|].
    assert (Kokkos.atomic_increment off q
            = Some (<[Z.to_nat q := x + 1]> off)) as Hstep.
    { unfold Kokkos.atomic_increment, View.get, View.set.
      rewrite decide_True by lia. rewrite Hx. simpl.
      rewrite decide_True by lia. unfold Int.add.
      rewrite wrap_int_id; [done|].
      destruct (Hoff _ _ Hx) as [? Hb]. simpl in Hb.
      int_range. }
    rewrite Hstep.
    destruct (IH (<[Z.to_nat q := x + 1]> off)) as (off' & Hrun & Hlen & Hval).
    + by rewrite length_insert.
    + intros j y Hy. simpl in Hoff.
      destruct (decide (j = Z.to_nat q)) as [->|Hne].
      * rewrite list_lookup_insert_eq in Hy by (by eapply lookup_lt_Some).
        injection Hy as <-. specialize (Hoff _ _ Hx). lia.
      * rewrite list_lookup_insert_ne in Hy by done.
        specialize (Hoff _ _ Hy). lia.
    + exists off'. split; [done|]. split; [by rewrite Hlen, length_insert|].
      intros j y Hy. rewrite occurrences_cons.
      destruct (decide (j = Z.to_nat q)) as [->|Hne].
      * rewrite (Hval (Z.to_nat q) (x + 1)).
        -- rewrite decide_True by lia. f_equal. simplify_eq. lia.
        -- apply list_lookup_insert_eq. by eapply lookup_lt_Some.
      * rewrite (Hval j y).
        -- rewrite decide_False by lia. f_equal; lia.
        -- by rewrite list_lookup_insert_ne.
Qed.

(** The exclusive scan of the differences of [F] is [F] itself. *)
Lemma exclusive_scan_telescope (F : nat → Z) v : ∀ s init,
  init = F s →
  (∀ q x, v !! q = Some x → x = F (S (s + q)) - F (s + q)%nat) →
  (∀ q, (q ≤ length v)%nat → Int.in_int (F (s + q)%nat)) →
  KokkosExt.exclusive_scan v init = F <$> seq s (length v).
Proof.
  induction v as [|x v IH]; intros s init -> Hv HF; [done|].
  simpl. f_equal. apply IH.
  - unfold Int.add. rewrite (Hv 0%nat x eq_refl). rewrite Nat.add_0_r.
    replace (F s + (F (S s) - F s)) with (F (S s)) by lia.
    apply wrap_int_id. specialize (HF 1%nat). simpl in HF.
    replace (s + 1)%nat with (S s) in HF by lia. apply HF. lia.
  - intros q y Hy. specialize (Hv (S q) y Hy).
    by replace (s + S q)%nat with (S s + q)%nat in Hv by lia.
  - intros q Hq. specialize (HF (S q)).
    replace (s + S q)%nat with (S s + q)%nat in HF by lia.
    apply HF. simpl. lia.
Qed.

(** The offsets that [countResults] computes, in closed form: entry [q]
    counts the identifiers below [q]. *)
Definition csr_offsets (n : Z) (ids : list Z) : list Z :=
  (λ q : nat, below (Z.of_nat q) ids) <$> seq 0 (S (Z.to_nat n)).

Lemma countResults_closed_form space n ids prior :
  Kokkos.valid_space space →
  0 ≤ n < Int.max_int →
  Z.of_nat (length ids) ≤ Int.max_int →
  Forall (λ q, 0 ≤ q < n) ids →
  DistributedTree.countResults space n ids prior = Some (csr_offsets n ids).
Proof.
  intros Hspace Hn Hlen Hids. unfold DistributedTree.countResults.
  rewrite of_size_id by done. unfold Int.add, View.alloc.
  rewrite wrap_int_id
    by int_range.
  unfold Kokkos.parallel_for. rewrite Nat2Z.id.
  set (sched := Kokkos.schedule space _ (length ids)).
  destruct (visited_permutation ids sched) as [Hin Hvis]; [apply Hspace|].
  rewrite (foldl_visit ids (λ q o, Kokkos.atomic_increment o q)) by done.
  destruct (increments_spec (omap (λ i, ids !! i) sched)
              (replicate (Z.to_nat (n + 1)) 0)) as (off & -> & Hofflen & Hoff).
  - rewrite Hvis, length_replicate.
    eapply Forall_impl; [exact Hids|]. simpl. lia.
  - intros j x [-> _]%lookup_replicate. rewrite Hvis. lia.
  - simpl. f_equal. rewrite length_replicate in Hofflen.
    unfold csr_offsets. replace (S (Z.to_nat n)) with (length off) by lia.
    apply exclusive_scan_telescope.
    + symmetry. apply below_none. eapply Forall_impl; [exact Hids|].
      simpl. lia.
    + intros q x Hx. simpl.
      assert (q < length off)%nat as Hq by (by eapply lookup_lt_Some).
      rewrite (Hoff q 0) in Hx by (apply lookup_replicate_2; lia).
      injection Hx as <-. rewrite (occurrences_perm _ _ _ Hvis).
      replace (Z.of_nat (S q)) with (Z.of_nat q + 1) by lia.
      rewrite below_succ. lia.
    + intros q _. simpl.
      pose proof (length_filter (λ x, x < Z.of_nat q) ids).
      unfold below, Int.in_int, Int.min_int, Int.max_int in *. lia.
Qed.

Lemma csr_offsets_lookup n ids (q : nat) x :
  csr_offsets n ids !! q = Some x ↔
  x = below (Z.of_nat q) ids ∧ (q ≤ Z.to_nat n)%nat.
Proof.
  unfold csr_offsets. rewrite list_lookup_fmap, fmap_Some. split.
  - intros (j & [-> ?]%lookup_seq & ->). split; [done|lia].
  - intros [-> ?]. exists q. split; [|done]. apply lookup_seq. split; [done|lia].
Qed.

(** C3.  For [n >= 0] queries and identifiers in [[0, n)], [countResults]
    returns an offset array of length [n + 1] that starts at 0, ends at the
    number of identifiers, grows from entry [q] to entry [q + 1] by the
    number of occurrences of [q] (so it never decreases), and is the same
    for every order of the identifiers, every order of the loop iterations
    and every prior contents of the offset argument. *)
Theorem countResults_csr space n query_ids prior :
  Kokkos.valid_space space →
  0 ≤ n < Int.max_int →
  Z.of_nat (length query_ids) ≤ Int.max_int →
  Forall (λ q, 0 ≤ q < n) query_ids →
  ∃ offset,
    DistributedTree.countResults space n query_ids prior = Some offset
    ∧ length offset = S (Z.to_nat n)
    ∧ offset !! 0%nat = Some 0
    ∧ offset !! Z.to_nat n = Some (Z.of_nat (length query_ids))
    ∧ (∀ (q : nat) a b,
         offset !! q = Some a → offset !! S q = Some b →
         a ≤ b ∧ b - a = occurrences (Z.of_nat q) query_ids)
    ∧ (∀ space' query_ids' prior',
         Kokkos.valid_space space' → query_ids' ≡ₚ query_ids →
         DistributedTree.countResults space' n query_ids' prior' = Some offset).
Proof.
  intros Hspace Hn Hlen Hids. exists (csr_offsets n query_ids).
  split; [by apply countResults_closed_form|].
  split; [unfold csr_offsets; by rewrite length_fmap, length_seq|].
  split.
  { apply csr_offsets_lookup. split; [|lia]. symmetry. apply below_none.
    eapply Forall_impl; [exact Hids|]. simpl. lia. }
  split.
  { apply csr_offsets_lookup. split; [|lia]. symmetry. apply below_all.
    eapply Forall_impl; [exact Hids|]. simpl. lia. }
  split.
  { intros q a b [-> _]%csr_offsets_lookup [-> _]%csr_offsets_lookup.
    replace (Z.of_nat (S q)) with (Z.of_nat q + 1) by lia.
    rewrite below_succ. pose proof (occurrences_bounds (Z.of_nat q) query_ids).
    lia. }
  intros space' ids' prior' Hspace' Hperm.
  rewrite countResults_closed_form; try done.
  - f_equal. unfold csr_offsets. apply list_fmap_ext. intros _ q _.
    by apply below_perm.
  - by rewrite Hperm.
  - by rewrite Hperm.
Qed.

Lemma serial_valid : Kokkos.valid_space Kokkos.serial.
Proof. intros label n. reflexivity. Qed.

Lemma reversed_valid : Kokkos.valid_space Kokkos.reversed.
Proof. intros label n. simpl. apply reverse_Permutation. Qed.

(** Five results of three queries, counted by an execution space that runs
    the iterations last to first, over an offset argument that held junk. *)
Lemma countResults_csr_witness :
  ∃ offset,
    DistributedTree.countResults Kokkos.reversed 3 [2; 0; 2; 1; 2] [7; 7]
      = Some offset
    ∧ length offset = 4%nat
    ∧ offset !! 0%nat = Some 0
    ∧ offset !! 3%nat = Some 5
    ∧ (∀ (q : nat) a b,
         offset !! q = Some a → offset !! S q = Some b →
         a ≤ b ∧ b - a = occurrences (Z.of_nat q) [2; 0; 2; 1; 2])
    ∧ (∀ space' query_ids' prior',
         Kokkos.valid_space space' → query_ids' ≡ₚ [2; 0; 2; 1; 2] →
         DistributedTree.countResults space' 3 query_ids' prior' = Some offset).
Proof.
  apply (countResults_csr Kokkos.reversed 3 [2; 0; 2; 1; 2] [7; 7]).
  - exact reversed_valid.
  - vm_compute. split; congruence.
  - vm_compute. congruence.
  - repeat constructor; lia.
Defined.

(** With no query there is no identifier, and the offsets are [[0]]. *)
Example countResults_no_queries :
  DistributedTree.countResults Kokkos.serial 0 [] [4; 2] = Some [0].
Proof. reflexivity. Qed.

Example countResults_three_queries :
  DistributedTree.countResults Kokkos.reversed 3 [2; 0; 2; 1; 2] [7; 7]
  = Some [0; 1; 2; 5].
Proof. vm_compute. reflexivity. Qed.

(** ** sendAcrossNetwork *)

(** The contract that [sendAcrossNetwork] asserts. *)
Definition extents_agree {A} (d : DistributedTree.Distributor)
    (exports imports : Kokkos.View A) : Prop :=
  Kokkos.extent exports 0 = DistributedTree.getTotalSendLength d
  ∧ Kokkos.extent imports 0 = DistributedTree.getTotalReceiveLength d
  ∧ ∀ r, (1 ≤ r ≤ 7)%nat → Kokkos.extent exports r = Kokkos.extent imports r.

Definition packets {A} (v : Kokkos.View A) : nat :=
  (Kokkos.extent v 1 * Kokkos.extent v 2 * Kokkos.extent v 3
   * Kokkos.extent v 4 * Kokkos.extent v 5 * Kokkos.extent v 6
   * Kokkos.extent v 7)%nat.

Section transfer.
Context {A : Type} `{!DistributedTree.Transport A}.
Implicit Types (d : DistributedTree.Distributor)
  (exports imports : Kokkos.View (option A)) (log : list DistributedTree.event).

Lemma sendAcrossNetwork_agree d exports imports log :
  extents_agree d exports imports →
  DistributedTree.sendAcrossNetwork d exports imports log
  = DistributedTree.Done
      (Kokkos.with_contents imports
         (DistributedTree.received d (Kokkos.contents exports) (packets exports)
            <$> seq 0 (Kokkos.size imports)))
      (log ++ [DistributedTree.Exchange A d (Kokkos.contents exports)
                 (packets exports)]).
Proof.
  intros (H0 & H0' & Hr).
  unfold DistributedTree.sendAcrossNetwork, DistributedTree.bind,
    DistributedTree.ARBORX_ASSERT.
  rewrite !bool_decide_eq_true_2; [done|auto with lia..].
Qed.

Lemma sendAcrossNetwork_disagree d exports imports log :
  ¬ extents_agree d exports imports →
  DistributedTree.sendAcrossNetwork d exports imports log
  = DistributedTree.Fatal log.
Proof.
  intros Hno.
  unfold DistributedTree.sendAcrossNetwork, DistributedTree.bind,
    DistributedTree.ARBORX_ASSERT.
  match goal with |- context [if ?c then _ else _] => destruct c eqn:Hc end;
    [|done].
  exfalso. apply Hno.
  repeat (apply andb_true_iff in Hc as [Hc ?%bool_decide_eq_true]).
  apply bool_decide_eq_true in Hc.
  split; [done|]. split; [done|]. intros r Hr.
  destruct r as [|[|[|[|[|[|[|[|r]]]]]]]]; try done; lia.
Qed.

(** C8.  [sendAcrossNetwork] asserts that the first extent of the export
    buffer is the plan's outgoing count, that the first extent of the import
    buffer is the plan's incoming count, and that extents 1 to 7 of both
    buffers agree.  When one of these fails, the call stops at the assertion
    with the log of exchanges as it was, so that no data has moved, and it
    does not finish; when all hold, the call makes exactly one exchange and
    finishes. *)
Theorem sendAcrossNetwork_contract d exports imports log :
  (¬ extents_agree d exports imports →
     DistributedTree.sendAcrossNetwork d exports imports log
     = DistributedTree.Fatal log)
  ∧ (extents_agree d exports imports →
     ∃ received_view,
       DistributedTree.sendAcrossNetwork d exports imports log
       = DistributedTree.Done received_view
           (log ++ [DistributedTree.Exchange A d (Kokkos.contents exports)
                      (packets exports)])
       ∧ Kokkos.extents received_view = Kokkos.extents imports).
Proof.
  split.
  - apply sendAcrossNetwork_disagree.
  - intros Hok. eexists. split; [by apply sendAcrossNetwork_agree|done].
Qed.

End transfer.

(** ** CSR offsets and the fill kernels *)

(** A well-formed offset array over [n] batches: [n + 1] entries, the first
    one 0, never decreasing. *)
Definition csr (offset : list Z) (n : nat) : Prop :=
  length offset = S n
  ∧ offset !! 0%nat = Some 0
  ∧ ∀ (q : nat) a b, offset !! q = Some a → offset !! S q = Some b → a ≤ b.

(** Position [i] of the flat buffer belongs to batch [q]. *)
Definition owns (offset : list Z) (q : nat) (i : Z) : Prop :=
  match offset !! q, offset !! S q with
  | Some lo, Some hi => lo ≤ i < hi
  | _, _ => False
  end.

Global Instance owns_dec offset q i : Decision (owns offset q i).
Proof. unfold owns. destruct (offset !! q), (offset !! S q); apply _. Defined.

Lemma owns_iff offset q i :
  owns offset q i ↔
  ∃ lo hi, offset !! q = Some lo ∧ offset !! S q = Some hi ∧ lo ≤ i < hi.
Proof.
  unfold owns. split.
  - destruct (offset !! q) as [lo|], (offset !! S q) as [hi|]; try done.
    intros ?. by exists lo, hi.
  - intros (lo & hi & -> & -> & ?). done.
Qed.

Lemma csr_mono offset n (q q' : nat) a b :
  csr offset n → (q ≤ q')%nat →
  offset !! q = Some a → offset !! q' = Some b → a ≤ b.
Proof.
  intros (Hlen & _ & Hstep) Hle. revert b.
  induction Hle as [|q' Hle IH]; intros b Ha Hb.
  - by simplify_eq.
  - destruct (lookup_lt_is_Some_2 offset q') as [c Hc].
    { apply lookup_lt_Some in Hb. lia. }
    specialize (IH c Ha Hc). specialize (Hstep q' c b Hc Hb). lia.
Qed.

Lemma csr_nonneg offset n (q : nat) a :
  csr offset n → offset !! q = Some a → 0 ≤ a.
Proof.
  intros Hcsr Ha. destruct Hcsr as (Hlen & H0 & Hstep).
  eapply (csr_mono offset n 0 q 0 a); [done|lia|done|done].
Qed.

Lemma csr_last offset n :
  csr offset n → KokkosExt.lastElement offset = offset !! n.
Proof.
  intros (Hlen & _). unfold KokkosExt.lastElement.
  rewrite last_lookup, Hlen. done.
Qed.

Lemma owns_unique offset n q q' i :
  csr offset n → owns offset q i → owns offset q' i → q = q'.
Proof.
  intros Hcsr (lo & hi & Hlo & Hhi & Hi)%owns_iff
    (lo' & hi' & Hlo' & Hhi' & Hi')%owns_iff.
  destruct (decide (q = q')) as [|Hne]; [done|]. exfalso.
  destruct (decide (q < q')%nat).
  - pose proof (csr_mono offset n (S q) q' hi lo' Hcsr ltac:(lia) Hhi Hlo'). lia.
  - pose proof (csr_mono offset n (S q') q hi' lo Hcsr ltac:(lia) Hhi' Hlo). lia.
Qed.

(** Every position below the total belongs to a batch, which therefore has
    at least one item: an empty batch owns no position. *)
Lemma csr_owner offset n total i :
  csr offset n → offset !! n = Some total → 0 ≤ i < total →
  ∃ q, (q < n)%nat ∧ owns offset q i.
Proof.
  revert offset total.
  induction n as [|n IH]; intros offset total Hcsr Htot Hi.
  - destruct Hcsr as (_ & H0 & _). simplify_eq. lia.
  - destruct Hcsr as (Hlen & H0 & Hstep).
    destruct (lookup_lt_is_Some_2 offset n) as [mid Hmid]; [lia|].
    destruct (decide (i < mid)) as [Hlt|Hge].
    + assert (csr (take (S n) offset) n) as Hcsr'.
      { split; [rewrite length_take; lia|]. split.
        - rewrite lookup_take_lt by lia. done.
        - intros q a b Ha Hb.
          assert (S q < S n)%nat.
          { apply lookup_lt_Some in Hb. rewrite length_take in Hb. lia. }
          rewrite lookup_take_lt in Ha by lia.
          rewrite lookup_take_lt in Hb by lia. eauto. }
      destruct (IH _ mid Hcsr') as (q & Hq & (lo & hi & Hlo & Hhi & Hr)%owns_iff).
      { rewrite lookup_take_lt by lia. done. }
      { lia. }
      exists q. split; [lia|]. apply owns_iff. exists lo, hi.
      rewrite lookup_take_lt in Hlo by lia.
      rewrite lookup_take_lt in Hhi by lia. done.
    + exists n. split; [lia|]. apply owns_iff. exists mid, total.
      split; [done|]. split; [done|lia].
Qed.

(** The inner loop writes [x] to the positions of the range and to no
    other. *)
Lemma view_get_in {A} (v : list A) i x :
  0 ≤ i → v !! Z.to_nat i = Some x → View.get v i = Some x.
Proof. intros. by apply view_get_Some. Qed.

Lemma view_set_in {A} (v : list A) i x :
  0 ≤ i < Z.of_nat (length v) → View.set v i x = Some (<[Z.to_nat i := x]> v).
Proof. intros Hi. unfold View.set. by rewrite decide_True. Qed.

Lemma for_range_set_some {A} (x : A) (n : nat) : ∀ lo (b : list (option A)),
  0 ≤ lo → lo + Z.of_nat n ≤ Z.of_nat (length b) →
  ∃ b',
    foldl (λ acc i, acc ≫= (λ b, y ← Some x; View.set b i (Some y))) (Some b)
          (seqZ lo (Z.of_nat n)) = Some b'
    ∧ length b' = length b
    ∧ ∀ i : nat, b' !! i = if decide (lo ≤ Z.of_nat i < lo + Z.of_nat n)
                           then Some (Some x) else b !! i.
Proof.
  induction n as [|n IH]; intros lo b Hlo Hhi.
  - exists b. split; [done|]. split; [done|]. intros i.
    rewrite decide_False by lia. done.
  - rewrite seqZ_cons by lia. cbn [foldl]. cbn [mbind option_bind].
    rewrite view_set_in by lia.
    replace (Z.pred (Z.of_nat (S n))) with (Z.of_nat n) by lia.
    destruct (IH (Z.succ lo) (<[Z.to_nat lo := Some x]> b))
      as (b' & Hrun & Hlen & Hb').
    + lia.
    + rewrite length_insert. lia.
    + exists b'. split; [exact Hrun|]. split.
      { by rewrite Hlen, length_insert. }
      intros i. rewrite Hb'.
      destruct (decide (Z.of_nat i = lo)) as [Heq|Hne].
      * rewrite decide_False by lia. rewrite decide_True by lia.
        replace (Z.to_nat lo) with i by lia.
        apply list_lookup_insert_eq. lia.
      * rewrite list_lookup_insert_ne by lia.
        destruct (decide (Z.succ lo ≤ Z.of_nat i < Z.succ lo + Z.of_nat n)).
        -- rewrite decide_True by lia. done.
        -- rewrite decide_False by lia. done.
Qed.

(** The inner loop writes [x] to the positions of the range and to no
    other. *)
Lemma for_range_set {A} (value : option A) x (n : nat) lo (b : list (option A)) :
  0 ≤ lo → lo + Z.of_nat n ≤ Z.of_nat (length b) →
  ((0 < n)%nat → value = Some x) →
  ∃ b',
    foldl (λ acc i, acc ≫= (λ b, y ← value; View.set b i (Some y))) (Some b)
          (seqZ lo (Z.of_nat n)) = Some b'
    ∧ length b' = length b
    ∧ ∀ i : nat, b' !! i = if decide (lo ≤ Z.of_nat i < lo + Z.of_nat n)
                           then Some (Some x) else b !! i.
Proof.
  intros Hlo Hhi Hval. destruct n as [|n].
  - exists b. split; [done|]. split; [done|]. intros i.
    rewrite decide_False by lia. done.
  - rewrite Hval by lia. by apply for_range_set_some.
Qed.

Lemma fill_batch_spec {A} offset n (value : Z → option A)
    (q : nat) (b : list (option A)) total :
  csr offset n → offset !! n = Some total →
  Z.of_nat n ≤ Int.max_int →
  (q < n)%nat →
  is_Some (value (Z.of_nat q)) →
  Z.of_nat (length b) = total →
  ∃ b',
    DistributedTree.fill_batch offset value (Z.of_nat q) b = Some b'
    ∧ length b' = length b
    ∧ ∀ i : nat, b' !! i = if decide (owns offset q (Z.of_nat i))
                           then Some (value (Z.of_nat q)) else b !! i.
Proof.
  intros Hcsr Htot Hn Hq [x Hval] Hb.
  pose proof Hcsr as (Hlen & H0 & Hstep).
  destruct (lookup_lt_is_Some_2 offset q) as [lo Hlo]; [lia|].
  destruct (lookup_lt_is_Some_2 offset (S q)) as [hi Hhi]; [lia|].
  pose proof (Hstep _ _ _ Hlo Hhi) as Hle.
  pose proof (csr_nonneg _ _ _ _ Hcsr Hlo) as Hlo0.
  pose proof (csr_mono _ _ (S q) n hi total Hcsr ltac:(lia) Hhi Htot) as Hhitot.
  unfold DistributedTree.fill_batch, DistributedTree.for_range.
  rewrite view_get_of_nat, Hlo. simpl.
  unfold Int.add. rewrite wrap_int_id
    by int_range.
  replace (Z.of_nat q + 1) with (Z.of_nat (S q)) by lia.
  rewrite view_get_of_nat, Hhi. simpl.
  replace (hi - lo) with (Z.of_nat (Z.to_nat (hi - lo))) by lia.
  destruct (for_range_set (value (Z.of_nat q)) x (Z.to_nat (hi - lo)) lo b)
    as (b' & Hrun & Hlenb & Hb'); [done|lia|done|].
  exists b'. split; [exact Hrun|]. split; [done|]. intros i. rewrite Hb'.
  destruct (decide (owns offset q (Z.of_nat i)))
    as [(lo' & hi' & ? & ? & ?)%owns_iff|Hno]; simplify_eq.
  - rewrite decide_True by lia. by rewrite Hval.
  - rewrite decide_False; [done|]. intros ?. apply Hno.
    apply owns_iff. exists lo, hi. split; [done|]. split; [done|lia].
Qed.

(** Iterations that each write the positions of their own batch, run in any
    order, leave at every position what the batch that owns it wrote. *)
Lemma disjoint_writers {S C} (cells : S → list C) (ok : S → Prop) offset n
    (body : Z → S → option S) (val : nat → nat → C) sched :
  csr offset n →
  (∀ (q : nat) s, (q < n)%nat → ok s →
     ∃ s', body (Z.of_nat q) s = Some s' ∧ ok s'
           ∧ ∀ i : nat, cells s' !! i
                        = if decide (owns offset q (Z.of_nat i))
                          then Some (val q i) else cells s !! i) →
  Forall (λ q, (q < n)%nat) sched →
  ∀ s, ok s →
  ∃ s',
    foldl (λ acc q, acc ≫= body (Z.of_nat q)) (Some s) sched = Some s'
    ∧ ok s'
    ∧ (∀ q (i : nat), q ∈ sched → owns offset q (Z.of_nat i) →
         cells s' !! i = Some (val q i))
    ∧ (∀ i : nat, (∀ q, q ∈ sched → ¬ owns offset q (Z.of_nat i)) →
         cells s' !! i = cells s !! i).
Proof.
  intros Hcsr Hbody Hsched.
  induction Hsched as [|q sched Hq _ IH]; intros s Hok.
  - exists s. split; [done|]. split; [done|]. split; [|done].
    intros q i Hin. by apply elem_of_nil in Hin.
  - destruct (Hbody q s Hq Hok) as (s1 & Hstep & Hok1 & Hs1).
    destruct (IH s1 Hok1) as (s' & Hrun & Hok' & Hown & Hrest).
    exists s'. cbn [foldl]. cbn [mbind option_bind]. rewrite Hstep.
    split; [exact Hrun|]. split; [done|]. split.
    + intros q0 i Hin Howns. destruct (decide (q0 ∈ sched)) as [|Hnot].
      { by apply Hown. }
      apply elem_of_cons in Hin as [->|]; [|done].
      rewrite Hrest.
      * rewrite Hs1. by rewrite decide_True.
      * intros q' Hq' Howns'.
        rewrite (owns_unique offset n q q' _ Hcsr Howns Howns') in Hnot. done.
    + intros i Hnone. rewrite Hrest.
      * rewrite Hs1. rewrite decide_False; [done|]. apply Hnone. by left.
      * intros q' Hq'. apply Hnone. by right.
Qed.

(** A fill kernel, run over its batches in any order that visits each of
    them, writes to every position the value of the batch that owns it. *)
Lemma parallel_fill {A} space label offset n (value : Z → option A) total :
  Kokkos.valid_space space →
  csr offset n → offset !! n = Some total →
  Z.of_nat n ≤ Int.max_int →
  (∀ q, (q < n)%nat → is_Some (value (Z.of_nat q))) →
  ∃ b,
    Kokkos.parallel_for space label (Z.of_nat n)
      (DistributedTree.fill_batch offset value) (View.uninitialized total)
      = Some b
    ∧ length b = Z.to_nat total
    ∧ (∀ q (i : nat), (q < n)%nat → owns offset q (Z.of_nat i) →
         b !! i = Some (value (Z.of_nat q))).
Proof.
  intros Hspace Hcsr Htot Hn Hval. unfold Kokkos.parallel_for.
  rewrite Nat2Z.id. set (sched := Kokkos.schedule space label n).
  assert (sched ≡ₚ seq 0 n) as Hperm by apply Hspace.
  pose proof (csr_nonneg _ _ _ _ Hcsr Htot) as Htot0.
  destruct (disjoint_writers (λ b : list (option A), b)
              (λ b, Z.of_nat (length b) = total) offset n
              (DistributedTree.fill_batch offset value)
              (λ q _, value (Z.of_nat q)) sched Hcsr)
    with (s := @View.uninitialized A total) as (b & Hrun & Hlen & Hown & _).
  - intros q b Hq Hb.
    destruct (fill_batch_spec offset n value q b total)
      as (b' & ? & ? & ?); auto.
    exists b'. split; [done|]. split; [lia|done].
  - rewrite Hperm. apply Forall_seq. lia.
  - unfold View.uninitialized, View.alloc. rewrite length_replicate. lia.
  - exists b. split; [exact Hrun|]. split; [lia|].
    intros q i Hq. apply Hown. rewrite Hperm. apply elem_of_seq. lia.
Qed.

(** A transfer of rank-1 buffers whose lengths are those of the plan. *)
Lemma send_rank1 {A} `{!DistributedTree.Transport A} d
    (exports : list (option A)) n_imports log :
  length exports = DistributedTree.getTotalSendLength d →
  Z.to_nat n_imports = DistributedTree.getTotalReceiveLength d →
  DistributedTree.sendAcrossNetwork d (Kokkos.rank1 exports)
    (Kokkos.rank1 (View.uninitialized n_imports)) log
  = DistributedTree.Done
      (Kokkos.rank1 (DistributedTree.received d exports 1
                       <$> seq 0 (DistributedTree.getTotalReceiveLength d)))
      (log ++ [DistributedTree.Exchange A d exports 1]).
Proof.
  intros Hsend Hrecv. rewrite sendAcrossNetwork_agree.
  - unfold Kokkos.with_contents, Kokkos.rank1, Kokkos.size, packets. simpl.
    unfold View.uninitialized, View.alloc.
    rewrite length_replicate, length_fmap, length_seq, Nat.mul_1_r, Hrecv.
    done.
  - split; [exact Hsend|]. split.
    + unfold Kokkos.extent, Kokkos.rank1, View.uninitialized, View.alloc.
      simpl. by rewrite length_replicate.
    + intros r Hr. unfold Kokkos.extent, Kokkos.rank1. simpl.
      destruct r as [|[|r]]; [lia|done|]. simpl. by destruct r.
Qed.

Lemma bind_done {A B} (m : DistributedTree.M A) (k : A → DistributedTree.M B)
    log a log' :
  m log = DistributedTree.Done a log' →
  DistributedTree.bind m k log = k a log'.
Proof. intros Hm. unfold DistributedTree.bind. by rewrite Hm. Qed.

Lemma bind_defined {A B} (a : A) (k : A → DistributedTree.M B) log :
  DistributedTree.bind (DistributedTree.defined (Some a)) k log = k a log.
Proof. done. Qed.

(** ** forwardQueries *)

(** The plan that a process builds for the given destinations, and what it
    then receives for an export buffer. *)
Definition plan (comm : DistributedTree.MPI_Comm) (destinations : list Z)
    : DistributedTree.Distributor :=
  {| DistributedTree.distributor_comm := comm;
     DistributedTree.destinations := destinations |}.

Definition imports_of {A} `{!DistributedTree.Transport A}
    (d : DistributedTree.Distributor) (exports : list (option A)) : list A :=
  DistributedTree.received d exports 1
    <$> seq 0 (DistributedTree.getTotalReceiveLength d).

Lemma length_imports_of {A} `{!DistributedTree.Transport A} d
    (exports : list (option A)) :
  length (imports_of d exports) = DistributedTree.getTotalReceiveLength d.
Proof. unfold imports_of. by rewrite length_fmap, length_seq. Qed.

Section forward.
Context {Query : Type}.
Context `{!DistributedTree.Transport Z, !DistributedTree.Transport Query}.

(** C4.  The three export buffers of [forwardQueries] have one entry per
    destination ([offset(n)] of them) and follow the same flattened order:
    at every position [i] that the offsets give to query [q], the query
    buffer holds [queries(q)], the id buffer holds [q] and the rank buffer
    holds the rank of the calling process.  The three are exchanged, in that
    order, through one plan, built from the destination list, and the call
    returns what was received.  Every position belongs to a query with a
    non-empty destination list, so a query without destinations contributes
    nothing. *)
Theorem forwardQueries_aligned comm space (queries : list Query)
    indices offset log :
  Kokkos.valid_space space →
  csr offset (length queries) →
  KokkosExt.lastElement offset = Some (Z.of_nat (length indices)) →
  Z.of_nat (length queries) < Int.max_int →
  Z.of_nat (DistributedTree.network_imports comm indices) ≤ Int.max_int →
  ∃ export_ranks exports export_ids,
    DistributedTree.forwardQueries comm space queries indices offset log
    = DistributedTree.Done
        (imports_of (plan comm indices) exports,
         imports_of (plan comm indices) export_ids,
         imports_of (plan comm indices) export_ranks)
        (log ++ [DistributedTree.Exchange Z (plan comm indices) export_ranks 1;
                 DistributedTree.Exchange Query (plan comm indices) exports 1;
                 DistributedTree.Exchange Z (plan comm indices) export_ids 1])
    ∧ length export_ranks = length indices
    ∧ length exports = length indices
    ∧ length export_ids = length indices
    ∧ (∀ (q i : nat) query,
         queries !! q = Some query → owns offset q (Z.of_nat i) →
         exports !! i = Some (Some query)
         ∧ export_ids !! i = Some (Some (Z.of_nat q))
         ∧ export_ranks !! i = Some (Some (DistributedTree.MPI_Comm_rank comm)))
    ∧ (∀ i : nat, (i < length indices)%nat →
         ∃ q, (q < length queries)%nat ∧ owns offset q (Z.of_nat i)).
Proof.
  intros Hspace Hcsr Hlast Hn Himports.
  assert (offset !! length queries = Some (Z.of_nat (length indices))) as Htot.
  { by rewrite <-(csr_last _ _ Hcsr). }
  pose proof (csr_nonneg _ _ _ _ Hcsr Htot) as Htot0.
  destruct (parallel_fill space
    "ArborX::DistributedTree::query::forward_queries_fill_buffer"
    offset (length queries) (View.get queries) (Z.of_nat (length indices)))
    as (exports & Hexports & Hlen_exports & Hown_exports);
    [done|done|done|lia|..].
  { intros q Hq. rewrite view_get_of_nat. by apply lookup_lt_is_Some. }
  destruct (parallel_fill (A := Z) space
    "ArborX::DistributedTree::query::forward_queries_fill_ids"
    offset (length queries) (λ q, Some q) (Z.of_nat (length indices)))
    as (export_ids & Hids & Hlen_ids & Hown_ids);
    [done|done|done|lia|by eauto|].
  rewrite Nat2Z.id in Hlen_exports, Hlen_ids.
  exists (View.alloc (Z.of_nat (length indices))
            (Some (DistributedTree.MPI_Comm_rank comm))), exports, export_ids.
  assert (Z.to_nat (Int.of_size (DistributedTree.getTotalReceiveLength
            (plan comm indices)))
          = DistributedTree.getTotalReceiveLength (plan comm indices)) as Hrecv.
  { rewrite of_size_id by done. apply Nat2Z.id. }
  split.
  { unfold DistributedTree.forwardQueries. rewrite Hlast.
    unfold DistributedTree.createFromSends. fold (plan comm indices).
    rewrite (of_size_id (length queries)) by lia.
    rewrite bind_defined.
    erewrite bind_done; last first.
    { apply send_rank1; [|exact Hrecv].
      unfold View.alloc. by rewrite length_replicate, Nat2Z.id. }
    rewrite Hexports, bind_defined.
    erewrite bind_done; last first.
    { apply send_rank1; [|exact Hrecv]. done. }
    rewrite Hids, bind_defined.
    erewrite bind_done; last first.
    { apply send_rank1; [|exact Hrecv]. done. }
    unfold DistributedTree.ret, imports_of. simpl.
    by rewrite <-!(assoc_L (++)). }
  split; [unfold View.alloc; by rewrite length_replicate, Nat2Z.id|].
  split; [done|]. split; [done|]. split.
  - intros q i query Hquery Howns.
    assert (q < length queries)%nat as Hq by (by eapply lookup_lt_Some).
    rewrite (Hown_exports q i Hq Howns), (Hown_ids q i Hq Howns).
    rewrite view_get_of_nat, Hquery. split; [done|]. split; [done|].
    unfold View.alloc. rewrite Nat2Z.id. apply lookup_replicate_2.
    apply owns_iff in Howns as (lo & hi & Hlo & Hhi & Hi).
    pose proof (csr_mono _ _ (S q) (length queries) hi _ Hcsr
                  ltac:(lia) Hhi Htot). lia.
  - intros i Hi.
    apply (csr_owner offset (length queries) (Z.of_nat (length indices)));
      [done|done|lia].
Qed.

End forward.

(** A process alone in its group: the plan delivers to it the items it
    exports, in order. *)
Definition loopback (rank : Z) : DistributedTree.MPI_Comm :=
  {| DistributedTree.MPI_Comm_rank := rank;
     DistributedTree.network_imports := λ destinations, length destinations |}.

Definition echo {A} (dflt : A) : DistributedTree.Transport A :=
  λ d exports num_packets k, default dflt (mjoin (exports !! k)).

(** Three queries with two, no and one destination. *)
Lemma csr_0223 : csr [0; 2; 2; 3] 3.
Proof.
  split; [done|]. split; [done|].
  intros [|[|[|[|q]]]] a b Ha Hb; simplify_eq/=; lia.
Qed.

Lemma forwardQueries_aligned_witness :
  ∃ export_ranks exports export_ids,
    @DistributedTree.forwardQueries string (echo 0) (echo "")
      (loopback 5) Kokkos.reversed ["a"; "b"; "c"] [1; 3; 2] [0; 2; 2; 3] []
    = DistributedTree.Done
        (@imports_of string (echo "") (plan (loopback 5) [1; 3; 2]) exports,
         @imports_of Z (echo 0) (plan (loopback 5) [1; 3; 2]) export_ids,
         @imports_of Z (echo 0) (plan (loopback 5) [1; 3; 2]) export_ranks)
        ([] ++ [DistributedTree.Exchange Z (plan (loopback 5) [1; 3; 2])
                  export_ranks 1;
                DistributedTree.Exchange string (plan (loopback 5) [1; 3; 2])
                  exports 1;
                DistributedTree.Exchange Z (plan (loopback 5) [1; 3; 2])
                  export_ids 1])
    ∧ length export_ranks = 3%nat
    ∧ length exports = 3%nat
    ∧ length export_ids = 3%nat
    ∧ (∀ (q i : nat) query,
         ["a"; "b"; "c"] !! q = Some query →
         owns [0; 2; 2; 3] q (Z.of_nat i) →
         exports !! i = Some (Some query)
         ∧ export_ids !! i = Some (Some (Z.of_nat q))
         ∧ export_ranks !! i = Some (Some 5))
    ∧ (∀ i : nat, (i < 3)%nat →
         ∃ q, (q < 3)%nat ∧ owns [0; 2; 2; 3] q (Z.of_nat i)).
Proof.
  apply (@forwardQueries_aligned string (echo 0) (echo "") (loopback 5)
           Kokkos.reversed ["a"; "b"; "c"] [1; 3; 2] [0; 2; 2; 3] []).
  - exact reversed_valid.
  - exact csr_0223.
  - reflexivity.
  - vm_compute. reflexivity.
  - vm_compute. congruence.
Defined.

(** The same call, evaluated: the second query, which has no destination,
    appears in no export buffer. *)
Example forwardQueries_three_queries :
  @DistributedTree.forwardQueries string (echo 0) (echo "")
    (loopback 5) Kokkos.reversed ["a"; "b"; "c"] [1; 3; 2] [0; 2; 2; 3] []
  = DistributedTree.Done (["a"; "a"; "c"], [0; 0; 2], [5; 5; 5])
      [DistributedTree.Exchange Z (plan (loopback 5) [1; 3; 2])
         [Some 5; Some 5; Some 5] 1;
       DistributedTree.Exchange string (plan (loopback 5) [1; 3; 2])
         [Some "a"; Some "a"; Some "c"] 1;
       DistributedTree.Exchange Z (plan (loopback 5) [1; 3; 2])
         [Some 0; Some 0; Some 2] 1].
Proof. vm_compute. reflexivity. Qed.

(** No query at all: three exchanges of empty buffers, empty results. *)
Example forwardQueries_no_query :
  @DistributedTree.forwardQueries string (echo 0) (echo "")
    (loopback 5) Kokkos.serial [] [] [0] []
  = DistributedTree.Done ([], [], [])
      [DistributedTree.Exchange Z (plan (loopback 5) []) [] 1;
       DistributedTree.Exchange string (plan (loopback 5) []) [] 1;
       DistributedTree.Exchange Z (plan (loopback 5) []) [] 1].
Proof. vm_compute. reflexivity. Qed.

(** A transfer whose import buffer has the wrong extent stops before any
    exchange; with the right extent it goes through. *)
Example sendAcrossNetwork_wrong_extent :
  @DistributedTree.sendAcrossNetwork Z (echo 0) (plan (loopback 0) [0; 0])
    (Kokkos.rank1 [Some 7; Some 8]) (Kokkos.rank1 [None]) []
  = DistributedTree.Fatal [].
Proof. vm_compute. reflexivity. Qed.

Example sendAcrossNetwork_right_extent :
  @DistributedTree.sendAcrossNetwork Z (echo 0) (plan (loopback 0) [0; 0])
    (Kokkos.rank1 [Some 7; Some 8]) (Kokkos.rank1 [None; None]) []
  = DistributedTree.Done (Kokkos.rank1 [7; 8])
      [DistributedTree.Exchange Z (plan (loopback 0) [0; 0]) [Some 7; Some 8] 1].
Proof. vm_compute. reflexivity. Qed.

(** ** communicateResultsBack *)

Lemma length_batched_prefix ranks offset n (k : nat) :
  csr offset n → length ranks = n → (k ≤ n)%nat →
  Z.of_nat (length (DistributedTree.batched_destinations (take k ranks) offset))
  = offset !!! k.
Proof.
  intros Hcsr Hranks. unfold DistributedTree.batched_destinations.
  induction k as [|k IH]; intros Hk.
  - destruct Hcsr as (_ & H0 & _). rewrite take_0.
    by rewrite (list_lookup_total_correct _ _ _ H0).
  - destruct (lookup_lt_is_Some_2 ranks k) as [r Hr]; [lia|].
    rewrite (take_S_r _ _ _ Hr), imap_app, join_app, length_app.
    rewrite Nat2Z.inj_add, IH by lia. simpl.
    rewrite app_nil_r, length_replicate, length_take, Nat.add_0_r.
    replace (k `min` length ranks)%nat with k by lia.
    pose proof Hcsr as (Hlen & _ & Hstep).
    destruct (lookup_lt_is_Some_2 offset k) as [a Ha]; [lia|].
    destruct (lookup_lt_is_Some_2 offset (S k)) as [b Hb]; [lia|].
    rewrite (list_lookup_total_correct _ _ _ Ha).
    rewrite (list_lookup_total_correct _ _ _ Hb).
    specialize (Hstep _ _ _ Ha Hb). lia.
Qed.

Lemma length_batched ranks offset n total :
  csr offset n → length ranks = n → offset !! n = Some total →
  Z.of_nat (length (DistributedTree.batched_destinations ranks offset)) = total.
Proof.
  intros Hcsr Hranks Htot.
  rewrite <-(firstn_all ranks), Hranks.
  rewrite (length_batched_prefix _ _ n) by done.
  by apply list_lookup_total_correct.
Qed.

(** The inputs that [communicateResultsBack] expects: offsets over the
    forwarded queries, one source rank and one original id per forwarded
    query, one payload (and one distance, when distances are given) per
    result; all counts fit an [int]. *)
Record gather_ready {Out D} (comm : DistributedTree.MPI_Comm)
    (space : Kokkos.ExecutionSpace) (out : list Out) (offset ranks ids : list Z)
    (distances_ptr : option (list D)) : Prop := {
  ready_space : Kokkos.valid_space space;
  ready_csr : csr offset (length ids);
  ready_ranks : length ranks = length ids;
  ready_total : KokkosExt.lastElement offset = Some (Z.of_nat (length out));
  ready_distances :
    ∀ distances, distances_ptr = Some distances → length distances = length out;
  ready_queries : Z.of_nat (length offset) ≤ Int.max_int;
  ready_imports :
    Z.of_nat (DistributedTree.network_imports comm
                (DistributedTree.batched_destinations ranks offset))
    ≤ Int.max_int;
}.

(** The events of the three transfers that every call makes, and of the
    fourth when distances are given. *)
Definition gather_events {Out D} (d : DistributedTree.Distributor)
    (export_ranks export_ids : list (option Z)) (out : list Out)
    (distances_ptr : option (list D)) : list DistributedTree.event :=
  [DistributedTree.Exchange Z d export_ranks 1;
   DistributedTree.Exchange Z d export_ids 1;
   DistributedTree.Exchange Out d (Some <$> out) 1]
  ++ match distances_ptr with
     | Some distances => [DistributedTree.Exchange D d (Some <$> distances) 1]
     | None => []
     end.

Section gather.
Context {Out D : Type}.
Context `{!DistributedTree.Transport Z, !DistributedTree.Transport Out,
          !DistributedTree.Transport D}.

Lemma communicateResultsBack_run comm space (out : list Out) offset ranks ids
    (distances_ptr : option (list D)) log :
  gather_ready comm space out offset ranks ids distances_ptr →
  let d := plan comm (DistributedTree.batched_destinations ranks offset) in
  let export_ranks :=
    replicate (length out) (Some (DistributedTree.MPI_Comm_rank comm)) in
  ∃ export_ids,
    Kokkos.parallel_for space "ArborX::DistributedTree::query::fill_buffer"
      (Z.of_nat (length ids))
      (DistributedTree.fill_batch offset (View.get ids))
      (View.uninitialized (Z.of_nat (length out))) = Some export_ids
    ∧ length export_ids = length out
    ∧ (∀ (q i : nat) id, ids !! q = Some id → owns offset q (Z.of_nat i) →
         export_ids !! i = Some (Some id))
    ∧ DistributedTree.communicateResultsBack comm space out offset ranks ids
        distances_ptr log
      = DistributedTree.Done
          {| DistributedTree.res_out := imports_of d (Some <$> out);
             DistributedTree.res_ranks := imports_of d export_ranks;
             DistributedTree.res_ids := imports_of d export_ids;
             DistributedTree.res_distances :=
               (λ distances, imports_of d (Some <$> distances))
                 <$> distances_ptr |}
          (log ++ gather_events d export_ranks export_ids out distances_ptr).
Proof.
  intros [Hspace Hcsr Hranks Hlast Hdist Hn Himports] d export_ranks.
  pose proof Hcsr as (Hlen & _).
  assert (offset !! length ids = Some (Z.of_nat (length out))) as Htot.
  { by rewrite <-(csr_last _ _ Hcsr). }
  destruct (parallel_fill space "ArborX::DistributedTree::query::fill_buffer"
    offset (length ids) (View.get ids) (Z.of_nat (length out)))
    as (export_ids & Hids & Hlen_ids & Hown_ids); [done|done|done|lia|..].
  { intros q Hq. rewrite view_get_of_nat. by apply lookup_lt_is_Some. }
  rewrite Nat2Z.id in Hlen_ids.
  exists export_ids. split; [done|]. split; [done|]. split.
  { intros q i id Hid Howns.
    assert (q < length ids)%nat as Hq by (by eapply lookup_lt_Some).
    by rewrite (Hown_ids q i Hq Howns), view_get_of_nat, Hid. }
  assert (length (DistributedTree.batched_destinations ranks offset)
          = length out) as Hsend.
  { apply Nat2Z.inj. by eapply length_batched. }
  assert (Z.to_nat (Int.of_size (DistributedTree.getTotalReceiveLength d))
          = DistributedTree.getTotalReceiveLength d) as Hrecv.
  { rewrite of_size_id by done. apply Nat2Z.id. }
  unfold DistributedTree.communicateResultsBack. rewrite Hlast.
  unfold DistributedTree.createFromSends_batched,
    DistributedTree.createFromSends.
  fold (plan comm (DistributedTree.batched_destinations ranks offset)).
  fold d. cbv zeta.
  replace (Int.sub (Int.of_size (length offset)) 1)
    with (Z.of_nat (length ids)).
  2:{ unfold Int.sub. rewrite of_size_id by done.
      rewrite wrap_int_id; [lia|].
      int_range. }
  rewrite bind_defined.
  erewrite bind_done; last first.
  { apply send_rank1; [|exact Hrecv].
    unfold View.alloc. rewrite length_replicate, Nat2Z.id.
    unfold DistributedTree.getTotalSendLength, d. simpl. congruence. }
  rewrite Hids, bind_defined.
  erewrite bind_done; last first.
  { apply send_rank1; [|exact Hrecv].
    unfold DistributedTree.getTotalSendLength, d. simpl. congruence. }
  erewrite bind_done; last first.
  { apply send_rank1; [|exact Hrecv]. rewrite length_fmap.
    unfold DistributedTree.getTotalSendLength, d. simpl. congruence. }
  unfold gather_events, export_ranks, View.alloc. rewrite Nat2Z.id.
  destruct distances_ptr as [distances|].
  - erewrite bind_done; last first.
    { apply send_rank1; [|exact Hrecv].
      rewrite length_fmap, (Hdist distances eq_refl).
      unfold DistributedTree.getTotalSendLength, d. simpl. congruence. }
    unfold DistributedTree.ret, imports_of. simpl.
    by rewrite <-!(assoc_L (++)).
  - unfold DistributedTree.ret, imports_of. simpl.
    by rewrite <-!(assoc_L (++)).
Qed.

(** C6.  The id export buffer of [communicateResultsBack] is the per-query
    ids expanded through the offsets of the results: at every position [i]
    that the offsets give to forwarded query [q] it holds [ids(q)].  After
    the call [out], [ranks] and [ids], and the distances when a pointer is
    given, are what the four transfers received through one plan, each of
    the plan's import length. *)
Theorem communicateResultsBack_gathers comm space (out : list Out)
    offset ranks ids (distances_ptr : option (list D)) log :
  gather_ready comm space out offset ranks ids distances_ptr →
  ∃ export_ranks export_ids res,
    DistributedTree.communicateResultsBack comm space out offset ranks ids
      distances_ptr log
    = DistributedTree.Done res
        (log ++ gather_events
                  (plan comm (DistributedTree.batched_destinations ranks offset))
                  export_ranks export_ids out distances_ptr)
    ∧ length export_ids = length out
    ∧ (∀ (q i : nat) id, ids !! q = Some id → owns offset q (Z.of_nat i) →
         export_ids !! i = Some (Some id))
    ∧ DistributedTree.res_out res
      = imports_of
          (plan comm (DistributedTree.batched_destinations ranks offset))
          (Some <$> out)
    ∧ DistributedTree.res_ranks res
      = imports_of
          (plan comm (DistributedTree.batched_destinations ranks offset))
          export_ranks
    ∧ DistributedTree.res_ids res
      = imports_of
          (plan comm (DistributedTree.batched_destinations ranks offset))
          export_ids
    ∧ DistributedTree.res_distances res
      = (λ distances,
           imports_of
             (plan comm (DistributedTree.batched_destinations ranks offset))
             (Some <$> distances)) <$> distances_ptr
    ∧ Forall (λ n, n = DistributedTree.getTotalReceiveLength
                         (plan comm
                            (DistributedTree.batched_destinations ranks offset)))
        ([length (DistributedTree.res_out res);
          length (DistributedTree.res_ranks res);
          length (DistributedTree.res_ids res)]
         ++ match DistributedTree.res_distances res with
            | Some distances => [length distances]
            | None => []
            end).
Proof.
  intros Hready.
  destruct (communicateResultsBack_run comm space out offset ranks ids
              distances_ptr log Hready)
    as (export_ids & _ & Hlen & Hown & Hrun).
  eexists _, export_ids, _. split; [exact Hrun|]. simpl.
  split; [done|]. split; [done|]. repeat (split; [done|]).
  repeat (apply Forall_cons; split; [apply length_imports_of|]).
  destruct distances_ptr; simpl; [|done].
  apply Forall_cons. split; [apply length_imports_of|done].
Qed.

(** C9.  With a null distances pointer [communicateResultsBack] finishes
    after exactly three exchanges (ranks, ids, payload): no distance buffer
    is exchanged and no distances are bound.  What it leaves in [out],
    [ranks] and [ids] is what the call with a distances view leaves there;
    that call makes the same three exchanges and a fourth one. *)
Theorem communicateResultsBack_null_distances comm space (out : list Out)
    offset ranks ids log :
  gather_ready comm space out offset ranks ids (@None (list D)) →
  ∃ export_ranks export_ids res,
    DistributedTree.communicateResultsBack comm space out offset ranks ids
      (@None (list D)) log
    = DistributedTree.Done res
        (log ++ [DistributedTree.Exchange Z
                   (plan comm (DistributedTree.batched_destinations ranks offset))
                   export_ranks 1;
                 DistributedTree.Exchange Z
                   (plan comm (DistributedTree.batched_destinations ranks offset))
                   export_ids 1;
                 DistributedTree.Exchange Out
                   (plan comm (DistributedTree.batched_destinations ranks offset))
                   (Some <$> out) 1])
    ∧ DistributedTree.res_distances res = None
    ∧ ∀ distances : list D, length distances = length out →
        ∃ res',
          DistributedTree.communicateResultsBack comm space out offset ranks
            ids (Some distances) log
          = DistributedTree.Done res'
              (log ++ [DistributedTree.Exchange Z
                         (plan comm
                            (DistributedTree.batched_destinations ranks offset))
                         export_ranks 1;
                       DistributedTree.Exchange Z
                         (plan comm
                            (DistributedTree.batched_destinations ranks offset))
                         export_ids 1;
                       DistributedTree.Exchange Out
                         (plan comm
                            (DistributedTree.batched_destinations ranks offset))
                         (Some <$> out) 1;
                       DistributedTree.Exchange D
                         (plan comm
                            (DistributedTree.batched_destinations ranks offset))
                         (Some <$> distances) 1])
          ∧ DistributedTree.res_out res' = DistributedTree.res_out res
          ∧ DistributedTree.res_ranks res' = DistributedTree.res_ranks res
          ∧ DistributedTree.res_ids res' = DistributedTree.res_ids res
          ∧ is_Some (DistributedTree.res_distances res').
Proof.
  intros Hready.
  destruct (communicateResultsBack_run comm space out offset ranks ids
              None log Hready)
    as (export_ids & Hfill & _ & _ & Hrun).
  eexists _, export_ids, _. split; [exact Hrun|]. split; [done|].
  intros distances Hdist.
  assert (gather_ready comm space out offset ranks ids (Some distances))
    as Hready'.
  { destruct Hready. split; try done. by intros ? [= <-]. }
  destruct (communicateResultsBack_run comm space out offset ranks ids
              (Some distances) log Hready')
    as (export_ids' & Hfill' & _ & _ & Hrun').
  assert (export_ids' = export_ids) as -> by congruence.
  eexists. split; [exact Hrun'|]. simpl. by eauto.
Qed.

End gather.

(** *** The ranks that come back *)

(** What each process of a group exports in the rank transfer of
    [communicateResultsBack]: per result, the destination taken from its
    [ranks] argument, and its own rank as the item. *)
Definition rank_sends {Out D} (group : list (DistributedTree.process Out D))
    : list (list Z * list (option Z)) :=
  (λ p, (DistributedTree.batched_destinations (DistributedTree.proc_ranks p)
           (DistributedTree.proc_offset p),
         replicate (length (DistributedTree.proc_out p))
           (Some (DistributedTree.MPI_Comm_rank (DistributedTree.proc_comm p)))))
  <$> group.





(** *** Worked calls *)

Lemma csr_023 : csr [0; 2; 3] 2.
Proof.
  split; [done|]. split; [done|].
  intros [|[|[|q]]] a b Ha Hb; simplify_eq/=; lia.
Qed.


(** Two forwarded queries with two and one result, answered by a process
    alone in its group. *)
Lemma loopback_ready (distances_ptr : option (list Z)) :
  (∀ distances, distances_ptr = Some distances → length distances = 3%nat) →
  gather_ready (loopback 1) Kokkos.reversed ["x"; "y"; "z"] [0; 2; 3] [1; 1]
    [7; 9] distances_ptr.
Proof.
  intros Hd. split.
  - exact reversed_valid.
  - exact csr_023.
  - reflexivity.
  - reflexivity.
  - exact Hd.
  - vm_compute. congruence.
  - vm_compute. congruence.
Qed.

Definition loopback_plan : DistributedTree.Distributor :=
  plan (loopback 1) (DistributedTree.batched_destinations [1; 1] [0; 2; 3]).

Lemma communicateResultsBack_gathers_witness :
  ∃ export_ranks export_ids res,
    @DistributedTree.communicateResultsBack string Z (echo 0) (echo "") (echo 0)
      (loopback 1) Kokkos.reversed ["x"; "y"; "z"] [0; 2; 3] [1; 1] [7; 9]
      (Some [30; 10; 20]) []
    = DistributedTree.Done res
        ([] ++ gather_events loopback_plan export_ranks export_ids
                 ["x"; "y"; "z"] (Some [30; 10; 20]))
    ∧ length export_ids = 3%nat
    ∧ (∀ (q i : nat) id, [7; 9] !! q = Some id →
         owns [0; 2; 3] q (Z.of_nat i) →
         export_ids !! i = Some (Some id))
    ∧ DistributedTree.res_out res
      = @imports_of string (echo "") loopback_plan (Some <$> ["x"; "y"; "z"])
    ∧ DistributedTree.res_ranks res
      = @imports_of Z (echo 0) loopback_plan export_ranks
    ∧ DistributedTree.res_ids res
      = @imports_of Z (echo 0) loopback_plan export_ids
    ∧ DistributedTree.res_distances res
      = (λ distances,
           @imports_of Z (echo 0) loopback_plan (Some <$> distances))
          <$> Some [30; 10; 20]
    ∧ Forall (λ n, n = DistributedTree.getTotalReceiveLength loopback_plan)
        ([length (DistributedTree.res_out res);
          length (DistributedTree.res_ranks res);
          length (DistributedTree.res_ids res)]
         ++ match DistributedTree.res_distances res with
            | Some distances => [length distances]
            | None => []
            end).
Proof.
  apply (@communicateResultsBack_gathers string Z (echo 0) (echo "") (echo 0)
           (loopback 1) Kokkos.reversed ["x"; "y"; "z"] [0; 2; 3] [1; 1] [7; 9]
           (Some [30; 10; 20]) []).
  apply loopback_ready. intros distances [= <-]. reflexivity.
Defined.

Lemma communicateResultsBack_null_distances_witness :
  ∃ export_ranks export_ids res,
    @DistributedTree.communicateResultsBack string Z (echo 0) (echo "") (echo 0)
      (loopback 1) Kokkos.reversed ["x"; "y"; "z"] [0; 2; 3] [1; 1] [7; 9]
      None []
    = DistributedTree.Done res
        ([] ++ [DistributedTree.Exchange Z loopback_plan export_ranks 1;
                DistributedTree.Exchange Z loopback_plan export_ids 1;
                DistributedTree.Exchange string loopback_plan
                  (Some <$> ["x"; "y"; "z"]) 1])
    ∧ DistributedTree.res_distances res = None
    ∧ ∀ distances : list Z, length distances = 3%nat →
        ∃ res',
          @DistributedTree.communicateResultsBack string Z (echo 0) (echo "")
            (echo 0) (loopback 1) Kokkos.reversed ["x"; "y"; "z"] [0; 2; 3]
            [1; 1] [7; 9] (Some distances) []
          = DistributedTree.Done res'
              ([] ++ [DistributedTree.Exchange Z loopback_plan export_ranks 1;
                      DistributedTree.Exchange Z loopback_plan export_ids 1;
                      DistributedTree.Exchange string loopback_plan
                        (Some <$> ["x"; "y"; "z"]) 1;
                      DistributedTree.Exchange Z loopback_plan
                        (Some <$> distances) 1])
          ∧ DistributedTree.res_out res' = DistributedTree.res_out res
          ∧ DistributedTree.res_ranks res' = DistributedTree.res_ranks res
          ∧ DistributedTree.res_ids res' = DistributedTree.res_ids res
          ∧ is_Some (DistributedTree.res_distances res').
Proof.
  apply (@communicateResultsBack_null_distances string Z (echo 0) (echo "")
           (echo 0) (loopback 1) Kokkos.reversed ["x"; "y"; "z"] [0; 2; 3]
           [1; 1] [7; 9] []).
  apply loopback_ready. intros distances [=].
Defined.

(** The two calls, evaluated. *)
Example communicateResultsBack_with_distances :
  @DistributedTree.communicateResultsBack string Z (echo 0) (echo "") (echo 0)
    (loopback 1) Kokkos.reversed ["x"; "y"; "z"] [0; 2; 3] [1; 1] [7; 9]
    (Some [30; 10; 20]) []
  = DistributedTree.Done
      {| DistributedTree.res_out := ["x"; "y"; "z"];
         DistributedTree.res_ranks := [1; 1; 1];
         DistributedTree.res_ids := [7; 7; 9];
         DistributedTree.res_distances := Some [30; 10; 20] |}
      [DistributedTree.Exchange Z loopback_plan [Some 1; Some 1; Some 1] 1;
       DistributedTree.Exchange Z loopback_plan [Some 7; Some 7; Some 9] 1;
       DistributedTree.Exchange string loopback_plan
         [Some "x"; Some "y"; Some "z"] 1;
       DistributedTree.Exchange Z loopback_plan [Some 30; Some 10; Some 20] 1].
Proof. vm_compute. reflexivity. Qed.

Example communicateResultsBack_without_distances :
  @DistributedTree.communicateResultsBack string Z (echo 0) (echo "") (echo 0)
    (loopback 1) Kokkos.reversed ["x"; "y"; "z"] [0; 2; 3] [1; 1] [7; 9]
    None []
  = DistributedTree.Done
      {| DistributedTree.res_out := ["x"; "y"; "z"];
         DistributedTree.res_ranks := [1; 1; 1];
         DistributedTree.res_ids := [7; 7; 9];
         DistributedTree.res_distances := None |}
      [DistributedTree.Exchange Z loopback_plan [Some 1; Some 1; Some 1] 1;
       DistributedTree.Exchange Z loopback_plan [Some 7; Some 7; Some 9] 1;
       DistributedTree.Exchange string loopback_plan
         [Some "x"; Some "y"; Some "z"] 1].
Proof. vm_compute. reflexivity. Qed.

(** A group of two.  Process 0 answered two forwarded queries, the first
    from process 1 (two results) and the second from itself (one result);
    process 1 answered one query of process 0 (two results).  The transport
    of each hands it what the other and itself sent to it. *)
Definition constant_transport {A} (dflt : A) (data : list A)
    : DistributedTree.Transport A :=
  λ d exports num_packets k, nth k data dflt.

Definition process0 : DistributedTree.process string Z :=
  {| DistributedTree.proc_comm :=
       {| DistributedTree.MPI_Comm_rank := 0;
          DistributedTree.network_imports := λ _, 3%nat |};
     DistributedTree.proc_int := constant_transport 0 [0; 1; 1];
     DistributedTree.proc_payload := constant_transport "" ["a2"; "b0"; "b1"];
     DistributedTree.proc_float := constant_transport 0 [];
     DistributedTree.proc_space := Kokkos.serial;
     DistributedTree.proc_out := ["a0"; "a1"; "a2"];
     DistributedTree.proc_offset := [0; 2; 3];
     DistributedTree.proc_ranks := [1; 0];
     DistributedTree.proc_ids := [4; 5];
     DistributedTree.proc_distances := None |}.

Definition process1 : DistributedTree.process string Z :=
  {| DistributedTree.proc_comm :=
       {| DistributedTree.MPI_Comm_rank := 1;
          DistributedTree.network_imports := λ _, 2%nat |};
     DistributedTree.proc_int := constant_transport 0 [0; 0];
     DistributedTree.proc_payload := constant_transport "" ["a0"; "a1"];
     DistributedTree.proc_float := constant_transport 0 [];
     DistributedTree.proc_space := Kokkos.reversed;
     DistributedTree.proc_out := ["b0"; "b1"];
     DistributedTree.proc_offset := [0; 2];
     DistributedTree.proc_ranks := [0];
     DistributedTree.proc_ids := [8];
     DistributedTree.proc_distances := None |}.



(** In that group process 0 receives one rank from itself and two from
    process 1, which is what the group sent it. *)
Example group_of_two_delivery :
  ∃ res log,
    DistributedTree.gather process0 [] = DistributedTree.Done res log
    ∧ DistributedTree.res_ranks res = [0; 1; 1]
    ∧ zip [0; 1; 1]%nat (Some <$> DistributedTree.res_ranks res)
      = DistributedTree.delivered (rank_sends [process0; process1]) 0.
Proof. eexists _, _. split; [vm_compute; reflexivity|]. by vm_compute. Qed.

(** ** sortResults *)

(** The contract of [sortObjects] on the keys [ks]: the permutation lists
    every position once, the sorted contents are the keys read through the
    permutation, and they ascend. *)
Definition sorts_ascending {V} (key_le : relation V) (ks : list V)
    (result : list V * list nat) : Prop :=
  result.2 ≡ₚ seq 0 (length ks)
  ∧ Forall2 (λ j y, ks !! j = Some y) result.2 result.1
  ∧ StronglySorted key_le result.1.

(** [c'] is [c] read through [permutation]. *)
Definition permuted_by {V} (permutation : list nat) (c c' : list V) : Prop :=
  Forall2 (λ j y, c !! j = Some y) permutation c'.

Section sort.
Context {V : Type} `{!DistributedTree.Sorter V}.
Implicit Types (memory : gmap DistributedTree.handle (list V)).

Lemma applyPermutation_spec permutation view memory c :
  memory !! view = Some c →
  permutation ≡ₚ seq 0 (length c) →
  ∃ c', DistributedTree.applyPermutation permutation view memory
        = Some (<[view := c']> memory)
        ∧ permuted_by permutation c c'.
Proof.
  intros Hc Hperm. unfold DistributedTree.applyPermutation. rewrite Hc. simpl.
  rewrite decide_True by (by rewrite Hperm, length_seq).
  destruct (mapM (λ j, c !! j) permutation) as [c'|] eqn:Hmap.
  - exists c'. split; [done|]. by apply mapM_Some_1.
  - exfalso. apply mapM_None_1, Exists_exists in Hmap as (j & Hj & Hnone).
    rewrite Hperm in Hj. apply elem_of_seq in Hj.
    apply lookup_ge_None in Hnone. lia.
Qed.

Lemma applyPermutation_all permutation (n : nat) others : ∀ memory,
  NoDup others →
  permutation ≡ₚ seq 0 n →
  (∀ h, h ∈ others → ∃ c, memory !! h = Some c ∧ length c = n) →
  ∃ memory',
    foldl (λ acc view, acc ≫= DistributedTree.applyPermutation permutation view)
          (Some memory) others = Some memory'
    ∧ (∀ h c, h ∈ others → memory !! h = Some c →
         ∃ c', memory' !! h = Some c' ∧ permuted_by permutation c c')
    ∧ (∀ h, h ∉ others → memory' !! h = memory !! h).
Proof.
  induction others as [|view others IH]; intros memory Hnodup Hperm Hlen.
  - exists memory. split; [done|]. split; [|done].
    intros h c Hin. by apply elem_of_nil in Hin.
  - apply NoDup_cons in Hnodup as [Hview Hnodup].
    destruct (Hlen view) as (c & Hc & Hn); [by left|].
    destruct (applyPermutation_spec permutation view memory c Hc)
      as (c' & Hstep & Hc'); [by rewrite Hn|].
    destruct (IH (<[view := c']> memory) Hnodup Hperm)
      as (memory' & Hrun & Hothers & Hframe).
    { intros h Hh. destruct (Hlen h) as (ch & Hch & Hnh); [by right|].
      exists ch. split; [|done]. rewrite lookup_insert_ne; [done|].
      intros ->. done. }
    exists memory'. cbn [foldl]. cbn [mbind option_bind]. rewrite Hstep.
    split; [exact Hrun|]. split.
    + intros h ch [->|Hh]%elem_of_cons Hch.
      * simplify_eq. exists c'. split; [|done].
        rewrite Hframe by done. apply lookup_insert_eq.
      * apply Hothers; [done|]. rewrite lookup_insert_ne; [done|].
        intros ->. done.
    + intros h Hh. apply not_elem_of_cons in Hh as [Hne Hh].
      rewrite Hframe by done. by rewrite lookup_insert_ne.
Qed.

(** C5.  On keys of length [n = 0], [sortResults] leaves the memory of
    buffers as it was.  On [n > 0] it takes the permutation that
    [sortObjects] computes on a copy of the keys, which sorts them
    ascending, and leaves in every companion buffer its former contents
    read through that permutation; the buffer of the keys, and every buffer
    that is not a companion, is left as it was.  The companions are buffers
    other than the keys' and pairwise distinct, each of length [n]. *)
Theorem sortResults_companions (key_le : relation V) space keys others
    memory ks :
  memory !! keys = Some ks →
  keys ∉ others →
  NoDup others →
  (∀ h, h ∈ others → ∃ c, memory !! h = Some c ∧ length c = length ks) →
  (length ks ≠ 0%nat →
   sorts_ascending key_le ks (DistributedTree.sortObjects ks)) →
  ∃ memory',
    DistributedTree.sortResults space keys others memory = Some memory'
    ∧ memory' !! keys = Some ks
    ∧ (∀ h, h ∉ others → memory' !! h = memory !! h)
    ∧ (length ks = 0%nat → memory' = memory)
    ∧ (length ks ≠ 0%nat →
       ∃ sorted permutation,
         DistributedTree.sortObjects ks = (sorted, permutation)
         ∧ permutation ≡ₚ seq 0 (length ks)
         ∧ permuted_by permutation ks sorted
         ∧ StronglySorted key_le sorted
         ∧ ∀ h c, h ∈ others → memory !! h = Some c →
             ∃ c', memory' !! h = Some c' ∧ permuted_by permutation c c').
Proof.
  intros Hkeys Hnotin Hnodup Hlen Hsort.
  unfold DistributedTree.sortResults. rewrite Hkeys. simpl.
  destruct (decide (length ks = 0%nat)) as [Hn|Hn].
  { exists memory. split; [done|]. split; [done|]. split; [done|].
    split; [done|]. intros ?. done. }
  destruct (Hsort Hn) as (Hperm & Hsorted & Hasc).
  destruct (DistributedTree.sortObjects ks) as [sorted permutation] eqn:Hobj.
  simpl in Hperm, Hsorted, Hasc.
  set (keys_clone := fresh (dom memory)).
  assert (memory !! keys_clone = None) as Hfresh.
  { apply not_elem_of_dom. apply is_fresh. }
  assert (keys_clone ∉ others) as Hclone.
  { intros Hin. destruct (Hlen _ Hin) as (c & Hc & _). congruence. }
  destruct (applyPermutation_all permutation (length ks) others
              (<[keys_clone := sorted]> (<[keys_clone := ks]> memory)))
    as (memory' & Hrun & Hothers & Hframe); [done|done|..].
  { intros h Hh. destruct (Hlen h Hh) as (c & Hc & Hnc). exists c.
    split; [|done]. rewrite !lookup_insert_ne; [done|..]; intros ->; done. }
  rewrite Hrun. simpl. eexists. split; [done|].
  assert (∀ h, h ∉ others → delete keys_clone memory' !! h = memory !! h)
    as Hframe'.
  { intros h Hh. destruct (decide (h = keys_clone)) as [->|Hne].
    - by rewrite lookup_delete_eq.
    - rewrite lookup_delete_ne by done. rewrite Hframe by done.
      by rewrite !lookup_insert_ne. }
  split; [by rewrite Hframe'|]. split; [done|]. split; [done|].
  intros _. exists sorted, permutation. split; [done|]. split; [done|].
  split; [done|]. split; [done|].
  intros h c Hh Hc.
  destruct (Hothers h c Hh) as (c' & Hc' & Hpc).
  { rewrite !lookup_insert_ne; [done|..]; intros ->; done. }
  exists c'. split; [|done]. rewrite lookup_delete_ne; [done|].
  intros <-. done.
Qed.

End sort.

(** A sorter for integer keys: a merge sort of the keys paired with their
    positions. *)
Definition key_position_le (a b : Z * nat) : Prop := a.1 ≤ b.1.

Global Instance key_position_le_dec a b : Decision (key_position_le a b).
Proof. unfold key_position_le. apply _. Defined.

Definition merge_sorter : DistributedTree.Sorter Z :=
  λ ks, let sorted := merge_sort key_position_le (zip ks (seq 0 (length ks))) in
        (sorted.*1, sorted.*2).

(** The ids of three results, and two companion buffers. *)
Definition three_buffers : gmap DistributedTree.handle (list Z) :=
  {[ 0%nat := [30; 10; 20]; 1%nat := [100; 101; 102]; 2%nat := [7; 8; 9] ]}.

Global Instance key_position_le_transitive : Transitive key_position_le.
Proof. unfold key_position_le. intros a b c. lia. Qed.

Global Instance key_position_le_total : Total key_position_le.
Proof. unfold key_position_le. intros a b. lia. Qed.

(** The merge sorter meets the contract of [sortObjects] on all keys. *)
Lemma merge_sorter_sorts ks : sorts_ascending Z.le ks (merge_sorter ks).
Proof.
  unfold sorts_ascending, merge_sorter.
  set (pairs := zip ks (seq 0 (length ks))).
  assert (merge_sort key_position_le pairs ≡ₚ pairs) as Hperm
    by apply merge_sort_Permutation.
  cbn [fst snd]. split; [|split].
  - rewrite Hperm. unfold pairs. rewrite snd_zip; [done|].
    by rewrite length_seq.
  - apply Forall2_fmap, Forall_Forall2_diag. rewrite Hperm.
    apply Forall_lookup. intros i [y j] Hi. simpl.
    apply lookup_zip_Some in Hi as [Hy Hj].
    apply lookup_seq in Hj as [-> _]. done.
  - apply (StronglySorted_fmap _ key_position_le); [done|].
    apply StronglySorted_merge_sort; apply _.
Qed.

Lemma sortResults_companions_witness :
  ∃ memory',
    @DistributedTree.sortResults Z merge_sorter Kokkos.serial 0%nat
      [1%nat; 2%nat] three_buffers = Some memory'
    ∧ memory' !! 0%nat = Some [30; 10; 20]
    ∧ (∀ h, h ∉ [1%nat; 2%nat] → memory' !! h = three_buffers !! h)
    ∧ (length [30; 10; 20] = 0%nat → memory' = three_buffers)
    ∧ (length [30; 10; 20] ≠ 0%nat →
       ∃ sorted permutation,
         merge_sorter [30; 10; 20] = (sorted, permutation)
         ∧ permutation ≡ₚ seq 0 (length [30; 10; 20])
         ∧ permuted_by permutation [30; 10; 20] sorted
         ∧ StronglySorted Z.le sorted
         ∧ ∀ h c, h ∈ [1%nat; 2%nat] → three_buffers !! h = Some c →
             ∃ c', memory' !! h = Some c' ∧ permuted_by permutation c c').
Proof.
  apply (@sortResults_companions Z merge_sorter Z.le Kokkos.serial 0%nat
           [1%nat; 2%nat] three_buffers [30; 10; 20]).
  - reflexivity.
  - apply (bool_decide_unpack _). by vm_compute.
  - apply (bool_decide_unpack _). by vm_compute.
  - intros h Hh. apply elem_of_cons in Hh as [->|Hh].
    { exists [100; 101; 102]. split; reflexivity. }
    apply elem_of_cons in Hh as [->|Hh].
    { exists [7; 8; 9]. split; reflexivity. }
    by apply elem_of_nil in Hh.
  - intros _. apply merge_sorter_sorts.
Defined.

(** The call, evaluated: the companions follow the keys' ascending order,
    the keys stay. *)
Example sortResults_three_buffers :
  @DistributedTree.sortResults Z merge_sorter Kokkos.serial 0%nat
    [1%nat; 2%nat] three_buffers
  = Some {[ 0%nat := [30; 10; 20]; 1%nat := [101; 102; 100];
            2%nat := [8; 9; 7] ]}.
Proof. by vm_compute. Qed.

(** Without keys nothing happens. *)
Example sortResults_no_keys :
  @DistributedTree.sortResults Z merge_sorter Kokkos.serial 0%nat [1%nat]
    {[ 0%nat := []; 1%nat := [] ]}
  = Some {[ 0%nat := []; 1%nat := [] ]}.
Proof. by vm_compute. Qed.

(** A view of the keys' own buffer passed as a companion is permuted like
    any companion: the hypothesis that the companions are other buffers is
    needed. *)
Example sortResults_keys_as_companion :
  @DistributedTree.sortResults Z merge_sorter Kokkos.serial 0%nat [0%nat]
    {[ 0%nat := [30; 10; 20] ]}
  = Some {[ 0%nat := [10; 20; 30] ]}.
Proof. by vm_compute. Qed.

(** ** filterResults *)

(** The contract of the priority queue for a comparison [compare], where
    [compare x y] says that [x] has a lower priority than [y] (for
    [CompareDistance], a larger distance): the queue holds a multiset of
    elements in a storage of fixed capacity, its top is an element that has
    a lower priority than none of them, and popping removes that element.
    A binary heap meets it when [compare] is a strict weak order. *)
Class PriorityQueueLaws {T} (compare : T → T → bool)
    (Q : DistributedTree.PriorityQueue T) : Type := {
  pq_elements : DistributedTree.pq → list T;
  pq_capacity : DistributedTree.pq → nat;
  pq_create_elements capacity :
    pq_elements (DistributedTree.pq_create capacity) = [];
  pq_create_capacity capacity :
    pq_capacity (DistributedTree.pq_create capacity) = capacity;
  pq_empty_elements queue :
    DistributedTree.pq_empty queue = true ↔ pq_elements queue = [];
  pq_emplace_elements x queue :
    (length (pq_elements queue) < pq_capacity queue)%nat →
    ∃ queue', DistributedTree.pq_emplace x queue = Some queue'
              ∧ pq_elements queue' ≡ₚ x :: pq_elements queue
              ∧ pq_capacity queue' = pq_capacity queue;
  pq_top_elements queue :
    pq_elements queue ≠ [] →
    ∃ x, DistributedTree.pq_top queue = Some x
         ∧ x ∈ pq_elements queue
         ∧ ∀ y, y ∈ pq_elements queue → compare x y = false;
  pq_pop_elements queue x :
    DistributedTree.pq_top queue = Some x →
    x :: pq_elements (DistributedTree.pq_pop queue) ≡ₚ pq_elements queue;
}.

(** The part [[lo, hi)] of a flat buffer. *)
Definition slice {A} (lo hi : Z) (l : list A) : list A :=
  take (Z.to_nat (hi - lo)) (drop (Z.to_nat lo) l).

(** The candidates, one per position of the flat buffers. *)
Definition results_of {D} (indices ranks : list Z) (distances : list D)
    : list (DistributedTree.PairIndexDistance D) :=
  zip (zip indices ranks) distances.

(** Every kept element comes before, in priority, the elements kept after
    it and the elements dropped. *)
Definition best_first {T} (compare : T → T → bool) (kept dropped : list T)
    : Prop :=
  ∀ (i : nat) x, kept !! i = Some x →
    ∀ y, y ∈ drop (S i) kept ++ dropped → compare x y = false.

Lemma slice_cons {A} (lo hi : Z) (l : list A) x :
  0 ≤ lo < hi → l !! Z.to_nat lo = Some x →
  slice lo hi l = x :: slice (lo + 1) hi l.
Proof.
  intros Hlo Hx. unfold slice.
  replace (Z.to_nat (hi - lo)) with (S (Z.to_nat (hi - (lo + 1)))) by lia.
  rewrite (drop_S _ _ _ Hx). simpl.
  by replace (Z.to_nat (lo + 1)) with (S (Z.to_nat lo)) by lia.
Qed.

Lemma slice_empty {A} (lo hi : Z) (l : list A) : hi ≤ lo → slice lo hi l = [].
Proof. intros H. unfold slice. by replace (Z.to_nat (hi - lo)) with 0%nat by lia. Qed.

Lemma slice_lookup {A} (lo hi : Z) (l : list A) (j : nat) :
  0 ≤ lo → Z.of_nat j < hi - lo →
  slice lo hi l !! j = l !! (Z.to_nat lo + j)%nat.
Proof.
  intros Hlo Hj. unfold slice.
  rewrite lookup_take_lt by lia. by rewrite lookup_drop.
Qed.

Lemma length_slice {A} (lo hi : Z) (l : list A) :
  0 ≤ lo ≤ hi → hi ≤ Z.of_nat (length l) →
  Z.of_nat (length (slice lo hi l)) = hi - lo.
Proof.
  intros Hlo Hhi. unfold slice. rewrite length_take, length_drop. lia.
Qed.

Section queue.
Context {T : Type} (compare : T → T → bool).
Context `{!DistributedTree.PriorityQueue T}.
Context `{!PriorityQueueLaws compare _}.

(** What the loop [while (!queue.empty() && count < k)] pops, in order. *)
Fixpoint popped (remaining : nat) (queue : DistributedTree.pq) : list T :=
  if DistributedTree.pq_empty queue then []
  else
    match remaining with
    | O => []
    | S remaining =>
        match DistributedTree.pq_top queue with
        | Some x => x :: popped remaining (DistributedTree.pq_pop queue)
        | None => []
        end
    end.

Lemma pq_empty_false queue :
  DistributedTree.pq_empty queue = false ↔ pq_elements queue ≠ [].
Proof.
  rewrite <-pq_empty_elements. by destruct (DistributedTree.pq_empty queue).
Qed.

Lemma popped_spec remaining : ∀ queue,
  length (popped remaining queue)
  = (remaining `min` length (pq_elements queue))%nat
  ∧ ∃ dropped,
      pq_elements queue ≡ₚ popped remaining queue ++ dropped
      ∧ best_first compare (popped remaining queue) dropped.
Proof.
  induction remaining as [|remaining IH]; intros queue.
  - assert (popped 0 queue = []) as ->.
    { simpl. by destruct (DistributedTree.pq_empty queue). }
    split; [done|]. exists (pq_elements queue). split; [done|].
    intros i x Hx. done.
  - simpl. destruct (DistributedTree.pq_empty queue) eqn:Hempty.
    { apply pq_empty_elements in Hempty. rewrite Hempty. simpl.
      split; [lia|]. exists []. split; [done|]. intros i x Hx. done. }
    apply pq_empty_false in Hempty.
    destruct (pq_top_elements queue Hempty) as (x & Htop & Hin & Hbest).
    rewrite Htop. pose proof (pq_pop_elements queue x Htop) as Hpop.
    destruct (IH (DistributedTree.pq_pop queue))
      as (Hlen & dropped & Hperm & Hfirst).
    split.
    { simpl. rewrite Hlen, <-Hpop. simpl. lia. }
    exists dropped. split.
    { rewrite <-Hpop. simpl. by rewrite Hperm. }
    intros [|i] y Hy z Hz.
    + simpl in Hy. injection Hy as <-. simpl in Hz. rewrite ?drop_0 in Hz.
      apply Hbest. rewrite <-Hpop, Hperm. by right.
    + simpl in Hy. by apply (Hfirst i y Hy).
Qed.

End queue.

Section filter.
Context {Query D : Type}.
Context `{!DistributedTree.Nearest Query, !DistributedTree.Distance D}.
Context `{!DistributedTree.PriorityQueue (DistributedTree.PairIndexDistance D)}.
Context `{!PriorityQueueLaws DistributedTree.CompareDistance _}.
Implicit Types (queries : list Query) (distances : list D)
  (indices offset ranks : list Z).

(** The number of entries that query [q] keeps, [min(count(q), k(q))], and
    the number that the queries before [q] keep. *)
Definition kept_count queries offset (q : nat) : Z :=
  match queries !! q, offset !! q, offset !! S q with
  | Some query, Some lo, Some hi => Z.min (hi - lo) (DistributedTree.getK query)
  | _, _, _ => 0
  end.

Fixpoint kept_before queries offset (q : nat) : Z :=
  match q with
  | O => 0
  | S q' => kept_before queries offset q' + kept_count queries offset q'
  end.

(** The view that [discard_results] leaves: the count of each query, and a
    last entry that no iteration writes and that stays 0. *)
Definition truncated_counts queries offset : list Z :=
  (kept_count queries offset <$> seq 0 (length queries)) ++ [0].

Lemma kept_count_bounds queries offset (q : nat) lo hi :
  csr offset (length queries) →
  Forall (λ query, 1 ≤ DistributedTree.getK query) queries →
  offset !! q = Some lo → offset !! S q = Some hi →
  0 ≤ kept_count queries offset q ≤ hi - lo.
Proof.
  intros Hcsr Hk Hlo Hhi. unfold kept_count. rewrite Hlo, Hhi.
  pose proof Hcsr as (_ & _ & Hstep). specialize (Hstep _ _ _ Hlo Hhi).
  destruct (queries !! q) as [query|] eqn:Hq; [|lia].
  rewrite Forall_lookup in Hk. specialize (Hk _ _ Hq). lia.
Qed.

Lemma kept_count_beyond queries offset (q : nat) :
  (length queries ≤ q)%nat → kept_count queries offset q = 0.
Proof.
  intros Hq. unfold kept_count. by rewrite (lookup_ge_None_2 queries q).
Qed.

Lemma kept_before_bounds queries offset (q : nat) a :
  csr offset (length queries) →
  Forall (λ query, 1 ≤ DistributedTree.getK query) queries →
  offset !! q = Some a →
  0 ≤ kept_before queries offset q ≤ a.
Proof.
  intros Hcsr Hk. revert a. induction q as [|q IH]; intros a Ha.
  - simpl. pose proof (csr_nonneg _ _ _ _ Hcsr Ha). lia.
  - destruct (lookup_lt_is_Some_2 offset q) as [lo Hlo].
    { apply lookup_lt_Some in Ha. lia. }
    specialize (IH lo Hlo).
    pose proof (kept_count_bounds queries offset q lo a Hcsr Hk Hlo Ha).
    simpl. lia.
Qed.

Lemma kept_count_nonneg queries offset (q : nat) :
  csr offset (length queries) →
  Forall (λ query, 1 ≤ DistributedTree.getK query) queries →
  0 ≤ kept_count queries offset q.
Proof.
  intros Hcsr Hk. destruct (decide (q < length queries)%nat) as [Hq|Hq].
  - pose proof Hcsr as (Hlen & _).
    destruct (lookup_lt_is_Some_2 offset q) as [lo Hlo]; [lia|].
    destruct (lookup_lt_is_Some_2 offset (S q)) as [hi Hhi]; [lia|].
    pose proof (kept_count_bounds queries offset q lo hi Hcsr Hk Hlo Hhi). lia.
  - rewrite kept_count_beyond by lia. done.
Qed.

Lemma kept_before_mono queries offset (q q' : nat) :
  csr offset (length queries) →
  Forall (λ query, 1 ≤ DistributedTree.getK query) queries →
  (q ≤ q')%nat → kept_before queries offset q ≤ kept_before queries offset q'.
Proof.
  intros Hcsr Hk Hle. induction Hle as [|q' Hle IH]; [done|]. simpl.
  pose proof (kept_count_nonneg queries offset q' Hcsr Hk). lia.
Qed.

Lemma kept_before_beyond queries offset :
  kept_before queries offset (S (length queries))
  = kept_before queries offset (length queries).
Proof. simpl. rewrite kept_count_beyond by lia. lia. Qed.

(** One iteration of [discard_results]. *)
Lemma discard_results_spec queries offset (q : nat) (b : list Z) total :
  csr offset (length queries) →
  offset !! length queries = Some total → total ≤ Int.max_int →
  Z.of_nat (length queries) < Int.max_int →
  (q < length queries)%nat → length b = S (length queries) →
  DistributedTree.discard_results queries offset (Z.of_nat q) b
  = Some (<[q := kept_count queries offset q]> b).
Proof.
  intros Hcsr Htot Hmax Hn Hq Hb. pose proof Hcsr as (Hlen & _ & Hstep).
  destruct (lookup_lt_is_Some_2 offset q) as [lo Hlo]; [lia|].
  destruct (lookup_lt_is_Some_2 offset (S q)) as [hi Hhi]; [lia|].
  destruct (lookup_lt_is_Some_2 queries q) as [query Hquery]; [lia|].
  pose proof (Hstep _ _ _ Hlo Hhi).
  pose proof (csr_nonneg _ _ _ _ Hcsr Hlo).
  pose proof (csr_mono _ _ (S q) (length queries) hi total Hcsr
                ltac:(lia) Hhi Htot).
  unfold DistributedTree.discard_results, kept_count, Int.add, Int.sub.
  rewrite wrap_int_id
    by int_range.
  replace (Z.of_nat q + 1) with (Z.of_nat (S q)) by lia.
  rewrite !view_get_of_nat, Hhi, Hlo, Hquery. simpl.
  rewrite wrap_int_id
    by int_range.
  by rewrite view_set_of_nat by lia.
Qed.

Lemma discard_loop_spec queries offset total sched :
  csr offset (length queries) →
  offset !! length queries = Some total → total ≤ Int.max_int →
  Z.of_nat (length queries) < Int.max_int →
  Forall (λ q, (q < length queries)%nat) sched →
  ∀ b : list Z, length b = S (length queries) →
  ∃ b',
    foldl (λ acc q, acc ≫= DistributedTree.discard_results queries offset
                             (Z.of_nat q)) (Some b) sched = Some b'
    ∧ length b' = S (length queries)
    ∧ ∀ i : nat, b' !! i = if decide (i ∈ sched)
                           then Some (kept_count queries offset i) else b !! i.
Proof.
  intros Hcsr Htot Hmax Hn Hsched.
  induction Hsched as [|q sched Hq _ IH]; intros b Hb.
  - exists b. split; [done|]. split; [done|]. intros i.
    rewrite decide_False; [done|]. apply not_elem_of_nil.
  - cbn [foldl]. cbn [mbind option_bind].
    rewrite (discard_results_spec _ _ _ _ total) by done.
    destruct (IH (<[q := kept_count queries offset q]> b))
      as (b' & Hrun & Hlen & Hb'); [by rewrite length_insert|].
    exists b'. split; [exact Hrun|]. split; [done|].
    intros i. rewrite Hb'.
    destruct (decide (i ∈ sched)) as [Hin|Hout].
    + rewrite decide_True; [done|]. by right.
    + destruct (decide (i = q)) as [->|Hne].
      * rewrite decide_True by (by left).
        apply list_lookup_insert_eq. lia.
      * rewrite decide_False.
        -- by rewrite list_lookup_insert_ne.
        -- intros [->|?]%elem_of_cons; done.
Qed.

Lemma discard_parallel_spec space label queries offset total :
  Kokkos.valid_space space →
  csr offset (length queries) →
  offset !! length queries = Some total → total ≤ Int.max_int →
  Z.of_nat (length queries) < Int.max_int →
  Kokkos.parallel_for space label (Z.of_nat (length queries))
    (DistributedTree.discard_results queries offset)
    (View.alloc (Z.of_nat (length queries) + 1) 0)
  = Some (truncated_counts queries offset).
Proof.
  intros Hspace Hcsr Htot Hmax Hn. unfold Kokkos.parallel_for.
  rewrite Nat2Z.id. set (sched := Kokkos.schedule space label _).
  assert (sched ≡ₚ seq 0 (length queries)) as Hperm by apply Hspace.
  destruct (discard_loop_spec queries offset total sched Hcsr Htot Hmax Hn)
    with (b := View.alloc (Z.of_nat (length queries) + 1) 0)
    as (b & -> & Hlen & Hb).
  - rewrite Hperm. apply Forall_seq. lia.
  - unfold View.alloc. rewrite length_replicate. lia.
  - f_equal. apply list_eq. intros i. rewrite Hb. unfold truncated_counts.
    destruct (decide (i ∈ sched)) as [Hin|Hout].
    + rewrite Hperm in Hin. apply elem_of_seq in Hin.
      rewrite lookup_app_l by (rewrite length_fmap, length_seq; lia).
      rewrite list_lookup_fmap, lookup_seq_lt by lia. done.
    + rewrite Hperm, elem_of_seq in Hout.
      destruct (decide (i = length queries)) as [->|Hne].
      * rewrite lookup_app_r by (rewrite length_fmap, length_seq; lia).
        rewrite length_fmap, length_seq, Nat.sub_diag.
        unfold View.alloc. simpl. apply lookup_replicate_2. lia.
      * rewrite !lookup_ge_None_2; [done|..].
        -- rewrite length_app, length_fmap, length_seq. simpl. lia.
        -- unfold View.alloc. rewrite length_replicate. lia.
Qed.

(** The new offsets: entry [q] is the number of entries kept before [q]. *)
Lemma scan_truncated_counts queries offset total :
  csr offset (length queries) →
  offset !! length queries = Some total → total ≤ Int.max_int →
  Forall (λ query, 1 ≤ DistributedTree.getK query) queries →
  KokkosExt.exclusive_scan (truncated_counts queries offset) 0
  = kept_before queries offset <$> seq 0 (S (length queries)).
Proof.
  intros Hcsr Htot Hmax Hk.
  replace (S (length queries)) with (length (truncated_counts queries offset)).
  2:{ unfold truncated_counts.
      rewrite length_app, length_fmap, length_seq. simpl. lia. }
  apply exclusive_scan_telescope; [done|..].
  - intros q x Hx. simpl. unfold truncated_counts in Hx.
    destruct (decide (q < length queries)%nat).
    + rewrite lookup_app_l in Hx by (rewrite length_fmap, length_seq; lia).
      rewrite list_lookup_fmap, lookup_seq_lt in Hx by lia.
      simpl in Hx. injection Hx as <-. lia.
    + apply lookup_app_Some in Hx as [Hx|[_ Hx]].
      { apply lookup_lt_Some in Hx. rewrite length_fmap, length_seq in Hx. lia. }
      rewrite kept_count_beyond by lia.
      apply list_elem_of_lookup_2, list_elem_of_singleton in Hx. lia.
  - intros q Hq. simpl.
    unfold truncated_counts in Hq.
    rewrite length_app, length_fmap, length_seq in Hq. simpl in Hq.
    assert (0 ≤ kept_before queries offset q ≤ total) as Hb.
    { destruct (decide (q = S (length queries))) as [->|Hne].
      - rewrite kept_before_beyond. by eapply kept_before_bounds.
      - destruct (lookup_lt_is_Some_2 offset q) as [a Ha].
        { destruct Hcsr as (-> & _). lia. }
        pose proof (kept_before_bounds _ _ _ _ Hcsr Hk Ha).
        pose proof (csr_mono _ _ q (length queries) a total Hcsr
                      ltac:(lia) Ha Htot). lia. }
    int_range.
Qed.

(** The loop that fills the queue of a query with its candidates. *)
Lemma emplace_loop_spec indices ranks distances (n : nat) : ∀ lo queue,
  length ranks = length indices → length distances = length indices →
  0 ≤ lo → lo + Z.of_nat n ≤ Z.of_nat (length indices) →
  (length (pq_elements queue) + n ≤ pq_capacity queue)%nat →
  ∃ queue',
    foldl (λ acc i, acc ≫= (λ queue,
             index ← View.get indices i;
             rank ← View.get ranks i;
             distance ← View.get distances i;
             DistributedTree.pq_emplace ((index, rank), distance) queue))
          (Some queue) (seqZ lo (Z.of_nat n)) = Some queue'
    ∧ pq_elements queue'
      ≡ₚ slice lo (lo + Z.of_nat n) (results_of indices ranks distances)
         ++ pq_elements queue.
Proof.
  induction n as [|n IH]; intros lo queue Hranks Hdist Hlo Hhi Hcap.
  - exists queue. split; [done|]. by rewrite slice_empty by lia.
  - rewrite seqZ_cons by lia. cbn [foldl]. cbn [mbind option_bind].
    replace (Z.pred (Z.of_nat (S n))) with (Z.of_nat n) by lia.
    destruct (lookup_lt_is_Some_2 indices (Z.to_nat lo)) as [index Hi]; [lia|].
    destruct (lookup_lt_is_Some_2 ranks (Z.to_nat lo)) as [rank Hr]; [lia|].
    destruct (lookup_lt_is_Some_2 distances (Z.to_nat lo)) as [distance Hd];
      [lia|].
    rewrite (view_get_in indices lo index), (view_get_in ranks lo rank),
      (view_get_in distances lo distance) by done.
    cbn [mbind option_bind].
    destruct (pq_emplace_elements ((index, rank), distance) queue)
      as (queue1 & -> & Hel1 & Hcap1); [lia|].
    destruct (IH (Z.succ lo) queue1) as (queue' & Hrun & Hel');
      [done|done|lia|lia|..].
    { rewrite Hel1, Hcap1. simpl. lia. }
    exists queue'. split; [exact Hrun|]. rewrite Hel', Hel1.
    rewrite (slice_cons lo (lo + Z.of_nat (S n)) _ ((index, rank), distance)).
    + replace (Z.succ lo + Z.of_nat n) with (lo + Z.of_nat (S n)) by lia.
      replace (lo + 1) with (Z.succ lo) by lia.
      by rewrite <-Permutation_middle.
    + lia.
    + unfold results_of. apply lookup_zip_Some. split; [|done].
      by apply lookup_zip_Some.
Qed.

(** The loop that pops the queue into the new buffers. *)
Lemma truncate_loop_spec new_offset (q : nat) base remaining :
  ∀ count queue (new_indices new_ranks : list Z),
  new_offset !! q = Some base →
  0 ≤ base → 0 ≤ count →
  base + count + Z.of_nat (length (popped remaining queue))
    ≤ Z.of_nat (length new_indices) →
  length new_ranks = length new_indices →
  Z.of_nat (length new_indices) ≤ Int.max_int →
  DistributedTree.truncate_loop new_offset (Z.of_nat q) remaining count queue
    new_indices new_ranks
  = Some (list_inserts (Z.to_nat (base + count))
            ((λ x, x.1.1) <$> popped remaining queue) new_indices,
          list_inserts (Z.to_nat (base + count))
            ((λ x, x.1.2) <$> popped remaining queue) new_ranks).
Proof.
  induction remaining as [|remaining IH];
    intros count queue ni nr Hbase Hb0 Hc0 Hfit Hlen Hmax.
  - simpl. by destruct (DistributedTree.pq_empty queue).
  - simpl in *. destruct (DistributedTree.pq_empty queue) eqn:Hempty; [done|].
    apply (pq_empty_false DistributedTree.CompareDistance) in Hempty.
    destruct (pq_top_elements queue Hempty) as (x & Htop & _).
    rewrite Htop in *. simpl in Hfit.
    rewrite view_get_of_nat, Hbase. cbn [mbind option_bind].
    unfold Int.add.
    rewrite !wrap_int_id
      by int_range.
    rewrite !view_set_in by lia. cbn [mbind option_bind].
    rewrite (IH (count + 1)); [|done|done|lia|..].
    + replace (Z.to_nat (base + (count + 1)))
        with (S (Z.to_nat (base + count))) by lia.
      cbn [fmap list_fmap list_inserts].
      rewrite !list_insert_inserts_lt by lia. done.
    + rewrite length_insert. lia.
    + by rewrite !length_insert.
    + by rewrite length_insert.
Qed.

(** The queue of a query once its candidates are in, and what is then
    popped from it. *)
Definition queue_of indices ranks distances (lo hi : Z) : DistributedTree.pq :=
  default (DistributedTree.pq_create 0)
    (DistributedTree.for_range lo hi
       (λ i queue,
          index ← View.get indices i;
          rank ← View.get ranks i;
          distance ← View.get distances i;
          DistributedTree.pq_emplace ((index, rank), distance) queue)
       (DistributedTree.pq_create (Z.to_nat (hi - lo)))).

Definition kept_of queries distances indices offset ranks (q : nat)
    : list (DistributedTree.PairIndexDistance D) :=
  match queries !! q, offset !! q, offset !! S q with
  | Some query, Some lo, Some hi =>
      if decide (hi > lo)
      then popped (Z.to_nat (DistributedTree.getK query))
             (queue_of indices ranks distances lo hi)
      else []
  | _, _, _ => []
  end.

Lemma queue_of_spec indices ranks distances lo hi :
  length ranks = length indices → length distances = length indices →
  0 ≤ lo ≤ hi → hi ≤ Z.of_nat (length indices) →
  DistributedTree.for_range lo hi
    (λ i queue,
       index ← View.get indices i;
       rank ← View.get ranks i;
       distance ← View.get distances i;
       DistributedTree.pq_emplace ((index, rank), distance) queue)
    (DistributedTree.pq_create (Z.to_nat (hi - lo)))
  = Some (queue_of indices ranks distances lo hi)
  ∧ pq_elements (queue_of indices ranks distances lo hi)
    ≡ₚ slice lo hi (results_of indices ranks distances).
Proof.
  intros Hranks Hdist Hlo Hhi. unfold queue_of, DistributedTree.for_range.
  destruct (emplace_loop_spec indices ranks distances (Z.to_nat (hi - lo)) lo
              (DistributedTree.pq_create (Z.to_nat (hi - lo))))
    as (queue' & Hrun & Hel); [done|done|lia|lia|..].
  { rewrite pq_create_elements, pq_create_capacity. simpl. lia. }
  rewrite Z2Nat.id in Hrun, Hel by lia. rewrite Hrun.
  split; [done|]. simpl. rewrite Hel, pq_create_elements, app_nil_r.
  by replace (lo + (hi - lo)) with hi by lia.
Qed.

Lemma kept_of_spec queries distances indices offset ranks (q : nat)
    query lo hi :
  csr offset (length queries) →
  offset !! length queries = Some (Z.of_nat (length indices)) →
  length ranks = length indices → length distances = length indices →
  Forall (λ query, 1 ≤ DistributedTree.getK query) queries →
  queries !! q = Some query → offset !! q = Some lo → offset !! S q = Some hi →
  Z.of_nat (length (kept_of queries distances indices offset ranks q))
  = kept_count queries offset q
  ∧ ∃ dropped,
      slice lo hi (results_of indices ranks distances)
      ≡ₚ kept_of queries distances indices offset ranks q ++ dropped
      ∧ best_first DistributedTree.CompareDistance
          (kept_of queries distances indices offset ranks q) dropped.
Proof.
  intros Hcsr Htot Hranks Hdist Hk Hquery Hlo Hhi.
  pose proof Hcsr as (_ & _ & Hstep). specialize (Hstep _ _ _ Hlo Hhi).
  pose proof (csr_nonneg _ _ _ _ Hcsr Hlo) as Hlo0.
  assert (q < length queries)%nat as Hq by (by eapply lookup_lt_Some).
  pose proof (csr_mono _ _ (S q) (length queries) hi _ Hcsr
                ltac:(lia) Hhi Htot) as Hhitot.
  rewrite Forall_lookup in Hk. specialize (Hk _ _ Hquery).
  unfold kept_of, kept_count. rewrite Hquery, Hlo, Hhi.
  destruct (decide (hi > lo)) as [Hgt|Hle].
  - destruct (queue_of_spec indices ranks distances lo hi) as [_ Hel];
      [done|done|lia|lia|].
    destruct (popped_spec DistributedTree.CompareDistance
                (Z.to_nat (DistributedTree.getK query))
                (queue_of indices ranks distances lo hi))
      as (Hlen & dropped & Hperm & Hfirst).
    split.
    + rewrite Hlen, Hel.
      assert (Z.of_nat (length (slice lo hi
                (results_of indices ranks distances))) = hi - lo) as Hsl.
      { apply length_slice; [lia|]. unfold results_of.
        rewrite !length_zip_with. lia. }
      lia.
    + exists dropped. split; [|done]. by rewrite <-Hel.
  - split; [simpl; lia|]. exists []. rewrite slice_empty by lia.
    split; [done|]. intros i x Hx. done.
Qed.

(** One iteration of [truncate_results]. *)
Lemma truncate_results_spec queries distances indices offset ranks (q : nat)
    (new_indices new_ranks : list Z) :
  csr offset (length queries) →
  offset !! length queries = Some (Z.of_nat (length indices)) →
  length ranks = length indices → length distances = length indices →
  Z.of_nat (length queries) < Int.max_int →
  Z.of_nat (length indices) ≤ Int.max_int →
  Forall (λ query, 1 ≤ DistributedTree.getK query) queries →
  (q < length queries)%nat →
  Z.of_nat (length new_indices)
    = kept_before queries offset (length queries) →
  length new_ranks = length new_indices →
  DistributedTree.truncate_results queries distances indices offset ranks
    (kept_before queries offset <$> seq 0 (S (length queries)))
    (Z.of_nat (length indices)) (Z.of_nat q) (new_indices, new_ranks)
  = Some (list_inserts (Z.to_nat (kept_before queries offset q))
            ((λ x, x.1.1)
               <$> kept_of queries distances indices offset ranks q)
            new_indices,
          list_inserts (Z.to_nat (kept_before queries offset q))
            ((λ x, x.1.2)
               <$> kept_of queries distances indices offset ranks q)
            new_ranks).
Proof.
  intros Hcsr Htot Hranks Hdist Hn Hmax Hk Hq Hni Hnr.
  pose proof Hcsr as (Hlen & _ & Hstep).
  destruct (lookup_lt_is_Some_2 offset q) as [lo Hlo]; [lia|].
  destruct (lookup_lt_is_Some_2 offset (S q)) as [hi Hhi]; [lia|].
  destruct (lookup_lt_is_Some_2 queries q) as [query Hquery]; [lia|].
  specialize (Hstep _ _ _ Hlo Hhi).
  pose proof (csr_nonneg _ _ _ _ Hcsr Hlo) as Hlo0.
  pose proof (csr_mono _ _ (S q) (length queries) hi _ Hcsr
                ltac:(lia) Hhi Htot) as Hhitot.
  destruct (kept_of_spec queries distances indices offset ranks q query lo hi)
    as (Hkept & _); try done.
  unfold DistributedTree.truncate_results, Int.add.
  rewrite wrap_int_id
    by int_range.
  replace (Z.of_nat q + 1) with (Z.of_nat (S q)) by lia.
  rewrite !view_get_of_nat, Hhi, Hlo. cbn [mbind option_bind].
  unfold kept_of in *. rewrite Hquery, Hlo, Hhi in *.
  destruct (decide (hi > lo)) as [Hgt|Hle]; [|done].
  rewrite decide_True by lia.
  destruct (queue_of_spec indices ranks distances lo hi) as [-> _];
    [done|done|lia|lia|].
  cbn [mbind option_bind fst snd].
  assert (0 ≤ kept_before queries offset q ≤ lo) as Hbase.
  { by eapply kept_before_bounds. }
  pose proof (kept_before_mono queries offset (S q) (length queries)
                Hcsr Hk ltac:(lia)) as Hmono.
  simpl in Hmono.
  pose proof (kept_before_bounds _ _ _ _ Hcsr Hk Htot) as Hall.
  unfold kept_count in Hkept. rewrite Hquery, Hlo, Hhi in Hkept.
  rewrite (truncate_loop_spec _ q (kept_before queries offset q)).
  - by rewrite Z.add_0_r.
  - rewrite list_lookup_fmap, lookup_seq_lt by lia. done.
  - lia.
  - lia.
  - unfold kept_count in Hmono. rewrite Hquery, Hlo, Hhi in Hmono. lia.
  - done.
  - lia.
Qed.

Definition new_offsets queries offset : list Z :=
  kept_before queries offset <$> seq 0 (S (length queries)).

Lemma new_offsets_lookup queries offset (q : nat) :
  (q ≤ length queries)%nat →
  new_offsets queries offset !! q = Some (kept_before queries offset q).
Proof.
  intros Hq. unfold new_offsets.
  rewrite list_lookup_fmap, lookup_seq_lt by lia. done.
Qed.

Lemma new_offsets_csr queries offset :
  csr offset (length queries) →
  Forall (λ query, 1 ≤ DistributedTree.getK query) queries →
  csr (new_offsets queries offset) (length queries).
Proof.
  intros Hcsr Hk. split; [|split].
  - unfold new_offsets. by rewrite length_fmap, length_seq.
  - by rewrite new_offsets_lookup by lia.
  - intros q a b Ha Hb.
    assert (S q ≤ length queries)%nat.
    { apply lookup_lt_Some in Hb. unfold new_offsets in Hb.
      rewrite length_fmap, length_seq in Hb. lia. }
    rewrite new_offsets_lookup in Ha, Hb by lia. simplify_eq. simpl.
    pose proof (kept_count_nonneg queries offset q Hcsr Hk). lia.
Qed.

Lemma owns_new_offsets queries offset (q : nat) i :
  (q < length queries)%nat →
  owns (new_offsets queries offset) q i
  ↔ kept_before queries offset q ≤ i
    < kept_before queries offset q + kept_count queries offset q.
Proof.
  intros Hq. unfold owns. rewrite !new_offsets_lookup by lia. done.
Qed.

(** The contents of one of the two new buffers at position [i], when query
    [q] owns it. *)
Definition kept_at {A} (f : Z * Z * D → A) (dflt : A)
    queries distances indices offset ranks (q i : nat) : A :=
  default dflt
    ((f <$> kept_of queries distances indices offset ranks q)
       !! (i - Z.to_nat (kept_before queries offset q))%nat).

Lemma inserts_cells {A} (f : Z * Z * D → A) dflt queries distances indices
    offset ranks (q : nat) (l : list A) (i : nat) :
  csr offset (length queries) →
  Forall (λ query, 1 ≤ DistributedTree.getK query) queries →
  (q < length queries)%nat →
  Z.of_nat (length (kept_of queries distances indices offset ranks q))
    = kept_count queries offset q →
  Z.of_nat (length l) = kept_before queries offset (length queries) →
  list_inserts (Z.to_nat (kept_before queries offset q))
    (f <$> kept_of queries distances indices offset ranks q) l !! i
  = if decide (owns (new_offsets queries offset) q (Z.of_nat i))
    then Some (kept_at f dflt queries distances indices offset ranks q i)
    else l !! i.
Proof.
  intros Hcsr Hk Hq Hkept Hl.
  pose proof (kept_before_mono queries offset (S q) (length queries)
                Hcsr Hk ltac:(lia)) as Hmono.
  simpl in Hmono.
  pose proof (kept_before_mono queries offset 0 q Hcsr Hk ltac:(lia)) as Hpos.
  simpl in Hpos.
  destruct (decide (owns _ q (Z.of_nat i))) as [Hown|Hown];
    rewrite owns_new_offsets in Hown by done.
  - rewrite list_lookup_inserts by (rewrite ?length_fmap; lia).
    unfold kept_at.
    destruct (lookup_lt_is_Some_2
                (f <$> kept_of queries distances indices offset ranks q)
                (i - Z.to_nat (kept_before queries offset q))) as [v Hv].
    { rewrite length_fmap. lia. }
    by rewrite Hv.
  - destruct (decide (Z.of_nat i < kept_before queries offset q)).
    + by rewrite list_lookup_inserts_lt by lia.
    + by rewrite list_lookup_inserts_ge by (rewrite ?length_fmap; lia).
Qed.

Lemma truncate_parallel_spec space label queries distances indices offset
    ranks :
  Kokkos.valid_space space →
  csr offset (length queries) →
  offset !! length queries = Some (Z.of_nat (length indices)) →
  length ranks = length indices → length distances = length indices →
  Z.of_nat (length queries) < Int.max_int →
  Z.of_nat (length indices) ≤ Int.max_int →
  Forall (λ query, 1 ≤ DistributedTree.getK query) queries →
  ∃ new_indices new_ranks,
    Kokkos.parallel_for space label (Z.of_nat (length queries))
      (DistributedTree.truncate_results queries distances indices offset ranks
         (new_offsets queries offset) (Z.of_nat (length indices)))
      (View.alloc (kept_before queries offset (length queries)) 0,
       View.alloc (kept_before queries offset (length queries)) 0)
    = Some (new_indices, new_ranks)
    ∧ Z.of_nat (length new_indices)
      = kept_before queries offset (length queries)
    ∧ length new_ranks = length new_indices
    ∧ ∀ (q j : nat) x,
        (q < length queries)%nat →
        kept_of queries distances indices offset ranks q !! j = Some x →
        new_indices !! (Z.to_nat (kept_before queries offset q) + j)%nat
          = Some x.1.1
        ∧ new_ranks !! (Z.to_nat (kept_before queries offset q) + j)%nat
          = Some x.1.2.
Proof.
  intros Hspace Hcsr Htot Hranks Hdist Hn Hmax Hk.
  unfold Kokkos.parallel_for. rewrite Nat2Z.id.
  set (sched := Kokkos.schedule space label _).
  assert (sched ≡ₚ seq 0 (length queries)) as Hperm by apply Hspace.
  assert (Forall (λ q, (q < length queries)%nat) sched) as Hsched.
  { rewrite Hperm. apply Forall_seq. lia. }
  pose proof (new_offsets_csr queries offset Hcsr Hk) as Hcsr'.
  pose proof (kept_before_bounds _ _ _ _ Hcsr Hk Htot) as Hall.
  set (ok := λ s : list Z * list Z,
         Z.of_nat (length s.1) = kept_before queries offset (length queries)
         ∧ length s.2 = length s.1).
  assert (∀ (q : nat) s, (q < length queries)%nat → ok s →
    ∃ s', DistributedTree.truncate_results queries distances indices offset
            ranks (new_offsets queries offset) (Z.of_nat (length indices))
            (Z.of_nat q) s = Some s'
          ∧ ok s'
          ∧ (∀ i : nat, s'.1 !! i
               = if decide (owns (new_offsets queries offset) q (Z.of_nat i))
                 then Some (kept_at (λ x, x.1.1) 0 queries distances indices
                              offset ranks q i)
                 else s.1 !! i)
          ∧ (∀ i : nat, s'.2 !! i
               = if decide (owns (new_offsets queries offset) q (Z.of_nat i))
                 then Some (kept_at (λ x, x.1.2) 0 queries distances indices
                              offset ranks q i)
                 else s.2 !! i)) as Hbody.
  { intros q [ni nr] Hq [Hni Hnr]. simpl in Hni, Hnr.
    pose proof Hcsr as (Hlen & _).
    destruct (lookup_lt_is_Some_2 offset q) as [lo Hlo]; [lia|].
    destruct (lookup_lt_is_Some_2 offset (S q)) as [hi Hhi]; [lia|].
    destruct (lookup_lt_is_Some_2 queries q) as [query Hquery]; [lia|].
    destruct (kept_of_spec queries distances indices offset ranks q query
                lo hi) as (Hkept & _); try done.
    eexists. split.
    { apply truncate_results_spec; done. }
    split.
    { split; simpl; rewrite !length_inserts; done. }
    split; intros i; simpl; apply inserts_cells; try done. lia. }
  destruct (disjoint_writers fst ok (new_offsets queries offset)
              (length queries)
              (DistributedTree.truncate_results queries distances indices
                 offset ranks (new_offsets queries offset)
                 (Z.of_nat (length indices)))
              (kept_at (λ x, x.1.1) 0 queries distances indices offset ranks)
              sched Hcsr')
    with (s := (View.alloc (kept_before queries offset (length queries)) 0,
                View.alloc (kept_before queries offset (length queries)) 0))
    as (s1 & Hrun1 & [Hok1 Hok1'] & Hown1 & _).
  { intros q s Hq Hs. destruct (Hbody q s Hq Hs) as (s' & ? & ? & ? & ?).
    by exists s'. }
  { done. }
  { split; simpl; unfold View.alloc; rewrite !length_replicate; [lia|done]. }
  destruct (disjoint_writers snd ok (new_offsets queries offset)
              (length queries)
              (DistributedTree.truncate_results queries distances indices
                 offset ranks (new_offsets queries offset)
                 (Z.of_nat (length indices)))
              (kept_at (λ x, x.1.2) 0 queries distances indices offset ranks)
              sched Hcsr')
    with (s := (View.alloc (kept_before queries offset (length queries)) 0,
                View.alloc (kept_before queries offset (length queries)) 0))
    as (s2 & Hrun2 & _ & Hown2 & _).
  { intros q s Hq Hs. destruct (Hbody q s Hq Hs) as (s' & ? & ? & ? & ?).
    by exists s'. }
  { done. }
  { split; simpl; unfold View.alloc; rewrite !length_replicate; [lia|done]. }
  assert (s2 = s1) as -> by congruence.
  destruct s1 as [new_indices new_ranks]. simpl in *.
  exists new_indices, new_ranks. split; [exact Hrun1|].
  split; [done|]. split; [done|].
  intros q j x Hq Hx.
  pose proof Hcsr as (Hlen & _).
  destruct (lookup_lt_is_Some_2 offset q) as [lo Hlo]; [lia|].
  destruct (lookup_lt_is_Some_2 offset (S q)) as [hi Hhi]; [lia|].
  destruct (lookup_lt_is_Some_2 queries q) as [query Hquery]; [lia|].
  destruct (kept_of_spec queries distances indices offset ranks q query lo hi)
    as (Hkept & _); try done.
  pose proof (kept_before_mono queries offset 0 q Hcsr Hk ltac:(lia)) as Hpos.
  simpl in Hpos.
  assert (owns (new_offsets queries offset) q
            (Z.of_nat (Z.to_nat (kept_before queries offset q) + j))) as Howns.
  { apply owns_new_offsets; [done|]. apply lookup_lt_Some in Hx. lia. }
  assert (q ∈ sched) as Hin.
  { rewrite Hperm. apply elem_of_seq. lia. }
  rewrite (Hown1 q _ Hin Howns), (Hown2 q _ Hin Howns).
  unfold kept_at.
  replace (Z.to_nat (kept_before queries offset q) + j
           - Z.to_nat (kept_before queries offset q))%nat with j by lia.
  by rewrite !list_lookup_fmap, Hx.
Qed.

(** The call as a whole, with the order of the entries kept stated through
    the comparison that the queue is given. *)
Lemma filterResults_best_first space queries distances indices offset
    ranks :
  Kokkos.valid_space space →
  csr offset (length queries) →
  KokkosExt.lastElement offset = Some (Z.of_nat (length indices)) →
  length ranks = length indices →
  length distances = length indices →
  Z.of_nat (length queries) < Int.max_int →
  Z.of_nat (length indices) ≤ Int.max_int →
  Forall (λ query, 1 ≤ DistributedTree.getK query) queries →
  ∃ new_indices new_offset new_ranks,
    DistributedTree.filterResults space queries distances indices offset ranks
    = Some (new_indices, new_offset, new_ranks)
    ∧ new_offset = KokkosExt.exclusive_scan (truncated_counts queries offset) 0
    ∧ csr new_offset (length queries)
    ∧ KokkosExt.lastElement new_offset = Some (Z.of_nat (length new_indices))
    ∧ length new_ranks = length new_indices
    ∧ ∀ (q : nat) query lo hi,
        queries !! q = Some query →
        offset !! q = Some lo → offset !! S q = Some hi →
        ∃ kept dropped lo',
          slice lo hi (results_of indices ranks distances) ≡ₚ kept ++ dropped
          ∧ Z.of_nat (length kept)
            = Z.min (hi - lo) (DistributedTree.getK query)
          ∧ best_first DistributedTree.CompareDistance kept dropped
          ∧ new_offset !! q = Some lo'
          ∧ new_offset !! S q = Some (lo' + Z.of_nat (length kept))
          ∧ slice lo' (lo' + Z.of_nat (length kept))
              (zip new_indices new_ranks) = kept.*1.
Proof.
  intros Hspace Hcsr Hlast Hranks Hdist Hn Hmax Hk.
  assert (offset !! length queries = Some (Z.of_nat (length indices))) as Htot.
  { by rewrite <-(csr_last _ _ Hcsr). }
  pose proof (new_offsets_csr queries offset Hcsr Hk) as Hcsr'.
  pose proof (kept_before_bounds _ _ _ _ Hcsr Hk Htot) as Hall.
  assert (KokkosExt.exclusive_scan (truncated_counts queries offset) 0
          = new_offsets queries offset) as Hscan.
  { by eapply scan_truncated_counts. }
  destruct (truncate_parallel_spec space
    "ArborX::DistributedTree::query::truncate_results"
    queries distances indices offset ranks)
    as (new_indices & new_ranks & Hrun & Hni & Hnr & Hkept); try done.
  exists new_indices, (new_offsets queries offset), new_ranks.
  split.
  { unfold DistributedTree.filterResults.
    rewrite of_size_id by lia. unfold Int.add.
    rewrite wrap_int_id
      by int_range.
    rewrite (discard_parallel_spec _ _ _ _ (Z.of_nat (length indices)))
      by done.
    cbn [mbind option_bind]. rewrite Hscan.
    rewrite (csr_last _ _ Hcsr'), new_offsets_lookup by lia.
    cbn [mbind option_bind]. rewrite Hlast. cbn [mbind option_bind].
    rewrite Hrun. done. }
  split; [done|]. split; [done|]. split.
  { rewrite (csr_last _ _ Hcsr'), new_offsets_lookup by lia. by rewrite Hni. }
  split; [done|].
  intros q query lo hi Hquery Hlo Hhi.
  assert (q < length queries)%nat as Hq by (by eapply lookup_lt_Some).
  destruct (kept_of_spec queries distances indices offset ranks q query lo hi)
    as (Hlen & dropped & Hperm & Hfirst); try done.
  pose proof (kept_before_mono queries offset 0 q Hcsr Hk ltac:(lia)) as Hpos.
  pose proof (kept_before_mono queries offset (S q) (length queries)
                Hcsr Hk ltac:(lia)) as Hmono.
  simpl in Hpos, Hmono.
  exists (kept_of queries distances indices offset ranks q), dropped,
    (kept_before queries offset q).
  split; [done|]. split.
  { rewrite Hlen. unfold kept_count. by rewrite Hquery, Hlo, Hhi. }
  split; [done|]. split; [by apply new_offsets_lookup; lia|]. split.
  { rewrite new_offsets_lookup by lia. simpl. by rewrite Hlen. }
  apply list_eq. intros j. rewrite list_lookup_fmap.
  destruct (kept_of queries distances indices offset ranks q !! j)
    as [x|] eqn:Hx.
  - destruct (Hkept q j x Hq Hx) as [Hi Hr].
    apply lookup_lt_Some in Hx as Hj.
    rewrite slice_lookup by lia. simpl.
    destruct x as [[index rank] distance]. by apply lookup_zip_Some.
  - apply lookup_ge_None in Hx. apply lookup_ge_None.
    unfold slice. rewrite length_take. lia.
Qed.

End filter.

(** *** A queue that meets the contract *)

(** A comparison that is a strict weak order: nothing is below itself, two
    elements are not below each other, and an element below another is
    below, or the other is above, any third. *)
Record StrictWeakOrder {T} (compare : T → T → bool) : Prop := {
  swo_irreflexive x : compare x x = false;
  swo_asymmetric x y : compare x y = true → compare y x = false;
  swo_cotransitive x y z :
    compare x z = true → compare x y = true ∨ compare y z = true;
}.

(** A queue kept as the list of its elements, with the capacity of its
    storage. *)
Record list_queue (T : Type) : Type :=
  ListQueue { lq_capacity : nat; lq_items : list T }.
Arguments ListQueue {T} _ _.
Arguments lq_capacity {T} _.
Arguments lq_items {T} _.

(** The position and value of an element of highest priority. *)
Fixpoint best {T} (compare : T → T → bool) (l : list T) : option (nat * T) :=
  match l with
  | [] => None
  | y :: l' =>
      match best compare l' with
      | Some (i, b) => if compare y b then Some (S i, b) else Some (0%nat, y)
      | None => Some (0%nat, y)
      end
  end.

Definition list_priority_queue {T} (compare : T → T → bool)
    : DistributedTree.PriorityQueue T :=
  {| DistributedTree.pq := list_queue T;
     DistributedTree.pq_create := λ capacity, ListQueue capacity [];
     DistributedTree.pq_empty :=
       λ queue, match lq_items queue with [] => true | _ => false end;
     DistributedTree.pq_emplace :=
       λ x queue,
         if decide (length (lq_items queue) < lq_capacity queue)%nat
         then Some (ListQueue (lq_capacity queue) (x :: lq_items queue))
         else None;
     DistributedTree.pq_top := λ queue, snd <$> best compare (lq_items queue);
     DistributedTree.pq_pop :=
       λ queue,
         match best compare (lq_items queue) with
         | Some (i, _) =>
             ListQueue (lq_capacity queue) (delete i (lq_items queue))
         | None => queue
         end |}.

Lemma best_spec {T} (compare : T → T → bool) (l : list T) :
  StrictWeakOrder compare →
  match best compare l with
  | Some (i, b) => l !! i = Some b ∧ ∀ y, y ∈ l → compare b y = false
  | None => l = []
  end.
Proof.
  intros [Hirr Hasym Hco]. induction l as [|y l IH]; [done|]. simpl.
  destruct (best compare l) as [[i b]|].
  - destruct IH as [Hb Hbest]. destruct (compare y b) eqn:Hyb.
    + split; [done|]. intros z [->|Hz]%elem_of_cons; [by apply Hasym|auto].
    + split; [done|]. intros z [->|Hz]%elem_of_cons; [by apply Hirr|].
      destruct (compare y z) eqn:Hyz; [|done].
      destruct (Hco y b z Hyz) as [?|Hbz]; [congruence|].
      rewrite (Hbest z Hz) in Hbz. done.
  - subst l. split; [done|].
    intros z [->|Hz]%elem_of_cons; [by apply Hirr|].
    by apply elem_of_nil in Hz.
Qed.

Definition list_priority_queue_laws {T} (compare : T → T → bool)
    (Hcompare : StrictWeakOrder compare)
    : PriorityQueueLaws compare (list_priority_queue compare).
Proof.
  refine {| pq_elements := (lq_items : @DistributedTree.pq _
                                         (list_priority_queue compare) → _);
            pq_capacity := lq_capacity |}.
  - done.
  - done.
  - intros [capacity [|x items]]; simpl; split; done.
  - intros x [capacity items] Hroom. simpl in *.
    rewrite decide_True by done. eexists. split; [done|]. done.
  - intros [capacity items] Hne. simpl in *.
    pose proof (best_spec compare items Hcompare) as Hbest.
    destruct (best compare items) as [[i b]|]; [|done].
    destruct Hbest as [Hb Hbest]. exists b. split; [done|].
    split; [|done]. by eapply list_elem_of_lookup_2.
  - intros [capacity items] x. simpl.
    pose proof (best_spec compare items Hcompare) as Hbest.
    destruct (best compare items) as [[i b]|]; [|done].
    destruct Hbest as [Hb _]. intros [= <-]. simpl.
    symmetry. by apply delete_Permutation.
Defined.

(** *** The nearest candidates *)

(** The distances are totally preordered by [dist_le], as [float]s are by
    [<=] when none of them is a NaN, and [a > b] holds exactly when
    [a <= b] does not. *)
Record DistanceOrder {D} `{!DistributedTree.Distance D} (dist_le : relation D)
    : Prop := {
  distance_total a b : dist_le a b ∨ dist_le b a;
  distance_transitive a b c : dist_le a b → dist_le b c → dist_le a c;
  distance_gt_le a b : DistributedTree.distance_gt a b = false ↔ dist_le a b;
}.

(** The entries kept come in ascending distance, and none of them is
    farther than an entry dropped. *)
Definition nearest_first {D} (dist_le : relation D)
    (kept dropped : list (DistributedTree.PairIndexDistance D)) : Prop :=
  StronglySorted (λ x y, dist_le x.2 y.2) kept
  ∧ ∀ x y, x ∈ kept → y ∈ dropped → dist_le x.2 y.2.

(** Over totally preordered distances [CompareDistance] is a strict weak
    order, which is what a heap asks of its comparison. *)
Lemma compare_distance_order {D} `{!DistributedTree.Distance D}
    (dist_le : relation D) :
  DistanceOrder dist_le →
  StrictWeakOrder (@DistributedTree.CompareDistance D _).
Proof.
  intros [Htotal Htrans Hgt]. unfold DistributedTree.CompareDistance. split.
  - intros x. apply Hgt. by destruct (Htotal x.2 x.2).
  - intros x y Hxy. apply Hgt. destruct (Htotal x.2 y.2) as [Hle|Hle]; [|done].
    apply Hgt in Hle. congruence.
  - intros x y z Hxz.
    destruct (DistributedTree.distance_gt x.2 y.2) eqn:Hxy; [by left|].
    destruct (DistributedTree.distance_gt y.2 z.2) eqn:Hyz; [by right|].
    apply Hgt in Hxy, Hyz. pose proof (Htrans _ _ _ Hxy Hyz) as Hle.
    apply Hgt in Hle. congruence.
Qed.

Lemma best_first_nearest {D} `{!DistributedTree.Distance D}
    (dist_le : relation D) (kept dropped : list (Z * Z * D)) :
  DistanceOrder dist_le →
  best_first DistributedTree.CompareDistance kept dropped →
  nearest_first dist_le kept dropped.
Proof.
  intros [_ _ Hgt]. unfold best_first, DistributedTree.CompareDistance.
  induction kept as [|x kept IH]; intros Hbest.
  - split; [constructor|]. intros x y Hx. by apply elem_of_nil in Hx.
  - destruct IH as [Hsorted Hdropped].
    { intros i y Hy z Hz. by apply (Hbest (S i) y Hy z). }
    assert (∀ y, y ∈ kept ++ dropped → dist_le x.2 y.2) as Hx.
    { intros y Hy. apply Hgt. apply (Hbest 0%nat x eq_refl y).
      simpl. by rewrite drop_0. }
    split.
    + constructor; [done|]. apply Forall_forall. intros y Hy.
      apply Hx, elem_of_app. by left.
    + intros y z [->|Hy]%elem_of_cons Hz; [|by apply Hdropped].
      apply Hx, elem_of_app. by right.
Qed.

(** C1.  For queries that each ask for [k >= 1] results, over distances
    that are totally preordered (no NaN) and a queue that meets the
    contract of a priority queue provided that its comparison,
    [CompareDistance], is a strict weak order, [filterResults]
    returns new CSR arrays whose offsets are the exclusive scan of the
    per-query counts [min(count(q), k(q))].  The slice of query [q] holds
    exactly that many entries: the candidates of [q] split into the entries
    kept and the entries dropped, the kept ones are emitted as (index, rank)
    pairs in ascending distance, and no kept entry is farther than a dropped
    one, so that the kept ones are [k(q)] candidates of smallest distance
    (which entries are kept among equal distances is left to the queue).  A
    query without candidates keeps nothing. *)
Theorem filterResults_keeps_nearest {Query D}
    `{!DistributedTree.Nearest Query, !DistributedTree.Distance D}
    (queue : DistributedTree.PriorityQueue (DistributedTree.PairIndexDistance D))
    (queue_laws : StrictWeakOrder (@DistributedTree.CompareDistance D _) →
                  PriorityQueueLaws DistributedTree.CompareDistance queue)
    (dist_le : relation D)
    space (queries : list Query) (distances : list D) indices offset ranks :
  DistanceOrder dist_le →
  Kokkos.valid_space space →
  csr offset (length queries) →
  KokkosExt.lastElement offset = Some (Z.of_nat (length indices)) →
  length ranks = length indices →
  length distances = length indices →
  Z.of_nat (length queries) < Int.max_int →
  Z.of_nat (length indices) ≤ Int.max_int →
  Forall (λ query, 1 ≤ DistributedTree.getK query) queries →
  ∃ new_indices new_offset new_ranks,
    DistributedTree.filterResults space queries distances indices offset ranks
    = Some (new_indices, new_offset, new_ranks)
    ∧ new_offset = KokkosExt.exclusive_scan (truncated_counts queries offset) 0
    ∧ csr new_offset (length queries)
    ∧ KokkosExt.lastElement new_offset = Some (Z.of_nat (length new_indices))
    ∧ length new_ranks = length new_indices
    ∧ ∀ (q : nat) query lo hi,
        queries !! q = Some query →
        offset !! q = Some lo → offset !! S q = Some hi →
        ∃ kept dropped lo',
          slice lo hi (results_of indices ranks distances) ≡ₚ kept ++ dropped
          ∧ Z.of_nat (length kept)
            = Z.min (hi - lo) (DistributedTree.getK query)
          ∧ nearest_first dist_le kept dropped
          ∧ new_offset !! q = Some lo'
          ∧ new_offset !! S q = Some (lo' + Z.of_nat (length kept))
          ∧ slice lo' (lo' + Z.of_nat (length kept))
              (zip new_indices new_ranks) = kept.*1.
Proof.
  intros Horder Hspace Hcsr Hlast Hranks Hdist Hn Hmax Hk.
  pose proof (queue_laws (compare_distance_order dist_le Horder)) as Hlaws.
  destruct (filterResults_best_first space queries distances indices offset
              ranks) as (new_indices & new_offset & new_ranks & Hrun & Hscan
                         & Hcsr' & Hlast' & Hlen & Hslices); try done.
  exists new_indices, new_offset, new_ranks.
  split; [done|]. split; [done|]. split; [done|]. split; [done|].
  split; [done|].
  intros q query lo hi Hquery Hlo Hhi.
  destruct (Hslices q query lo hi Hquery Hlo Hhi)
    as (kept & dropped & lo' & Hperm & Hcount & Hbest & Hlo' & Hhi' & Hout).
  exists kept, dropped, lo'. split; [done|]. split; [done|].
  split; [by apply best_first_nearest|]. done.
Qed.

(** Distances in tenths, compared as integers; a query is its [k]. *)
Definition tenths : DistributedTree.Distance Z := Z.gtb.
Definition k_of_query : DistributedTree.Nearest Z := λ k, k.

Lemma compare_tenths_order :
  StrictWeakOrder (@DistributedTree.CompareDistance Z tenths).
Proof.
  unfold DistributedTree.CompareDistance, DistributedTree.distance_gt, tenths.
  split.
  - intros x. lia.
  - intros x y. lia.
  - intros x y z. destruct (x.2 >? y.2) eqn:?; [by left|right]. lia.
Qed.

(** The scenario of the specification: process 0 asks for the three
    nearest neighbours; process 1 returned candidates at distances 1.0 and
    4.0, process 3 at 2.0 and 0.5.  A second query, for two neighbours, got
    no candidate. *)
Definition demo_queries : list Z := [3; 2].
Definition demo_offset : list Z := [0; 4; 4].
Definition demo_indices : list Z := [11; 12; 31; 32].
Definition demo_ranks : list Z := [1; 1; 3; 3].
Definition demo_distances : list Z := [10; 40; 20; 5].

Definition demo_queue
    : DistributedTree.PriorityQueue (DistributedTree.PairIndexDistance Z) :=
  list_priority_queue (@DistributedTree.CompareDistance Z tenths).

Lemma csr_044 : csr demo_offset 2.
Proof.
  split; [done|]. split; [done|].
  intros [|[|[|q]]] a b Ha Hb; simplify_eq/=; lia.
Qed.

Lemma tenths_order : @DistanceOrder Z tenths Z.le.
Proof.
  split.
  - intros a b. lia.
  - intros a b c. lia.
  - intros a b. unfold DistributedTree.distance_gt, tenths.
    destruct (Z.gtb_spec a b); split; intros; try done; lia.
Qed.

Lemma filterResults_keeps_nearest_witness :
  ∃ new_indices new_offset new_ranks,
    @DistributedTree.filterResults Z Z k_of_query demo_queue Kokkos.reversed
      demo_queries demo_distances demo_indices demo_offset demo_ranks
    = Some (new_indices, new_offset, new_ranks)
    ∧ new_offset
      = KokkosExt.exclusive_scan
          (@truncated_counts Z k_of_query demo_queries demo_offset) 0
    ∧ csr new_offset (length demo_queries)
    ∧ KokkosExt.lastElement new_offset = Some (Z.of_nat (length new_indices))
    ∧ length new_ranks = length new_indices
    ∧ ∀ (q : nat) query lo hi,
        demo_queries !! q = Some query →
        demo_offset !! q = Some lo → demo_offset !! S q = Some hi →
        ∃ kept dropped lo',
          slice lo hi (results_of demo_indices demo_ranks demo_distances)
            ≡ₚ kept ++ dropped
          ∧ Z.of_nat (length kept) = Z.min (hi - lo) query
          ∧ nearest_first Z.le kept dropped
          ∧ new_offset !! q = Some lo'
          ∧ new_offset !! S q = Some (lo' + Z.of_nat (length kept))
          ∧ slice lo' (lo' + Z.of_nat (length kept))
              (zip new_indices new_ranks) = kept.*1.
Proof.
  apply (@filterResults_keeps_nearest Z Z k_of_query tenths demo_queue
           (list_priority_queue_laws _) Z.le
           Kokkos.reversed demo_queries demo_distances demo_indices
           demo_offset demo_ranks).
  - exact tenths_order.
  - exact reversed_valid.
  - exact csr_044.
  - reflexivity.
  - reflexivity.
  - reflexivity.
  - vm_compute. reflexivity.
  - vm_compute. congruence.
  - repeat constructor; unfold DistributedTree.getK, k_of_query; lia.
Defined.

(** The call, evaluated: the three nearest in ascending distance, each with
    the rank that owns it; nothing for the query without candidates. *)
Example filterResults_scenario :
  @DistributedTree.filterResults Z Z k_of_query demo_queue Kokkos.reversed
    demo_queries demo_distances demo_indices demo_offset demo_ranks
  = Some ([32; 11; 31], [0; 3; 3], [3; 1; 3]).
Proof. vm_compute. reflexivity. Qed.

(** * Part III: bounds, failures, schedules and composition

    Further properties of the embedded functions, read off their code. *)

(** ** countResults: identifiers at and beyond the bounds *)

Lemma foldl_bind_None {S A} (f : A → S → option S) (l : list A) :
  foldl (λ acc q, acc ≫= f q) None l = None.
Proof. by induction l. Qed.

Lemma atomic_increment_Some off q off' :
  Kokkos.atomic_increment off q = Some off' →
  0 ≤ q < Z.of_nat (length off) ∧ length off' = length off.
Proof.
  unfold Kokkos.atomic_increment, View.get, View.set. intros Hstep.
  destruct (decide (0 ≤ q)); [|done].
  destruct (off !! Z.to_nat q); [|done]. simpl in Hstep.
  destruct (decide (0 ≤ q < Z.of_nat (length off))); [|done].
  injection Hstep as <-. by rewrite length_insert.
Qed.

(** One identifier outside of the array is enough for the counting loop to
    have no defined result, wherever it comes in the order of the visits. *)
Lemma increments_out_of_bounds qs : ∀ off,
  Exists (λ q, ¬ 0 ≤ q < Z.of_nat (length off)) qs →
  foldl (λ acc q, acc ≫= (λ o, Kokkos.atomic_increment o q)) (Some off) qs
  = None.
Proof.
  induction qs as [|q qs IH]; intros off Hbad; [by apply Exists_nil in Hbad|].
  simpl. destruct (Kokkos.atomic_increment off q) as [off'|] eqn:Hstep.
  - apply atomic_increment_Some in Hstep as [Hq Hlen].
    apply IH. rewrite Hlen. apply Exists_cons in Hbad as [Hbad|Hbad]; done.
  - apply (foldl_bind_None (λ q o, Kokkos.atomic_increment o q)).
Qed.

(** [countResults] is its counting loop over the identifiers in the order
    the execution space visits them, then the scan. *)
Lemma countResults_loop space n ids prior :
  Kokkos.valid_space space →
  0 ≤ n < Int.max_int →
  Z.of_nat (length ids) ≤ Int.max_int →
  ∃ visited,
    visited ≡ₚ ids
    ∧ DistributedTree.countResults space n ids prior
      = o ← foldl (λ acc q, acc ≫= (λ o, Kokkos.atomic_increment o q))
                  (Some (replicate (S (Z.to_nat n)) 0)) visited;
        Some (KokkosExt.exclusive_scan o 0).
Proof.
  intros Hspace Hn Hlen. unfold DistributedTree.countResults.
  rewrite of_size_id by done. unfold Int.add, View.alloc.
  rewrite wrap_int_id by int_range.
  unfold Kokkos.parallel_for. rewrite Nat2Z.id.
  set (sched := Kokkos.schedule space _ (length ids)).
  destruct (visited_permutation ids sched) as [Hin Hvis]; [apply Hspace|].
  exists (omap (λ i, ids !! i) sched). split; [done|].
  rewrite (foldl_visit ids (λ q o, Kokkos.atomic_increment o q)) by done.
  by replace (Z.to_nat (n + 1)) with (S (Z.to_nat n)) by lia.
Qed.

(** The closed form of the offsets also covers identifiers equal to [n]:
    they are counted in the last cell of the zeroed array, which the
    exclusive scan adds to no entry. *)
Lemma countResults_closed_form_upto space n ids prior :
  Kokkos.valid_space space →
  0 ≤ n < Int.max_int →
  Z.of_nat (length ids) ≤ Int.max_int →
  Forall (λ q, 0 ≤ q ≤ n) ids →
  DistributedTree.countResults space n ids prior = Some (csr_offsets n ids).
Proof.
  intros Hspace Hn Hlen Hids.
  destruct (countResults_loop space n ids prior) as (vis & Hvis & ->); try done.
  destruct (increments_spec vis (replicate (S (Z.to_nat n)) 0))
    as (off & -> & Hofflen & Hoff).
  - rewrite Hvis, length_replicate.
    eapply Forall_impl; [exact Hids|]. simpl. lia.
  - intros j x [-> _]%lookup_replicate. rewrite Hvis. lia.
  - simpl. f_equal. rewrite length_replicate in Hofflen.
    unfold csr_offsets. rewrite <-Hofflen.
    apply exclusive_scan_telescope.
    + symmetry. apply below_none. eapply Forall_impl; [exact Hids|].
      simpl. lia.
    + intros q x Hx. simpl.
      assert (q < length off)%nat as Hq by (by eapply lookup_lt_Some).
      rewrite (Hoff q 0) in Hx by (apply lookup_replicate_2; lia).
      injection Hx as <-. rewrite (occurrences_perm _ _ _ Hvis).
      replace (Z.of_nat (S q)) with (Z.of_nat q + 1) by lia.
      rewrite below_succ. lia.
    + intros q _. simpl.
      pose proof (length_filter (λ x, x < Z.of_nat q) ids).
      unfold below, Int.in_int, Int.min_int, Int.max_int in *. lia.
Qed.

(** X1.  [countResults] checks no identifier: for [n >= 0] queries the call
    has a defined result exactly when every identifier lies in [[0, n]],
    the index range of the [n + 1] counters; one identifier outside of it
    is an access out of bounds, whatever the order of the iterations. *)
Theorem countResults_defined_iff space n query_ids prior :
  Kokkos.valid_space space →
  0 ≤ n < Int.max_int →
  Z.of_nat (length query_ids) ≤ Int.max_int →
  is_Some (DistributedTree.countResults space n query_ids prior)
  ↔ Forall (λ q, 0 ≤ q ≤ n) query_ids.
Proof.
  intros Hspace Hn Hlen. split.
  - intros Hsome.
    destruct (decide (Forall (λ q, 0 ≤ q ≤ n) query_ids)) as [|Hbad]; [done|].
    exfalso. apply not_Forall_Exists in Hbad; [|apply _].
    destruct (countResults_loop space n query_ids prior)
      as (vis & Hvis & Hrun); try done.
    rewrite Hrun, increments_out_of_bounds in Hsome.
    + by apply is_Some_None in Hsome.
    + rewrite Hvis, length_replicate.
      eapply Exists_impl; [exact Hbad|]. simpl. lia.
  - intros Hids. by rewrite countResults_closed_form_upto.
Qed.

Lemma countResults_defined_iff_witness :
  is_Some (DistributedTree.countResults Kokkos.reversed 2 [1; 2; 0] [])
  ↔ Forall (λ q, 0 ≤ q ≤ 2) [1; 2; 0].
Proof.
  apply (countResults_defined_iff Kokkos.reversed 2 [1; 2; 0] []).
  - exact reversed_valid.
  - vm_compute. split; congruence.
  - vm_compute. congruence.
Defined.

Lemma below_without q n ids :
  q ≤ n → below q (filter (λ x, x ≠ n) ids) = below q ids.
Proof.
  intros Hq. unfold below. induction ids as [|x ids IH]; [done|].
  rewrite !filter_cons.
  destruct (decide (x ≠ n)), (decide (x < q)); simpl;
    rewrite ?filter_cons, ?decide_True, ?decide_False by done; simpl; lia.
Qed.

Lemma below_upto n ids :
  Forall (λ q, q ≤ n) ids →
  below n ids = Z.of_nat (length ids) - occurrences n ids.
Proof.
  unfold below, occurrences. induction 1 as [|x ids Hx _ IH]; [done|].
  rewrite !filter_cons.
  destruct (decide (x < n)), (decide (x = n)); simpl; lia.
Qed.

(** X2.  An identifier equal to [n] is not rejected and not counted: the
    offsets are those of the list without these identifiers, so that the
    last entry falls short of the number of identifiers by the number of
    those equal to [n]. *)
Theorem countResults_drops_identifier_n space n query_ids prior :
  Kokkos.valid_space space →
  0 ≤ n < Int.max_int →
  Z.of_nat (length query_ids) ≤ Int.max_int →
  Forall (λ q, 0 ≤ q ≤ n) query_ids →
  ∃ offset,
    DistributedTree.countResults space n query_ids prior = Some offset
    ∧ DistributedTree.countResults space n
        (filter (λ q, q ≠ n) query_ids) prior = Some offset
    ∧ KokkosExt.lastElement offset
      = Some (Z.of_nat (length query_ids) - occurrences n query_ids).
Proof.
  intros Hspace Hn Hlen Hids. exists (csr_offsets n query_ids).
  split; [by apply countResults_closed_form_upto|]. split.
  - rewrite countResults_closed_form_upto; try done.
    + f_equal. unfold csr_offsets. apply list_fmap_ext.
      intros i q [-> Hq]%lookup_seq. apply below_without. lia.
    + pose proof (length_filter (λ q, q ≠ n) query_ids). lia.
    + rewrite Forall_forall in Hids. apply Forall_forall.
      intros q [_ Hq]%list_elem_of_filter. by apply Hids.
  - unfold KokkosExt.lastElement, csr_offsets.
    rewrite seq_S, fmap_app. cbn [fmap list_fmap]. rewrite last_snoc.
    simpl. f_equal. rewrite Z2Nat.id by lia. apply below_upto.
    eapply Forall_impl; [exact Hids|]. simpl. lia.
Qed.

(** Two results name query 2 of two queries: they are dropped without a
    word and the total reads 3 for 5 identifiers. *)
Lemma countResults_drops_identifier_n_witness :
  ∃ offset,
    DistributedTree.countResults Kokkos.reversed 2 [2; 0; 1; 2; 0] [] = Some offset
    ∧ DistributedTree.countResults Kokkos.reversed 2
        (filter (λ q, q ≠ 2) [2; 0; 1; 2; 0]) [] = Some offset
    ∧ KokkosExt.lastElement offset
      = Some (Z.of_nat (length [2; 0; 1; 2; 0]) - occurrences 2 [2; 0; 1; 2; 0]).
Proof.
  apply (countResults_drops_identifier_n Kokkos.reversed 2 [2; 0; 1; 2; 0] []).
  - exact reversed_valid.
  - vm_compute. split; congruence.
  - vm_compute. congruence.
  - repeat constructor; lia.
Defined.

Example countResults_identifier_beyond :
  DistributedTree.countResults Kokkos.serial 2 [0; 3; 1] [] = None
  ∧ DistributedTree.countResults Kokkos.reversed 2 [0; -1; 1] [] = None.
Proof. split; vm_compute; reflexivity. Qed.

(** ** PermutedData: what the logical indices below [size()] present *)

(** Reading the object at each logical index from 0 to [size() - 1], as a
    loop over the access trait does. *)
Definition presented {A} (pd : PermutedData.t A) : option (list A) :=
  mapM (λ i : nat, (PermutedData.call (Z.of_nat i) pd).1)
       (seq 0 (PermutedData.size pd)).

Lemma mapM_omap {A B} (f : A → option B) (k : list A) l :
  mapM f k = Some l → omap f k = l.
Proof.
  revert l. induction k as [|a k IH]; intros l Hl; [by injection Hl|].
  apply mapM_Some_1 in Hl. inversion Hl as [|? y ? l' Hy Hl']; subst.
  csimpl. rewrite Hy. f_equal. apply IH. by apply mapM_Some_2.
Qed.

(** X3.  When the permutation lists every index of the data once, each
    logical index below [size()] is defined, index [i] presents
    [data[permutation[i]]], and the sequence presented is a rearrangement
    of the data: no element is lost, none comes twice. *)
Theorem permuted_presents_each_once {A} (data : list A) (permute : list Z) :
  Forall (λ j, 0 ≤ j) permute →
  Z.to_nat <$> permute ≡ₚ seq 0 (length data) →
  ∃ l,
    presented (PermutedData.mk data permute) = Some l
    ∧ l ≡ₚ data
    ∧ ∀ (i : nat) j, permute !! i = Some j → l !! i = data !! Z.to_nat j.
Proof.
  intros Hpos Hperm.
  assert (length permute = length data) as Hlen.
  { apply Permutation_length in Hperm.
    by rewrite length_fmap, length_seq in Hperm. }
  destruct (mapM_is_Some_2 (λ j : nat, data !! j) (Z.to_nat <$> permute))
    as [l Hl].
  { rewrite Hperm. apply Forall_seq. intros j Hj. simpl.
    apply lookup_lt_is_Some. lia. }
  pose proof (mapM_Some_1 _ _ _ Hl) as Hall.
  pose proof (Forall2_length _ _ _ Hall) as Hlen'. rewrite length_fmap in Hlen'.
  exists l. split; [|split].
  - unfold presented, PermutedData.size. simpl. apply mapM_Some_2.
    apply Forall2_same_length_lookup_2.
    { rewrite length_seq. congruence. }
    intros i x y [-> Hi]%lookup_seq Hy. simpl.
    destruct (Forall2_lookup_r _ _ _ _ _ Hall Hy) as (j' & Hj' & Hdata).
    rewrite list_lookup_fmap, fmap_Some in Hj'. destruct Hj' as (j & Hj & ->).
    rewrite (call_unfold (PermutedData.mk data permute) i j Hj). simpl.
    unfold View.get. rewrite decide_True; [done|].
    rewrite Forall_forall in Hpos. apply Hpos. by eapply list_elem_of_lookup_2.
  - rewrite <-(mapM_omap _ _ _ Hl), Hperm. by rewrite omap_lookup_seq.
  - intros i j Hj.
    destruct (Forall2_lookup_l _ _ _ i (Z.to_nat j) Hall) as (y & Hy & Hdata).
    { by rewrite list_lookup_fmap, Hj. }
    by rewrite Hy, Hdata.
Qed.

Lemma permuted_presents_each_once_witness :
  ∃ l,
    presented (PermutedData.mk [10; 20; 30] [2; 0; 1]) = Some l
    ∧ l ≡ₚ [10; 20; 30]
    ∧ ∀ (i : nat) j, [2; 0; 1] !! i = Some j → l !! i = [10; 20; 30] !! Z.to_nat j.
Proof.
  apply (permuted_presents_each_once [10; 20; 30] [2; 0; 1]).
  - repeat constructor; lia.
  - vm_compute. apply Permutation_sym. apply perm_trans with [0; 2; 1]%nat.
    + apply perm_skip, perm_swap.
    + apply perm_swap.
Defined.

(** X4.  [size()] is the extent of the data, not of the permutation: over
    a permutation shorter than the data, the logical index
    [length permutation] is below [size()] and reads the permutation out
    of bounds, so that a loop from 0 to [size() - 1] has no defined
    result. *)
Theorem permuted_size_overruns_permutation {A} (data : list A)
    (permute : list Z) :
  (length permute < length data)%nat →
  let pd := PermutedData.mk data permute in
  (length permute < PermutedData.size pd)%nat
  ∧ PermutedData.call (Z.of_nat (length permute)) pd = (None, pd)
  ∧ PermutedData.access_get false (length permute) pd = (None, pd)
  ∧ presented pd = None.
Proof.
  intros Hshort pd.
  assert (PermutedData.call (Z.of_nat (length permute)) pd = (None, pd))
    as Hcall.
  { unfold PermutedData.call, PermutedData.rbind, PermutedData.read_permute.
    rewrite view_get_of_nat. simpl. by rewrite lookup_ge_None_2. }
  split; [done|]. split; [done|]. split; [exact Hcall|].
  unfold presented. apply mapM_None_2, Exists_exists.
  exists (length permute). split; [|by rewrite Hcall].
  apply list_elem_of_lookup. exists (length permute).
  apply lookup_seq. simpl. unfold PermutedData.size. simpl. lia.
Qed.

Lemma permuted_size_overruns_permutation_witness :
  (2 < PermutedData.size subset_view)%nat
  ∧ PermutedData.call 2 subset_view = (None, subset_view)
  ∧ PermutedData.access_get false 2 subset_view = (None, subset_view)
  ∧ presented subset_view = None.
Proof.
  apply (permuted_size_overruns_permutation [10; 20; 30] [2; 0]).
  simpl. lia.
Defined.

(** ** sendAcrossNetwork: how much arrives *)

Lemma size_extents {A} (v : Kokkos.View A) :
  (length (Kokkos.extents v) ≤ 8)%nat →
  Kokkos.size v = (Kokkos.extent v 0 * packets v)%nat.
Proof.
  destruct v as [e c]. unfold packets, Kokkos.size, Kokkos.extent. simpl.
  intros He.
  destruct e as [|e0 [|e1 [|e2 [|e3 [|e4 [|e5 [|e6 [|e7 [|e8 e]]]]]]]]];
    simpl in *; lia.
Qed.

(** X5.  A transfer that passes the assertion leaves in the import view, of
    rank at most 8, one element per packet of every item received: the
    plan's receive length times the packet count, which the call computes
    from the export view alone. *)
Theorem sendAcrossNetwork_element_count {A} `{!DistributedTree.Transport A}
    d (exports imports : Kokkos.View (option A)) log :
  extents_agree d exports imports →
  (length (Kokkos.extents imports) ≤ 8)%nat →
  ∃ received_view,
    DistributedTree.sendAcrossNetwork d exports imports log
    = DistributedTree.Done received_view
        (log ++ [DistributedTree.Exchange A d (Kokkos.contents exports)
                   (packets exports)])
    ∧ length (Kokkos.contents received_view)
      = (DistributedTree.getTotalReceiveLength d * packets exports)%nat.
Proof.
  intros Hok Hrank. eexists. split; [by apply sendAcrossNetwork_agree|].
  simpl. rewrite length_fmap, length_seq, size_extents by done.
  destruct Hok as (_ & -> & Hr). unfold packets.
  by rewrite !Hr by lia.
Qed.

(** Two items of three packets each, sent by a process to itself. *)
Definition two_by_three : Kokkos.View (option Z) :=
  {| Kokkos.extents := [2; 3]%nat;
     Kokkos.contents := Some <$> [1; 2; 3; 4; 5; 6] |}.

Lemma sendAcrossNetwork_element_count_witness :
  ∃ received_view,
    @DistributedTree.sendAcrossNetwork Z (echo 0) (plan (loopback 0) [0; 0])
      two_by_three (Kokkos.with_contents two_by_three (replicate 6 None)) []
    = DistributedTree.Done received_view
        ([] ++ [DistributedTree.Exchange Z (plan (loopback 0) [0; 0])
                  (Kokkos.contents two_by_three) (packets two_by_three)])
    ∧ length (Kokkos.contents received_view)
      = Nat.mul
          (DistributedTree.getTotalReceiveLength (plan (loopback 0) [0; 0]))
          (packets two_by_three).
Proof.
  apply (@sendAcrossNetwork_element_count Z (echo 0) (plan (loopback 0) [0; 0])
           two_by_three
           (Kokkos.with_contents two_by_three (replicate 6 None)) []).
  - split; [reflexivity|]. split; [reflexivity|].
    intros r Hr. reflexivity.
  - simpl. lia.
Defined.

Example sendAcrossNetwork_two_by_three :
  @DistributedTree.sendAcrossNetwork Z (echo 0) (plan (loopback 0) [0; 0])
    two_by_three (Kokkos.with_contents two_by_three (replicate 6 None)) []
  = DistributedTree.Done
      (Kokkos.with_contents two_by_three [1; 2; 3; 4; 5; 6])
      [DistributedTree.Exchange Z (plan (loopback 0) [0; 0])
         (Some <$> [1; 2; 3; 4; 5; 6]) 3].
Proof. vm_compute. reflexivity. Qed.

(** ** The fill kernels do not depend on the order of the iterations *)

Lemma parallel_fill_unique {A} space space' label label' offset n
    (value : Z → option A) total :
  Kokkos.valid_space space → Kokkos.valid_space space' →
  csr offset n → offset !! n = Some total →
  Z.of_nat n ≤ Int.max_int →
  (∀ q, (q < n)%nat → is_Some (value (Z.of_nat q))) →
  Kokkos.parallel_for space label (Z.of_nat n)
    (DistributedTree.fill_batch offset value) (View.uninitialized total)
  = Kokkos.parallel_for space' label' (Z.of_nat n)
      (DistributedTree.fill_batch offset value) (View.uninitialized total).
Proof.
  intros Hspace Hspace' Hcsr Htot Hn Hval.
  destruct (parallel_fill space label offset n value total)
    as (b & -> & Hlen & Hown); try done.
  destruct (parallel_fill space' label' offset n value total)
    as (b' & -> & Hlen' & Hown'); try done.
  f_equal. apply list_eq. intros i.
  destruct (decide (Z.of_nat i < total)) as [Hi|Hi].
  - destruct (csr_owner offset n total (Z.of_nat i)) as (q & Hq & Howns);
      [done|done|lia|].
    by rewrite (Hown q i Hq Howns), (Hown' q i Hq Howns).
  - rewrite !lookup_ge_None_2; [done|lia..].
Qed.

(** ** forwardQueries: failure and schedules *)

Section forward_more.
Context {Query : Type}.
Context `{!DistributedTree.Transport Z, !DistributedTree.Transport Query}.

(** X6.  [forwardQueries] does not compare the destination list with the
    offsets itself: when the list does not have [offset(n)] entries, the
    first transfer finds a rank buffer that is not of the plan's send
    length, and the call stops at that assertion before any exchange. *)
Theorem forwardQueries_destination_count comm space (queries : list Query)
    indices offset n_exports log :
  KokkosExt.lastElement offset = Some n_exports →
  Z.to_nat n_exports ≠ length indices →
  DistributedTree.forwardQueries comm space queries indices offset log
  = DistributedTree.Fatal log.
Proof.
  intros Hlast Hne. unfold DistributedTree.forwardQueries. rewrite Hlast.
  unfold DistributedTree.createFromSends. rewrite bind_defined.
  unfold DistributedTree.bind at 1.
  rewrite sendAcrossNetwork_disagree; [done|].
  intros (Hsend & _). apply Hne. revert Hsend.
  unfold Kokkos.extent, Kokkos.rank1, View.alloc,
    DistributedTree.getTotalSendLength. simpl.
  by rewrite length_replicate.
Qed.

(** X7.  The outcome of [forwardQueries], its results and the buffers it
    exchanges, is the same for every order in which the execution space runs
    the iterations of the two fill kernels. *)
Theorem forwardQueries_any_schedule comm space space' (queries : list Query)
    indices offset log :
  Kokkos.valid_space space → Kokkos.valid_space space' →
  csr offset (length queries) →
  Z.of_nat (length queries) < Int.max_int →
  DistributedTree.forwardQueries comm space queries indices offset log
  = DistributedTree.forwardQueries comm space' queries indices offset log.
Proof.
  intros Hspace Hspace' Hcsr Hn.
  pose proof Hcsr as (Hlen & _).
  destruct (lookup_lt_is_Some_2 offset (length queries)) as [total Htot];
    [lia|].
  unfold DistributedTree.forwardQueries.
  rewrite (csr_last _ _ Hcsr), Htot.
  rewrite (of_size_id (length queries)) by lia.
  rewrite !bind_defined. cbv zeta.
  rewrite (parallel_fill_unique space space' _
    "ArborX::DistributedTree::query::forward_queries_fill_buffer"
    offset (length queries) (View.get queries) total); [|done|done|done|done|lia|].
  2:{ intros q Hq. rewrite view_get_of_nat. by apply lookup_lt_is_Some. }
  rewrite (parallel_fill_unique (A := Z) space space' _
    "ArborX::DistributedTree::query::forward_queries_fill_ids"
    offset (length queries) (λ q, Some q) total); [done|done|done|done|done|lia|by eauto].
Qed.

End forward_more.

Lemma forwardQueries_destination_count_witness :
  @DistributedTree.forwardQueries string (echo 0) (echo "")
    (loopback 5) Kokkos.serial ["a"; "b"] [1; 3] [0; 2; 3] []
  = DistributedTree.Fatal [].
Proof.
  apply (@forwardQueries_destination_count string (echo 0) (echo "")
           (loopback 5) Kokkos.serial ["a"; "b"] [1; 3] [0; 2; 3] 3 []).
  - reflexivity.
  - simpl. lia.
Defined.

Lemma forwardQueries_any_schedule_witness :
  @DistributedTree.forwardQueries string (echo 0) (echo "")
    (loopback 5) Kokkos.serial ["a"; "b"; "c"] [1; 3; 2] [0; 2; 2; 3] []
  = @DistributedTree.forwardQueries string (echo 0) (echo "")
      (loopback 5) Kokkos.reversed ["a"; "b"; "c"] [1; 3; 2] [0; 2; 2; 3] [].
Proof.
  apply (@forwardQueries_any_schedule string (echo 0) (echo "") (loopback 5)
           Kokkos.serial Kokkos.reversed ["a"; "b"; "c"] [1; 3; 2]
           [0; 2; 2; 3] []).
  - exact serial_valid.
  - exact reversed_valid.
  - exact csr_0223.
  - vm_compute. reflexivity.
Defined.

(** ** communicateResultsBack: failure and schedules *)

Section gather_more.
Context {Out D : Type}.
Context `{!DistributedTree.Transport Z, !DistributedTree.Transport Out,
          !DistributedTree.Transport D}.

(** The call up to its third transfer: the ranks and the ids have been
    exchanged. *)
Lemma communicateResultsBack_ids_sent comm space (out : list Out) offset ranks
    ids (distances_ptr : option (list D)) total log :
  Kokkos.valid_space space →
  csr offset (length ids) →
  length ranks = length ids →
  KokkosExt.lastElement offset = Some total →
  Z.of_nat (length offset) ≤ Int.max_int →
  Z.of_nat (DistributedTree.network_imports comm
              (DistributedTree.batched_destinations ranks offset))
    ≤ Int.max_int →
  let d := plan comm (DistributedTree.batched_destinations ranks offset) in
  let n_imports := Int.of_size (DistributedTree.getTotalReceiveLength d) in
  ∃ export_ids,
    DistributedTree.getTotalSendLength d = Z.to_nat total
    ∧ Z.to_nat n_imports = DistributedTree.getTotalReceiveLength d
    ∧ DistributedTree.communicateResultsBack comm space out offset ranks ids
        distances_ptr log
      = DistributedTree.bind
          (DistributedTree.sendAcrossNetwork d (Kokkos.rank1 (Some <$> out))
             (Kokkos.rank1 (View.uninitialized n_imports)))
          (λ import_out,
             match distances_ptr with
             | Some distances =>
                 DistributedTree.bind
                   (DistributedTree.sendAcrossNetwork d
                      (Kokkos.rank1 (Some <$> distances))
                      (Kokkos.rank1 (View.uninitialized n_imports)))
                   (λ import_distances,
                      DistributedTree.ret
                        {| DistributedTree.res_out :=
                             Kokkos.contents import_out;
                           DistributedTree.res_ranks :=
                             imports_of d
                               (replicate (Z.to_nat total)
                                  (Some (DistributedTree.MPI_Comm_rank comm)));
                           DistributedTree.res_ids := imports_of d export_ids;
                           DistributedTree.res_distances :=
                             Some (Kokkos.contents import_distances) |})
             | None =>
                 DistributedTree.ret
                   {| DistributedTree.res_out := Kokkos.contents import_out;
                      DistributedTree.res_ranks :=
                        imports_of d
                          (replicate (Z.to_nat total)
                             (Some (DistributedTree.MPI_Comm_rank comm)));
                      DistributedTree.res_ids := imports_of d export_ids;
                      DistributedTree.res_distances := None |}
             end)
          (log ++ [DistributedTree.Exchange Z d
                     (replicate (Z.to_nat total)
                        (Some (DistributedTree.MPI_Comm_rank comm))) 1;
                   DistributedTree.Exchange Z d export_ids 1]).
Proof.
  intros Hspace Hcsr Hranks Hlast Hn Himports d n_imports.
  pose proof Hcsr as (Hlen & _).
  assert (offset !! length ids = Some total) as Htot.
  { by rewrite <-(csr_last _ _ Hcsr). }
  pose proof (csr_nonneg _ _ _ _ Hcsr Htot) as Htot0.
  destruct (parallel_fill space "ArborX::DistributedTree::query::fill_buffer"
    offset (length ids) (View.get ids) total)
    as (export_ids & Hids & Hlen_ids & _); [done|done|done|lia|..].
  { intros q Hq. rewrite view_get_of_nat. by apply lookup_lt_is_Some. }
  assert (DistributedTree.getTotalSendLength d = Z.to_nat total) as Hsend.
  { unfold DistributedTree.getTotalSendLength, d. simpl.
    pose proof (length_batched ranks offset _ total Hcsr Hranks Htot). lia. }
  assert (Z.to_nat n_imports = DistributedTree.getTotalReceiveLength d)
    as Hrecv.
  { unfold n_imports. rewrite of_size_id by done. apply Nat2Z.id. }
  exists export_ids. split; [done|]. split; [done|].
  unfold DistributedTree.communicateResultsBack. rewrite Hlast.
  unfold DistributedTree.createFromSends_batched,
    DistributedTree.createFromSends.
  fold (plan comm (DistributedTree.batched_destinations ranks offset)).
  fold d. fold n_imports. cbv zeta.
  replace (Int.sub (Int.of_size (length offset)) 1)
    with (Z.of_nat (length ids)).
  2:{ unfold Int.sub. rewrite of_size_id by done.
      rewrite wrap_int_id; [lia|]. int_range. }
  rewrite bind_defined.
  erewrite bind_done; last first.
  { apply send_rank1; [|exact Hrecv].
    unfold View.alloc. by rewrite length_replicate. }
  rewrite Hids, bind_defined.
  erewrite bind_done; last first.
  { apply send_rank1; [|exact Hrecv]. congruence. }
  unfold View.alloc, imports_of. simpl. rewrite <-!(assoc_L (++)). simpl.
  by destruct distances_ptr.
Qed.

(** X8.  The length of the payload is not checked before communication
    starts: when [out] does not have [offset(n)] elements, the ranks and the
    ids are exchanged first, and the call stops at the assertion of the
    third transfer, with these two exchanges made and no result. *)
Theorem communicateResultsBack_payload_length comm space (out : list Out)
    offset ranks ids (distances_ptr : option (list D)) total log :
  Kokkos.valid_space space →
  csr offset (length ids) →
  length ranks = length ids →
  KokkosExt.lastElement offset = Some total →
  Z.of_nat (length offset) ≤ Int.max_int →
  Z.of_nat (DistributedTree.network_imports comm
              (DistributedTree.batched_destinations ranks offset))
    ≤ Int.max_int →
  length out ≠ Z.to_nat total →
  ∃ export_ids,
    DistributedTree.communicateResultsBack comm space out offset ranks ids
      distances_ptr log
    = DistributedTree.Fatal
        (log ++ [DistributedTree.Exchange Z
                   (plan comm (DistributedTree.batched_destinations ranks offset))
                   (replicate (Z.to_nat total)
                      (Some (DistributedTree.MPI_Comm_rank comm))) 1;
                 DistributedTree.Exchange Z
                   (plan comm (DistributedTree.batched_destinations ranks offset))
                   export_ids 1]).
Proof.
  intros Hspace Hcsr Hranks Hlast Hn Himports Hout.
  destruct (communicateResultsBack_ids_sent comm space out offset ranks ids
              distances_ptr total log)
    as (export_ids & Hsend & Hrecv & ->); try done.
  exists export_ids. unfold DistributedTree.bind at 1.
  rewrite sendAcrossNetwork_disagree; [done|].
  intros (Hextent & _). apply Hout. rewrite <-Hsend, <-Hextent.
  unfold Kokkos.extent, Kokkos.rank1. simpl. by rewrite length_fmap.
Qed.

(** X9.  Nor is the length of the distances: a distance array that is not
    as long as the payload is found at the fourth transfer, after the
    ranks, the ids and the payload have been exchanged. *)
Theorem communicateResultsBack_distances_length comm space (out : list Out)
    offset ranks ids (distances : list D) log :
  Kokkos.valid_space space →
  csr offset (length ids) →
  length ranks = length ids →
  KokkosExt.lastElement offset = Some (Z.of_nat (length out)) →
  Z.of_nat (length offset) ≤ Int.max_int →
  Z.of_nat (DistributedTree.network_imports comm
              (DistributedTree.batched_destinations ranks offset))
    ≤ Int.max_int →
  length distances ≠ length out →
  ∃ export_ids,
    DistributedTree.communicateResultsBack comm space out offset ranks ids
      (Some distances) log
    = DistributedTree.Fatal
        (log ++ [DistributedTree.Exchange Z
                   (plan comm (DistributedTree.batched_destinations ranks offset))
                   (replicate (length out)
                      (Some (DistributedTree.MPI_Comm_rank comm))) 1;
                 DistributedTree.Exchange Z
                   (plan comm (DistributedTree.batched_destinations ranks offset))
                   export_ids 1;
                 DistributedTree.Exchange Out
                   (plan comm (DistributedTree.batched_destinations ranks offset))
                   (Some <$> out) 1]).
Proof.
  intros Hspace Hcsr Hranks Hlast Hn Himports Hdist.
  destruct (communicateResultsBack_ids_sent comm space out offset ranks ids
              (Some distances) (Z.of_nat (length out)) log)
    as (export_ids & Hsend & Hrecv & ->); try done.
  rewrite Nat2Z.id in *.
  exists export_ids.
  erewrite bind_done; last first.
  { apply send_rank1; [|exact Hrecv]. by rewrite length_fmap. }
  unfold DistributedTree.bind at 1.
  rewrite sendAcrossNetwork_disagree.
  - by rewrite <-(assoc_L (++)).
  - intros (Hextent & _). apply Hdist. rewrite <-Hsend, <-Hextent.
    unfold Kokkos.extent, Kokkos.rank1. simpl. by rewrite length_fmap.
Qed.

(** X10.  The outcome of [communicateResultsBack] is the same for every
    order in which the execution space runs the iterations of the kernel
    that fills the id buffer. *)
Theorem communicateResultsBack_any_schedule comm space space'
    (out : list Out) offset ranks ids (distances_ptr : option (list D)) log :
  Kokkos.valid_space space → Kokkos.valid_space space' →
  csr offset (length ids) →
  Z.of_nat (length offset) ≤ Int.max_int →
  DistributedTree.communicateResultsBack comm space out offset ranks ids
    distances_ptr log
  = DistributedTree.communicateResultsBack comm space' out offset ranks ids
      distances_ptr log.
Proof.
  intros Hspace Hspace' Hcsr Hn.
  pose proof Hcsr as (Hlen & _).
  destruct (lookup_lt_is_Some_2 offset (length ids)) as [total Htot]; [lia|].
  unfold DistributedTree.communicateResultsBack.
  rewrite (csr_last _ _ Hcsr), Htot.
  replace (Int.sub (Int.of_size (length offset)) 1)
    with (Z.of_nat (length ids)).
  2:{ unfold Int.sub. rewrite of_size_id by done.
      rewrite wrap_int_id; [lia|]. int_range. }
  rewrite !bind_defined.
  destruct (DistributedTree.createFromSends_batched comm ranks offset)
    as [d n_imports].
  rewrite (parallel_fill_unique space space' _
    "ArborX::DistributedTree::query::fill_buffer"
    offset (length ids) (View.get ids) total); [done|done|done|done|done|lia|].
  intros q Hq. rewrite view_get_of_nat. by apply lookup_lt_is_Some.
Qed.

End gather_more.

(** Three results announced by the offsets, two payloads given. *)
Lemma communicateResultsBack_payload_length_witness :
  ∃ export_ids,
    @DistributedTree.communicateResultsBack string Z (echo 0) (echo "") (echo 0)
      (loopback 1) Kokkos.reversed ["x"; "y"] [0; 2; 3] [1; 1] [7; 9] None []
    = DistributedTree.Fatal
        ([] ++ [DistributedTree.Exchange Z
                  (plan (loopback 1)
                     (DistributedTree.batched_destinations [1; 1] [0; 2; 3]))
                  (replicate (Z.to_nat 3)
                     (Some (DistributedTree.MPI_Comm_rank (loopback 1)))) 1;
                DistributedTree.Exchange Z
                  (plan (loopback 1)
                     (DistributedTree.batched_destinations [1; 1] [0; 2; 3]))
                  export_ids 1]).
Proof.
  apply (@communicateResultsBack_payload_length string Z (echo 0) (echo "")
           (echo 0) (loopback 1) Kokkos.reversed ["x"; "y"] [0; 2; 3] [1; 1]
           [7; 9] None 3 []).
  - exact reversed_valid.
  - exact csr_023.
  - reflexivity.
  - reflexivity.
  - vm_compute. congruence.
  - vm_compute. congruence.
  - simpl. lia.
Defined.

(** Three results with two distances. *)
Lemma communicateResultsBack_distances_length_witness :
  ∃ export_ids,
    @DistributedTree.communicateResultsBack string Z (echo 0) (echo "") (echo 0)
      (loopback 1) Kokkos.reversed ["x"; "y"; "z"] [0; 2; 3] [1; 1] [7; 9]
      (Some [30; 10]) []
    = DistributedTree.Fatal
        ([] ++ [DistributedTree.Exchange Z
                  (plan (loopback 1)
                     (DistributedTree.batched_destinations [1; 1] [0; 2; 3]))
                  (replicate (length ["x"; "y"; "z"])
                     (Some (DistributedTree.MPI_Comm_rank (loopback 1)))) 1;
                DistributedTree.Exchange Z
                  (plan (loopback 1)
                     (DistributedTree.batched_destinations [1; 1] [0; 2; 3]))
                  export_ids 1;
                DistributedTree.Exchange string
                  (plan (loopback 1)
                     (DistributedTree.batched_destinations [1; 1] [0; 2; 3]))
                  (Some <$> ["x"; "y"; "z"]) 1]).
Proof.
  apply (@communicateResultsBack_distances_length string Z (echo 0) (echo "")
           (echo 0) (loopback 1) Kokkos.reversed ["x"; "y"; "z"] [0; 2; 3]
           [1; 1] [7; 9] [30; 10] []).
  - exact reversed_valid.
  - exact csr_023.
  - reflexivity.
  - reflexivity.
  - vm_compute. congruence.
  - vm_compute. congruence.
  - simpl. lia.
Defined.

Example communicateResultsBack_short_distances :
  @DistributedTree.communicateResultsBack string Z (echo 0) (echo "") (echo 0)
    (loopback 1) Kokkos.reversed ["x"; "y"; "z"] [0; 2; 3] [1; 1] [7; 9]
    (Some [30; 10]) []
  = DistributedTree.Fatal
      [DistributedTree.Exchange Z (plan (loopback 1) [1; 1; 1])
         [Some 1; Some 1; Some 1] 1;
       DistributedTree.Exchange Z (plan (loopback 1) [1; 1; 1])
         [Some 7; Some 7; Some 9] 1;
       DistributedTree.Exchange string (plan (loopback 1) [1; 1; 1])
         [Some "x"; Some "y"; Some "z"] 1].
Proof. vm_compute. reflexivity. Qed.

Lemma communicateResultsBack_any_schedule_witness :
  @DistributedTree.communicateResultsBack string Z (echo 0) (echo "") (echo 0)
    (loopback 1) Kokkos.serial ["x"; "y"; "z"] [0; 2; 3] [1; 1] [7; 9]
    (Some [30; 10; 20]) []
  = @DistributedTree.communicateResultsBack string Z (echo 0) (echo "") (echo 0)
      (loopback 1) Kokkos.reversed ["x"; "y"; "z"] [0; 2; 3] [1; 1] [7; 9]
      (Some [30; 10; 20]) [].
Proof.
  apply (@communicateResultsBack_any_schedule string Z (echo 0) (echo "")
           (echo 0) (loopback 1) Kokkos.serial Kokkos.reversed
           ["x"; "y"; "z"] [0; 2; 3] [1; 1] [7; 9] (Some [30; 10; 20]) []).
  - exact serial_valid.
  - exact reversed_valid.
  - exact csr_023.
  - vm_compute. congruence.
Defined.

(** ** sortResults: what the permutation conserves *)

Lemma permuted_by_perm {V} permutation (c c' : list V) :
  permutation ≡ₚ seq 0 (length c) → permuted_by permutation c c' → c' ≡ₚ c.
Proof.
  intros Hperm Hby. apply mapM_Some_2, mapM_omap in Hby.
  rewrite <-Hby, Hperm. by rewrite omap_lookup_seq.
Qed.

Lemma permuted_by_zip {V W} permutation (c1 c1' : list V) (c2 c2' : list W) :
  permuted_by permutation c1 c1' → permuted_by permutation c2 c2' →
  permuted_by permutation (zip c1 c2) (zip c1' c2').
Proof.
  unfold permuted_by. intros H1. revert c2'.
  induction H1 as [|j y p c1' Hy _ IH]; intros c2' H2.
  - inversion H2. constructor.
  - inversion H2 as [|? z ? c2'' Hz H2']; subst. simpl. constructor.
    + by apply lookup_zip_Some.
    + by apply IH.
Qed.

Lemma permuted_by_id {V} (c c' : list V) :
  permuted_by (seq 0 (length c)) c c' → c' = c.
Proof.
  intros Hby. pose proof (Forall2_length _ _ _ Hby) as Hlen.
  rewrite length_seq in Hlen.
  apply list_eq. intros i. destruct (c' !! i) as [y|] eqn:Hy.
  - destruct (Forall2_lookup_r _ _ _ _ _ Hby Hy) as (j & Hj & Hc).
    apply lookup_seq in Hj as [-> _]. done.
  - apply lookup_ge_None in Hy. symmetry. apply lookup_ge_None. lia.
Qed.

Section sort_more.
Context {V : Type} `{!DistributedTree.Sorter V}.
Implicit Types (memory : gmap DistributedTree.handle (list V)).

(** The call on keys that are not empty. *)
Lemma sortResults_run (key_le : relation V) space keys others memory ks :
  memory !! keys = Some ks →
  NoDup others →
  (∀ h, h ∈ others → ∃ c, memory !! h = Some c ∧ length c = length ks) →
  length ks ≠ 0%nat →
  sorts_ascending key_le ks (DistributedTree.sortObjects ks) →
  ∃ memory',
    DistributedTree.sortResults space keys others memory = Some memory'
    ∧ (∀ h, h ∉ others → memory' !! h = memory !! h)
    ∧ ∀ h c, h ∈ others → memory !! h = Some c →
        ∃ c', memory' !! h = Some c'
              ∧ permuted_by (DistributedTree.sortObjects ks).2 c c'.
Proof.
  intros Hkeys Hnodup Hlen Hn (Hperm & _).
  unfold DistributedTree.sortResults. rewrite Hkeys. simpl.
  rewrite decide_False by done.
  destruct (DistributedTree.sortObjects ks) as [sorted permutation].
  simpl in Hperm |- *.
  set (keys_clone := fresh (dom memory)).
  assert (memory !! keys_clone = None) as Hfresh.
  { apply not_elem_of_dom. apply is_fresh. }
  assert (keys_clone ∉ others) as Hclone.
  { intros Hin. destruct (Hlen _ Hin) as (c & Hc & _). congruence. }
  destruct (applyPermutation_all permutation (length ks) others
              (<[keys_clone := sorted]> (<[keys_clone := ks]> memory)))
    as (memory' & Hrun & Hothers & Hframe); [done|done|..].
  { intros h Hh. destruct (Hlen h Hh) as (c & Hc & Hnc). exists c.
    split; [|done]. rewrite !lookup_insert_ne; [done|..]; intros ->; done. }
  rewrite Hrun. simpl. eexists. split; [done|]. split.
  - intros h Hh. destruct (decide (h = keys_clone)) as [->|Hne].
    + by rewrite lookup_delete_eq.
    + rewrite lookup_delete_ne by done. rewrite Hframe by done.
      by rewrite !lookup_insert_ne.
  - intros h c Hh Hc.
    destruct (Hothers h c Hh) as (c' & Hc' & Hpc).
    { rewrite !lookup_insert_ne; [done|..]; intros ->; done. }
    exists c'. split; [|done]. rewrite lookup_delete_ne; [done|].
    intros <-. done.
Qed.

(** X11.  [sortResults] conserves the rows of the companions: after the
    call every companion holds its former elements, each as often as before,
    and two companions read side by side hold the pairs they held before,
    so that what stood at one position of both stands at one position of
    both. *)
Theorem sortResults_conserves_rows (key_le : relation V) space keys others
    memory ks :
  memory !! keys = Some ks →
  keys ∉ others →
  NoDup others →
  (∀ h, h ∈ others → ∃ c, memory !! h = Some c ∧ length c = length ks) →
  (length ks ≠ 0%nat →
   sorts_ascending key_le ks (DistributedTree.sortObjects ks)) →
  ∃ memory',
    DistributedTree.sortResults space keys others memory = Some memory'
    ∧ ∀ h1 h2 c1 c2,
        h1 ∈ others → h2 ∈ others →
        memory !! h1 = Some c1 → memory !! h2 = Some c2 →
        ∃ c1' c2',
          memory' !! h1 = Some c1' ∧ memory' !! h2 = Some c2'
          ∧ c1' ≡ₚ c1 ∧ c2' ≡ₚ c2
          ∧ zip c1' c2' ≡ₚ zip c1 c2.
Proof.
  intros Hkeys Hnotin Hnodup Hlen Hsort.
  destruct (decide (length ks = 0%nat)) as [Hn|Hn].
  { exists memory. split.
    - unfold DistributedTree.sortResults. rewrite Hkeys. simpl.
      by rewrite decide_True.
    - intros h1 h2 c1 c2 _ _ H1 H2. by exists c1, c2. }
  destruct (sortResults_run key_le space keys others memory ks)
    as (memory' & Hrun & _ & Hothers); auto.
  destruct (Hsort Hn) as (Hperm & _).
  exists memory'. split; [done|].
  intros h1 h2 c1 c2 Hh1 Hh2 Hc1 Hc2.
  destruct (Hothers h1 c1 Hh1 Hc1) as (c1' & Hc1' & Hby1).
  destruct (Hothers h2 c2 Hh2 Hc2) as (c2' & Hc2' & Hby2).
  assert (length c1 = length ks) as Hl1.
  { destruct (Hlen h1 Hh1) as (c & Hc & ?). congruence. }
  assert (length c2 = length ks) as Hl2.
  { destruct (Hlen h2 Hh2) as (c & Hc & ?). congruence. }
  exists c1', c2'. split; [done|]. split; [done|].
  split; [|split].
  - apply (permuted_by_perm _ _ _ ltac:(by rewrite Hl1) Hby1).
  - apply (permuted_by_perm _ _ _ ltac:(by rewrite Hl2) Hby2).
  - apply (permuted_by_perm (DistributedTree.sortObjects ks).2).
    + rewrite length_zip_with, Hl1, Hl2, Nat.min_id. done.
    + by apply permuted_by_zip.
Qed.

(** X12.  On keys that already ascend and are pairwise distinct, the
    permutation is the identity and [sortResults] leaves the whole memory of
    buffers as it was. *)
Theorem sortResults_sorted_keys (key_le : relation V) space keys others
    memory ks :
  AntiSymm (=) key_le →
  memory !! keys = Some ks →
  keys ∉ others →
  NoDup others →
  (∀ h, h ∈ others → ∃ c, memory !! h = Some c ∧ length c = length ks) →
  (length ks ≠ 0%nat →
   sorts_ascending key_le ks (DistributedTree.sortObjects ks)) →
  StronglySorted key_le ks →
  NoDup ks →
  DistributedTree.sortResults space keys others memory = Some memory.
Proof.
  intros Hanti Hkeys Hnotin Hnodup Hlen Hsort Hasc Hdistinct.
  destruct (decide (length ks = 0%nat)) as [Hn|Hn].
  { unfold DistributedTree.sortResults. rewrite Hkeys. simpl.
    by rewrite decide_True. }
  destruct (sortResults_run key_le space keys others memory ks)
    as (memory' & Hrun & Hframe & Hothers); auto.
  destruct (Hsort Hn) as (Hperm & Hsorted & Hasc').
  assert ((DistributedTree.sortObjects ks).1 = ks) as Hsame.
  { apply (StronglySorted_unique key_le); [done|done|].
    by apply (permuted_by_perm (DistributedTree.sortObjects ks).2). }
  rewrite Hsame in Hsorted.
  assert ((DistributedTree.sortObjects ks).2 = seq 0 (length ks)) as Hid.
  { pose proof (Forall2_length _ _ _ Hsorted) as Hlp.
    apply list_eq. intros i.
    destruct ((DistributedTree.sortObjects ks).2 !! i) as [j|] eqn:Hj.
    - destruct (Forall2_lookup_l _ _ _ _ _ Hsorted Hj) as (y & Hy & Hy').
      rewrite (NoDup_lookup ks j i y Hdistinct Hy' Hy).
      symmetry. apply lookup_seq. split; [done|].
      by eapply lookup_lt_Some.
    - apply lookup_ge_None in Hj. symmetry. apply lookup_ge_None.
      rewrite length_seq. lia. }
  rewrite Hrun. f_equal. apply map_eq. intros h.
  destruct (decide (h ∈ others)) as [Hh|Hh]; [|by apply Hframe].
  destruct (Hlen h Hh) as (c & Hc & Hlc).
  destruct (Hothers h c Hh Hc) as (c' & Hc' & Hby).
  rewrite Hid, <-Hlc in Hby. apply permuted_by_id in Hby. congruence.
Qed.

(** X17.  A view is a handle to its buffer: when the keys' own buffer is
    among the companions, it is permuted like any of them, and after the
    call it holds the sorted keys. *)
Theorem sortResults_keys_among_companions (key_le : relation V) space keys
    others memory ks :
  memory !! keys = Some ks →
  keys ∈ others →
  NoDup others →
  (∀ h, h ∈ others → ∃ c, memory !! h = Some c ∧ length c = length ks) →
  length ks ≠ 0%nat →
  sorts_ascending key_le ks (DistributedTree.sortObjects ks) →
  ∃ memory' sorted,
    DistributedTree.sortResults space keys others memory = Some memory'
    ∧ memory' !! keys = Some sorted
    ∧ sorted = (DistributedTree.sortObjects ks).1
    ∧ sorted ≡ₚ ks
    ∧ StronglySorted key_le sorted.
Proof.
  intros Hkeys Hin Hnodup Hlen Hn Hsort.
  destruct (sortResults_run key_le space keys others memory ks)
    as (memory' & Hrun & _ & Hothers); auto.
  destruct Hsort as (Hperm & Hsorted & Hasc).
  destruct (Hothers keys ks Hin Hkeys) as (c' & Hc' & Hby).
  assert (c' = (DistributedTree.sortObjects ks).1) as ->.
  { apply mapM_Some_2 in Hby, Hsorted. congruence. }
  exists memory', (DistributedTree.sortObjects ks).1.
  split; [done|]. split; [done|]. split; [done|]. split; [|done].
  by apply (permuted_by_perm (DistributedTree.sortObjects ks).2).
Qed.

End sort_more.

Lemma three_buffers_companions h :
  h ∈ [1%nat; 2%nat] →
  ∃ c, three_buffers !! h = Some c ∧ length c = length [30; 10; 20].
Proof.
  intros Hh. apply elem_of_cons in Hh as [->|Hh].
  { exists [100; 101; 102]. split; reflexivity. }
  apply elem_of_cons in Hh as [->|Hh].
  { exists [7; 8; 9]. split; reflexivity. }
  by apply elem_of_nil in Hh.
Qed.

Lemma sortResults_conserves_rows_witness :
  ∃ memory',
    @DistributedTree.sortResults Z merge_sorter Kokkos.serial 0%nat
      [1%nat; 2%nat] three_buffers = Some memory'
    ∧ ∀ h1 h2 c1 c2,
        h1 ∈ [1%nat; 2%nat] → h2 ∈ [1%nat; 2%nat] →
        three_buffers !! h1 = Some c1 → three_buffers !! h2 = Some c2 →
        ∃ c1' c2',
          memory' !! h1 = Some c1' ∧ memory' !! h2 = Some c2'
          ∧ c1' ≡ₚ c1 ∧ c2' ≡ₚ c2
          ∧ zip c1' c2' ≡ₚ zip c1 c2.
Proof.
  apply (@sortResults_conserves_rows Z merge_sorter Z.le Kokkos.serial 0%nat
           [1%nat; 2%nat] three_buffers [30; 10; 20]).
  - reflexivity.
  - apply (bool_decide_unpack _). by vm_compute.
  - apply (bool_decide_unpack _). by vm_compute.
  - exact three_buffers_companions.
  - intros _. apply merge_sorter_sorts.
Defined.

Lemma sortResults_keys_among_companions_witness :
  ∃ memory' sorted,
    @DistributedTree.sortResults Z merge_sorter Kokkos.serial 0%nat
      [0%nat; 1%nat; 2%nat] three_buffers = Some memory'
    ∧ memory' !! 0%nat = Some sorted
    ∧ sorted = (merge_sorter [30; 10; 20]).1
    ∧ sorted ≡ₚ [30; 10; 20]
    ∧ StronglySorted Z.le sorted.
Proof.
  apply (@sortResults_keys_among_companions Z merge_sorter Z.le Kokkos.serial
           0%nat [0%nat; 1%nat; 2%nat] three_buffers [30; 10; 20]).
  - reflexivity.
  - by left.
  - apply (bool_decide_unpack _). by vm_compute.
  - intros h Hh. apply elem_of_cons in Hh as [->|Hh].
    { exists [30; 10; 20]. split; reflexivity. }
    by apply three_buffers_companions.
  - simpl. lia.
  - apply merge_sorter_sorts.
Defined.

(** Ascending ids and one companion. *)
Definition sorted_buffers : gmap DistributedTree.handle (list Z) :=
  {[ 0%nat := [10; 20; 30]; 1%nat := [100; 101; 102] ]}.

Lemma sortResults_sorted_keys_witness :
  @DistributedTree.sortResults Z merge_sorter Kokkos.serial 0%nat [1%nat]
    sorted_buffers
  = Some sorted_buffers.
Proof.
  apply (@sortResults_sorted_keys Z merge_sorter Z.le Kokkos.serial 0%nat
           [1%nat] sorted_buffers [10; 20; 30]).
  - intros x y. lia.
  - reflexivity.
  - apply (bool_decide_unpack _). by vm_compute.
  - apply (bool_decide_unpack _). by vm_compute.
  - intros h Hh. apply elem_of_cons in Hh as [->|Hh].
    { exists [100; 101; 102]. split; reflexivity. }
    by apply elem_of_nil in Hh.
  - intros _. apply merge_sorter_sorts.
  - repeat constructor; lia.
  - apply (bool_decide_unpack _). by vm_compute.
Defined.

(** Between equal keys the sorter is free: a sorter that takes equal keys
    last to first exchanges the companion's entries, so the keys have to be
    distinct for the memory to stay as it was. *)
Definition last_first_sorter : DistributedTree.Sorter Z :=
  λ ks, let sorted :=
          merge_sort key_position_le (reverse (zip ks (seq 0 (length ks)))) in
        (sorted.*1, sorted.*2).

Example sortResults_equal_keys :
  @DistributedTree.sortResults Z last_first_sorter Kokkos.serial 0%nat [1%nat]
    {[ 0%nat := [5; 5]; 1%nat := [100; 101] ]}
  = Some {[ 0%nat := [5; 5]; 1%nat := [101; 100] ]}.
Proof. by vm_compute. Qed.

(** ** filterResults: schedules, and queries that keep everything *)

Section filter_more.
Context {Query D : Type}.
Context `{!DistributedTree.Nearest Query, !DistributedTree.Distance D}.
Context `{!DistributedTree.PriorityQueue (DistributedTree.PairIndexDistance D)}.
Context `{!PriorityQueueLaws DistributedTree.CompareDistance _}.
Implicit Types (queries : list Query) (distances : list D)
  (indices offset ranks : list Z).

(** The call, step by step: the new offsets, and where the entries that
    each query keeps are written. *)
Lemma filterResults_run space queries distances indices offset ranks :
  Kokkos.valid_space space →
  csr offset (length queries) →
  KokkosExt.lastElement offset = Some (Z.of_nat (length indices)) →
  length ranks = length indices →
  length distances = length indices →
  Z.of_nat (length queries) < Int.max_int →
  Z.of_nat (length indices) ≤ Int.max_int →
  Forall (λ query, 1 ≤ DistributedTree.getK query) queries →
  ∃ new_indices new_ranks,
    DistributedTree.filterResults space queries distances indices offset ranks
    = Some (new_indices, new_offsets queries offset, new_ranks)
    ∧ Z.of_nat (length new_indices)
      = kept_before queries offset (length queries)
    ∧ length new_ranks = length new_indices
    ∧ ∀ (q j : nat) x,
        (q < length queries)%nat →
        kept_of queries distances indices offset ranks q !! j = Some x →
        new_indices !! (Z.to_nat (kept_before queries offset q) + j)%nat
          = Some x.1.1
        ∧ new_ranks !! (Z.to_nat (kept_before queries offset q) + j)%nat
          = Some x.1.2.
Proof.
  intros Hspace Hcsr Hlast Hranks Hdist Hn Hmax Hk.
  assert (offset !! length queries = Some (Z.of_nat (length indices))) as Htot.
  { by rewrite <-(csr_last _ _ Hcsr). }
  pose proof (new_offsets_csr queries offset Hcsr Hk) as Hcsr'.
  assert (KokkosExt.exclusive_scan (truncated_counts queries offset) 0
          = new_offsets queries offset) as Hscan.
  { by eapply scan_truncated_counts. }
  destruct (truncate_parallel_spec space
    "ArborX::DistributedTree::query::truncate_results"
    queries distances indices offset ranks)
    as (new_indices & new_ranks & Hrun & Hni & Hnr & Hkept); try done.
  exists new_indices, new_ranks. split; [|done].
  unfold DistributedTree.filterResults.
  rewrite of_size_id by lia. unfold Int.add.
  rewrite wrap_int_id by int_range.
  rewrite (discard_parallel_spec _ _ _ _ (Z.of_nat (length indices))) by done.
  cbn [mbind option_bind]. rewrite Hscan.
  rewrite (csr_last _ _ Hcsr'), new_offsets_lookup by lia.
  cbn [mbind option_bind]. rewrite Hlast. cbn [mbind option_bind].
  by rewrite Hrun.
Qed.

(** The cells of a new buffer are determined by what the queries keep. *)
Lemma kept_cells_unique {A} (f : Z * Z * D → A) queries distances indices
    offset ranks (l l' : list A) :
  csr offset (length queries) →
  offset !! length queries = Some (Z.of_nat (length indices)) →
  length ranks = length indices → length distances = length indices →
  Forall (λ query, 1 ≤ DistributedTree.getK query) queries →
  Z.of_nat (length l) = kept_before queries offset (length queries) →
  Z.of_nat (length l') = kept_before queries offset (length queries) →
  (∀ (q j : nat) x, (q < length queries)%nat →
     kept_of queries distances indices offset ranks q !! j = Some x →
     l !! (Z.to_nat (kept_before queries offset q) + j)%nat = Some (f x)) →
  (∀ (q j : nat) x, (q < length queries)%nat →
     kept_of queries distances indices offset ranks q !! j = Some x →
     l' !! (Z.to_nat (kept_before queries offset q) + j)%nat = Some (f x)) →
  l = l'.
Proof.
  intros Hcsr Htot Hranks Hdist Hk Hl Hl' Hcells Hcells'.
  pose proof (new_offsets_csr queries offset Hcsr Hk) as Hcsr'.
  apply list_eq. intros i.
  destruct (decide (Z.of_nat i < kept_before queries offset (length queries)))
    as [Hi|Hi]; [|rewrite !lookup_ge_None_2; [done|lia..]].
  destruct (csr_owner (new_offsets queries offset) (length queries)
              (kept_before queries offset (length queries)) (Z.of_nat i))
    as (q & Hq & Howns); [done|by apply new_offsets_lookup|lia|].
  apply owns_new_offsets in Howns; [|done].
  pose proof Hcsr as (Hlen & _).
  destruct (lookup_lt_is_Some_2 offset q) as [lo Hlo]; [lia|].
  destruct (lookup_lt_is_Some_2 offset (S q)) as [hi Hhi]; [lia|].
  destruct (lookup_lt_is_Some_2 queries q) as [query Hquery]; [lia|].
  destruct (kept_of_spec queries distances indices offset ranks q query lo hi)
    as (Hkept & _); try done.
  destruct (lookup_lt_is_Some_2
              (kept_of queries distances indices offset ranks q)
              (i - Z.to_nat (kept_before queries offset q))) as [x Hx]; [lia|].
  specialize (Hcells q _ x Hq Hx). specialize (Hcells' q _ x Hq Hx).
  replace (Z.to_nat (kept_before queries offset q)
           + (i - Z.to_nat (kept_before queries offset q)))%nat with i
    in Hcells, Hcells' by lia.
  congruence.
Qed.

(** X13.  The result of [filterResults] is the same for every order in
    which the execution space runs the iterations of its two kernels: no
    query writes where another one does. *)
Theorem filterResults_any_schedule space space' queries distances indices
    offset ranks :
  Kokkos.valid_space space → Kokkos.valid_space space' →
  csr offset (length queries) →
  KokkosExt.lastElement offset = Some (Z.of_nat (length indices)) →
  length ranks = length indices →
  length distances = length indices →
  Z.of_nat (length queries) < Int.max_int →
  Z.of_nat (length indices) ≤ Int.max_int →
  Forall (λ query, 1 ≤ DistributedTree.getK query) queries →
  DistributedTree.filterResults space queries distances indices offset ranks
  = DistributedTree.filterResults space' queries distances indices offset
      ranks.
Proof.
  intros Hspace Hspace' Hcsr Hlast Hranks Hdist Hn Hmax Hk.
  assert (offset !! length queries = Some (Z.of_nat (length indices))) as Htot.
  { by rewrite <-(csr_last _ _ Hcsr). }
  destruct (filterResults_run space queries distances indices offset ranks)
    as (ni & nr & -> & Hni & Hnr & Hcells); try done.
  destruct (filterResults_run space' queries distances indices offset ranks)
    as (ni' & nr' & -> & Hni' & Hnr' & Hcells'); try done.
  assert (ni = ni') as ->.
  { apply (kept_cells_unique (λ x, x.1.1) queries distances indices offset
             ranks); try done.
    - intros q j x Hq Hx. by apply Hcells.
    - intros q j x Hq Hx. by apply Hcells'. }
  assert (nr = nr') as ->; [|done].
  apply (kept_cells_unique (λ x, x.1.2) queries distances indices offset
           ranks); try done; try lia.
  - intros q j x Hq Hx. by apply Hcells.
  - intros q j x Hq Hx. by apply Hcells'.
Qed.

(** Where no query has more candidates than it asks for, the entries kept
    before query [q] are all the entries before it. *)
Lemma kept_before_all queries offset :
  csr offset (length queries) →
  (∀ (q : nat) query lo hi,
     queries !! q = Some query →
     offset !! q = Some lo → offset !! S q = Some hi →
     hi - lo ≤ DistributedTree.getK query) →
  ∀ (q : nat) a, offset !! q = Some a → kept_before queries offset q = a.
Proof.
  intros Hcsr Hfit. pose proof Hcsr as (Hlen & Hzero & _).
  induction q as [|q IH]; intros a Ha.
  - simpl. congruence.
  - assert (q < length queries)%nat as Hq.
    { apply lookup_lt_Some in Ha. lia. }
    destruct (lookup_lt_is_Some_2 offset q) as [lo Hlo]; [lia|].
    destruct (lookup_lt_is_Some_2 queries q) as [query Hquery]; [lia|].
    simpl. rewrite (IH lo Hlo). unfold kept_count.
    rewrite Hquery, Hlo, Ha.
    specialize (Hfit q query lo a Hquery Hlo Ha). lia.
Qed.

(** X14.  Where no query has more candidates than it asks for,
    [filterResults] discards nothing: the offsets come out as they went in,
    the buffers keep their length, and the slice of every query holds the
    (index, rank) pairs it held, reordered. *)
Theorem filterResults_keeps_all space queries distances indices offset
    ranks :
  Kokkos.valid_space space →
  csr offset (length queries) →
  KokkosExt.lastElement offset = Some (Z.of_nat (length indices)) →
  length ranks = length indices →
  length distances = length indices →
  Z.of_nat (length queries) < Int.max_int →
  Z.of_nat (length indices) ≤ Int.max_int →
  Forall (λ query, 1 ≤ DistributedTree.getK query) queries →
  (∀ (q : nat) query lo hi,
     queries !! q = Some query →
     offset !! q = Some lo → offset !! S q = Some hi →
     hi - lo ≤ DistributedTree.getK query) →
  ∃ new_indices new_ranks,
    DistributedTree.filterResults space queries distances indices offset ranks
    = Some (new_indices, offset, new_ranks)
    ∧ length new_indices = length indices
    ∧ length new_ranks = length indices
    ∧ ∀ (q : nat) lo hi,
        (q < length queries)%nat →
        offset !! q = Some lo → offset !! S q = Some hi →
        slice lo hi (zip new_indices new_ranks)
        ≡ₚ slice lo hi (zip indices ranks).
Proof.
  intros Hspace Hcsr Hlast Hranks Hdist Hn Hmax Hk Hfit.
  assert (offset !! length queries = Some (Z.of_nat (length indices))) as Htot.
  { by rewrite <-(csr_last _ _ Hcsr). }
  pose proof (kept_before_all queries offset Hcsr Hfit) as Hall.
  destruct (filterResults_run space queries distances indices offset ranks)
    as (ni & nr & -> & Hni & Hnr & Hcells); try done.
  rewrite (Hall _ _ Htot) in Hni.
  assert (new_offsets queries offset = offset) as ->.
  { pose proof Hcsr as (Hlen & _). apply list_eq. intros q.
    destruct (decide (q ≤ length queries)%nat) as [Hq|Hq].
    - destruct (lookup_lt_is_Some_2 offset q) as [a Ha]; [lia|].
      by rewrite new_offsets_lookup, Ha, (Hall q a Ha).
    - rewrite !lookup_ge_None_2; [done|lia|].
      unfold new_offsets. rewrite length_fmap, length_seq. lia. }
  exists ni, nr. split; [done|]. split; [lia|]. split; [lia|].
  intros q lo hi Hq Hlo Hhi.
  destruct (lookup_lt_is_Some_2 queries q) as [query Hquery]; [lia|].
  destruct (kept_of_spec queries distances indices offset ranks q query lo hi)
    as (Hlen & dropped & Hperm & _); try done.
  pose proof Hcsr as (_ & _ & Hstep). specialize (Hstep _ _ _ Hlo Hhi).
  pose proof (csr_nonneg _ _ _ _ Hcsr Hlo) as Hlo0.
  pose proof (csr_mono _ _ (S q) (length queries) hi _ Hcsr
                ltac:(lia) Hhi Htot) as Hhitot.
  assert (kept_count queries offset q = hi - lo) as Hcount.
  { unfold kept_count. rewrite Hquery, Hlo, Hhi.
    specialize (Hfit q query lo hi Hquery Hlo Hhi). lia. }
  assert (dropped = []) as ->.
  { apply Permutation_length in Hperm. rewrite length_app in Hperm.
    assert (Z.of_nat (length (slice lo hi
              (results_of indices ranks distances))) = hi - lo) as Hsl.
    { apply length_slice; [lia|]. unfold results_of.
      rewrite !length_zip_with. lia. }
    apply nil_length_inv. lia. }
  rewrite app_nil_r in Hperm.
  assert (slice lo hi (zip ni nr)
          = (kept_of queries distances indices offset ranks q).*1) as ->.
  { apply list_eq. intros j. rewrite list_lookup_fmap.
    destruct (kept_of queries distances indices offset ranks q !! j)
      as [x|] eqn:Hx.
    - destruct (Hcells q j x Hq Hx) as [Hi Hr].
      rewrite (Hall q lo Hlo) in Hi, Hr.
      apply lookup_lt_Some in Hx as Hj.
      rewrite slice_lookup by lia. simpl.
      destruct x as [[index rank] distance]. by apply lookup_zip_Some.
    - apply lookup_ge_None in Hx. apply lookup_ge_None.
      unfold slice. rewrite length_take. lia. }
  rewrite <-Hperm. unfold slice, results_of.
  rewrite fmap_take, fmap_drop, fst_zip; [done|].
  rewrite length_zip_with. lia.
Qed.

End filter_more.

Lemma filterResults_any_schedule_witness :
  @DistributedTree.filterResults Z Z k_of_query demo_queue Kokkos.serial
    demo_queries demo_distances demo_indices demo_offset demo_ranks
  = @DistributedTree.filterResults Z Z k_of_query demo_queue Kokkos.reversed
      demo_queries demo_distances demo_indices demo_offset demo_ranks.
Proof.
  apply (@filterResults_any_schedule Z Z k_of_query tenths demo_queue
           (list_priority_queue_laws _ compare_tenths_order)
           Kokkos.serial Kokkos.reversed demo_queries demo_distances
           demo_indices demo_offset demo_ranks).
  - exact serial_valid.
  - exact reversed_valid.
  - exact csr_044.
  - reflexivity.
  - reflexivity.
  - reflexivity.
  - vm_compute. reflexivity.
  - vm_compute. congruence.
  - repeat constructor; unfold DistributedTree.getK, k_of_query; lia.
Defined.

(** The same candidates, two for each of the two queries: none is in
    excess. *)
Definition even_offset : list Z := [0; 2; 4].

Lemma csr_024 : csr even_offset 2.
Proof.
  split; [done|]. split; [done|].
  intros [|[|[|q]]] a b Ha Hb; simplify_eq/=; lia.
Qed.

Lemma filterResults_keeps_all_witness :
  ∃ new_indices new_ranks,
    @DistributedTree.filterResults Z Z k_of_query demo_queue Kokkos.reversed
      demo_queries demo_distances demo_indices even_offset demo_ranks
    = Some (new_indices, even_offset, new_ranks)
    ∧ length new_indices = length demo_indices
    ∧ length new_ranks = length demo_indices
    ∧ ∀ (q : nat) lo hi,
        (q < length demo_queries)%nat →
        even_offset !! q = Some lo → even_offset !! S q = Some hi →
        slice lo hi (zip new_indices new_ranks)
        ≡ₚ slice lo hi (zip demo_indices demo_ranks).
Proof.
  apply (@filterResults_keeps_all Z Z k_of_query tenths demo_queue
           (list_priority_queue_laws _ compare_tenths_order)
           Kokkos.reversed demo_queries demo_distances demo_indices
           even_offset demo_ranks).
  - exact reversed_valid.
  - exact csr_024.
  - reflexivity.
  - reflexivity.
  - reflexivity.
  - vm_compute. reflexivity.
  - vm_compute. congruence.
  - repeat constructor; unfold DistributedTree.getK, k_of_query; lia.
  - intros [|[|q]] query lo hi Hquery Hlo Hhi; simplify_eq/=;
      unfold DistributedTree.getK, k_of_query; lia.
Defined.

Example filterResults_nothing_in_excess :
  @DistributedTree.filterResults Z Z k_of_query demo_queue Kokkos.reversed
    demo_queries demo_distances demo_indices even_offset demo_ranks
  = Some ([11; 12; 32; 31], [0; 2; 4], [1; 1; 3; 3]).
Proof. vm_compute. reflexivity. Qed.

(** ** communicateResultsBack: where each result goes *)

(** The plan addresses every item of a batch to the rank of the batch. *)
Lemma batched_lookup ranks offset n (q i : nat) rank :
  csr offset n → length ranks = n →
  ranks !! q = Some rank → owns offset q (Z.of_nat i) →
  DistributedTree.batched_destinations ranks offset !! i = Some rank.
Proof.
  intros Hcsr Hranks Hrank (lo & hi & Hlo & Hhi & Hi)%owns_iff.
  assert (q < n)%nat as Hq by (apply lookup_lt_Some in Hrank; lia).
  pose proof (length_batched_prefix ranks offset n q Hcsr Hranks ltac:(lia))
    as Hprefix.
  rewrite (list_lookup_total_correct _ _ _ Hlo) in Hprefix.
  rewrite <-(take_drop_middle ranks q rank Hrank).
  unfold DistributedTree.batched_destinations in *.
  rewrite imap_app, join_app.
  rewrite lookup_app_r by lia.
  rewrite imap_cons. simpl. rewrite lookup_app_l.
  - apply lookup_replicate_2. rewrite length_take.
    replace (q `min` length ranks + 0)%nat with q by lia.
    rewrite (list_lookup_total_correct _ _ _ Hlo).
    rewrite (list_lookup_total_correct _ _ _ Hhi). lia.
  - rewrite length_replicate, length_take.
    replace (q `min` length ranks + 0)%nat with q by lia.
    rewrite (list_lookup_total_correct _ _ _ Hlo).
    rewrite (list_lookup_total_correct _ _ _ Hhi). lia.
Qed.

(** X15.  [communicateResultsBack] sends each result back to where its
    query came from: at every position [i] that the offsets give to
    forwarded query [q], the plan's destination is [ranks(q)], the id
    exported is [ids(q)], the rank exported is the caller's own, and the
    payload exported is [out(i)]. *)
Theorem communicateResultsBack_addresses {Out D}
    `{!DistributedTree.Transport Z, !DistributedTree.Transport Out,
      !DistributedTree.Transport D}
    comm space (out : list Out) offset ranks ids
    (distances_ptr : option (list D)) log :
  gather_ready comm space out offset ranks ids distances_ptr →
  ∃ export_ranks export_ids res,
    DistributedTree.communicateResultsBack comm space out offset ranks ids
      distances_ptr log
    = DistributedTree.Done res
        (log ++ gather_events
                  (plan comm (DistributedTree.batched_destinations ranks offset))
                  export_ranks export_ids out distances_ptr)
    ∧ ∀ (q i : nat) rank id,
        ranks !! q = Some rank → ids !! q = Some id →
        owns offset q (Z.of_nat i) →
        DistributedTree.destinations
          (plan comm (DistributedTree.batched_destinations ranks offset)) !! i
          = Some rank
        ∧ export_ids !! i = Some (Some id)
        ∧ export_ranks !! i = Some (Some (DistributedTree.MPI_Comm_rank comm))
        ∧ is_Some (out !! i).
Proof.
  intros Hready.
  destruct (communicateResultsBack_run comm space out offset ranks ids
              distances_ptr log Hready)
    as (export_ids & _ & _ & Hown & Hrun).
  destruct Hready as [_ Hcsr Hranks Hlast _ _ _].
  eexists _, export_ids, _. split; [exact Hrun|].
  intros q i rank id Hrank Hid Howns.
  assert (Z.of_nat i < Z.of_nat (length out)) as Hi.
  { assert (offset !! length ids = Some (Z.of_nat (length out))) as Htot.
    { by rewrite <-(csr_last _ _ Hcsr). }
    apply owns_iff in Howns as (lo & hi & Hlo & Hhi & Hi).
    apply lookup_lt_Some in Hid.
    pose proof (csr_mono _ _ (S q) (length ids) hi _ Hcsr
                  ltac:(lia) Hhi Htot). lia. }
  split; [by eapply batched_lookup|]. split; [by eapply Hown|].
  split; [apply lookup_replicate_2; lia|].
  apply lookup_lt_is_Some. lia.
Qed.

Lemma communicateResultsBack_addresses_witness :
  ∃ export_ranks export_ids res,
    @DistributedTree.communicateResultsBack string Z (echo 0) (echo "") (echo 0)
      (loopback 1) Kokkos.reversed ["x"; "y"; "z"] [0; 2; 3] [1; 1] [7; 9]
      None []
    = DistributedTree.Done res
        ([] ++ gather_events
                 (plan (loopback 1)
                    (DistributedTree.batched_destinations [1; 1] [0; 2; 3]))
                 export_ranks export_ids ["x"; "y"; "z"] (@None (list Z)))
    ∧ ∀ (q i : nat) rank id,
        [1; 1] !! q = Some rank → [7; 9] !! q = Some id →
        owns [0; 2; 3] q (Z.of_nat i) →
        DistributedTree.destinations
          (plan (loopback 1)
             (DistributedTree.batched_destinations [1; 1] [0; 2; 3])) !! i
          = Some rank
        ∧ export_ids !! i = Some (Some id)
        ∧ export_ranks !! i
          = Some (Some (DistributedTree.MPI_Comm_rank (loopback 1)))
        ∧ is_Some (["x"; "y"; "z"] !! i).
Proof.
  apply (@communicateResultsBack_addresses string Z (echo 0) (echo "")
           (echo 0) (loopback 1) Kokkos.reversed ["x"; "y"; "z"] [0; 2; 3]
           [1; 1] [7; 9] None []).
  apply loopback_ready. intros distances [=].
Defined.

(** ** countResults, then filterResults *)

Lemma csr_offsets_csr n ids :
  0 ≤ n → Forall (λ q, 0 ≤ q) ids → csr (csr_offsets n ids) (Z.to_nat n).
Proof.
  intros Hn Hids. split; [|split].
  - unfold csr_offsets. by rewrite length_fmap, length_seq.
  - apply csr_offsets_lookup. split; [|lia]. symmetry. apply below_none.
    eapply Forall_impl; [exact Hids|]. simpl. lia.
  - intros q a b [-> _]%csr_offsets_lookup [-> _]%csr_offsets_lookup.
    replace (Z.of_nat (S q)) with (Z.of_nat q + 1) by lia.
    rewrite below_succ. pose proof (occurrences_bounds (Z.of_nat q) ids).
    lia.
Qed.

Section count_then_filter.
Context {Query D : Type}.
Context `{!DistributedTree.Nearest Query, !DistributedTree.Distance D}.
Context `{!DistributedTree.PriorityQueue (DistributedTree.PairIndexDistance D)}.
Context `{!PriorityQueueLaws DistributedTree.CompareDistance _}.

(** X16.  The offsets that [countResults] computes from the query ids of
    the results are offsets that [filterResults] accepts: run on them, it
    is defined, and in its new offsets query [q] has as many entries as
    results name it, or [k(q)] if that is less. *)
Theorem countResults_then_filterResults space (queries : list Query)
    (distances : list D) indices ranks ids prior :
  Kokkos.valid_space space →
  Z.of_nat (length queries) < Int.max_int →
  Z.of_nat (length ids) ≤ Int.max_int →
  Forall (λ q, 0 ≤ q < Z.of_nat (length queries)) ids →
  length indices = length ids →
  length ranks = length ids →
  length distances = length ids →
  Forall (λ query, 1 ≤ DistributedTree.getK query) queries →
  ∃ offset new_indices new_offset new_ranks,
    DistributedTree.countResults space (Z.of_nat (length queries)) ids prior
    = Some offset
    ∧ DistributedTree.filterResults space queries distances indices offset
        ranks
      = Some (new_indices, new_offset, new_ranks)
    ∧ ∀ (q : nat) query, queries !! q = Some query →
        ∃ lo, new_offset !! q = Some lo
              ∧ new_offset !! S q
                = Some (lo + Z.min (occurrences (Z.of_nat q) ids)
                                   (DistributedTree.getK query)).
Proof.
  intros Hspace Hn Hmax Hids Hindices Hranks Hdist Hk.
  set (offset := csr_offsets (Z.of_nat (length queries)) ids).
  assert (csr offset (length queries)) as Hcsr.
  { pose proof (csr_offsets_csr (Z.of_nat (length queries)) ids) as Hc.
    rewrite Nat2Z.id in Hc. apply Hc; [lia|].
    eapply Forall_impl; [exact Hids|]. simpl. lia. }
  assert (KokkosExt.lastElement offset = Some (Z.of_nat (length indices)))
    as Hlast.
  { rewrite (csr_last _ _ Hcsr). apply csr_offsets_lookup. split; [|lia].
    rewrite Hindices. symmetry. apply below_all.
    eapply Forall_impl; [exact Hids|]. simpl. lia. }
  destruct (filterResults_run space queries distances indices offset ranks)
    as (ni & nr & Hrun & _); try done; try lia.
  exists offset, ni, (new_offsets queries offset), nr.
  split; [apply countResults_closed_form; try done; lia|].
  split; [done|].
  intros q query Hquery.
  assert (q < length queries)%nat as Hq by (by eapply lookup_lt_Some).
  exists (kept_before queries offset q).
  rewrite !new_offsets_lookup by lia. split; [done|].
  assert (offset !! q = Some (below (Z.of_nat q) ids)) as Hlo.
  { apply csr_offsets_lookup. split; [done|lia]. }
  assert (offset !! S q = Some (below (Z.of_nat q + 1) ids)) as Hhi.
  { apply csr_offsets_lookup. split; [f_equal; lia|lia]. }
  simpl. do 2 f_equal. unfold kept_count. rewrite Hquery, Hlo, Hhi.
  rewrite below_succ. f_equal. lia.
Qed.

End count_then_filter.

(** Four results: three name query 0, which asks for three, and one names
    query 1, which asks for two. *)
Lemma countResults_then_filterResults_witness :
  ∃ offset new_indices new_offset new_ranks,
    DistributedTree.countResults Kokkos.reversed
      (Z.of_nat (length demo_queries)) [0; 0; 0; 1] [] = Some offset
    ∧ @DistributedTree.filterResults Z Z k_of_query demo_queue Kokkos.reversed
        demo_queries demo_distances demo_indices offset demo_ranks
      = Some (new_indices, new_offset, new_ranks)
    ∧ ∀ (q : nat) query, demo_queries !! q = Some query →
        ∃ lo, new_offset !! q = Some lo
              ∧ new_offset !! S q
                = Some (lo + Z.min (occurrences (Z.of_nat q) [0; 0; 0; 1])
                                   (@DistributedTree.getK Z k_of_query query)).
Proof.
  apply (@countResults_then_filterResults Z Z k_of_query tenths demo_queue
           (list_priority_queue_laws _ compare_tenths_order)
           Kokkos.reversed demo_queries demo_distances demo_indices
           demo_ranks [0; 0; 0; 1] []).
  - exact reversed_valid.
  - vm_compute. reflexivity.
  - vm_compute. congruence.
  - repeat constructor; simpl; lia.
  - reflexivity.
  - reflexivity.
  - reflexivity.
  - repeat constructor; unfold DistributedTree.getK, k_of_query; lia.
Defined.
